(** * Media task manager: registration, ledger and bounded execution

    A shallow embedding of [scripts/media-processing/media-manager.js]
    (class [MediaManager]: the constructor with its check of the
    dependencies, the directory scan, the lookups by slug, [addTask],
    [_runTask], [runTasks]), of [image-sizer.js] (the constructor of
    [ImageSizer] with its registrations, [generateCovertCmd]), of the
    options of [index.js], and of the tree walk and the replacement of
    quotes of [parseArchieML.js].

    Conventions of the embedding:
    - strings are sequences of ASCII characters;
    - a JS object used as a dictionary is a [gmap] keyed by strings (own
      keys only; the prototype chain is not consulted);
    - the ledger [privateData] has the shape the program itself writes:
      slug -> command signature -> fingerprint, all strings;
    - a command is either a string (run through [exec]) or a JS function;
    - a JS exception is an explicit outcome that keeps the mutations made
      before the [throw];
    - the instance that runs is one whose constructor found its
      dependencies, and the run is driven as [ImageSizer] drives it: [ready]
      is deferred by the constructor and its listener defers [runTasks];
    - the items [ImageSizer] registers have no [crops], and it has no
      plugins;
    - what the code calls but does not contain is kept apart: [crypto],
      [slug] and [openssl] are the fields of the class [Platform]; the
      functions of [path], the regular expression of the scan, the event
      emitter, [_.defer] and the queue of [queue-async] are written out from
      the behaviour of these libraries, next to the code that uses them. *)

From Stdlib Require Import ZArith Ascii String.
From stdpp Require Import gmap strings list pretty.

Open Scope string_scope.
Open Scope list_scope.

(** ** Data model *)

(** [cmd] of [addTask]: [typeof cmd === 'string'] or a function.  For a
    function we keep what the code reads from it: [cmd.name],
    [cmd.toString()], and whether calling it invokes the continuation it
    receives before it returns ([eager]) or leaves that to a later turn of
    the event loop. *)
Inductive command : Type :=
  | CmdString (text : string)
  | CmdFunction (name : string) (source : string) (eager : bool).

(** [publicData] of a scanned file. *)
Record publicData : Type := PublicData {
  slug : string;
  extension : string
}.

(** One element of [sourcePrivateData]. *)
Record privateRecord : Type := PrivateRecord {
  srcFolderPath : string;
  srcFileName : string;
  srcFilePath : string;
  pslug : string;
  srcFileHash : string
}.

(** An element of [neededTasks].  The client callbacks [onComplete] and
    [onTimeout] are opaque client code; their calls are observed in the
    trace of the run. *)
Record task : Type := Task {
  cmd : command;
  tslug : string;
  media : option publicData
}.

#[global] Instance command_eq_dec : EqDecision command.
Proof. solve_decision. Defined.
#[global] Instance publicData_eq_dec : EqDecision publicData.
Proof. solve_decision. Defined.
#[global] Instance task_eq_dec : EqDecision task.
Proof. solve_decision. Defined.

(** The registry part of a [MediaManager] instance, with the part of the
    file system that [addTask] consults ([fs.existsSync]). *)
Record registry : Type := Registry {
  forceTask : bool;
  privateData : gmap string (gmap string string);
  sourcePublicData : list publicData;
  sourcePrivateData : list privateRecord;
  disk : gset string;
  allTasks : list command;
  neededTasks : list task
}.

(** Outcome of a method call that may throw. *)
Inductive outcome (A : Type) : Type :=
  | Returned (a : A)
  | Threw (a : A).
Arguments Returned {A} a.
Arguments Threw {A} a.

(** JS truthiness of a string: only the empty string is falsy. *)
Definition truthy (s : string) : bool :=
  match s with EmptyString => false | String _ _ => true end.

(** Third-party functions the code calls.
    - [sha256_hex s] is [crypto.createHash('sha256').update(s).digest('hex')];
    - [slugify s] is [slug(s, {lower: true})];
    - [getFileHash path] is the trimmed output of
      [openssl md5 "path" | cut -d "=" -f 2] for the current content of
      the file (empty when [openssl] prints nothing on its standard
      output: the exit status of the pipeline is that of [cut]). *)
Class Platform : Type := {
  sha256_hex : string -> string;
  slugify : string -> string;
  getFileHash : string -> string
}.

Section Registration.

Context `{Platform}.

(** [getMetadata], [getPrivateData] and the lookups by slug:
    [_.find(list, {slug: slug})] returns the first match. *)
Definition getMetadataBySlug (r : registry) (s : string) : option publicData :=
  List.find (fun p => bool_decide (slug p = s)) (sourcePublicData r).

Definition getPrivateDataBySlug (r : registry) (s : string) : option privateRecord :=
  List.find (fun p => bool_decide (pslug p = s)) (sourcePrivateData r).

(** [getFilePathFromMeta(metaObj)]; [None] stands for the TypeError of
    reading [.srcFilePath] of [undefined]. *)
Definition getFilePathFromMeta (r : registry) (metaObj : publicData) : option string :=
  srcFilePath <$> getPrivateDataBySlug r (slug metaObj).

(** [cmdLog], line 251. *)
Definition cmdLog (c : command) : string :=
  match c with
  | CmdString text => text
  | CmdFunction name source _ => name +:+ sha256_hex source
  end.

(** [privateData[slug][cmdLog]] when both levels are present. *)
Definition ledgerEntry (r : registry) (s sig : string) : option string :=
  privateData r !! s ≫= fun entry => entry !! sig.

(** Line 255, with the short-circuit order of [||].  [privateData] is an
    object, hence truthy; [privateData[slug]] is an object or absent.  The
    last disjunct reads [mediaPrivateData.srcFileHash]: [None] stands for
    the TypeError raised there when the slug is unknown. *)
Definition firstTest (r : registry) (s sig : string) : option bool :=
  match privateData r !! s with
  | None => Some true
  | Some entry =>
      match entry !! sig with
      | None => Some true
      | Some recorded =>
          if truthy recorded then
            match getPrivateDataBySlug r s with
            | None => None
            | Some mp => Some (negb (bool_decide (recorded = srcFileHash mp)))
            end
          else Some true
      end
  end.

(** Lines 255-268: the value of [runTask] before [if (runTask)]. *)
Definition runTaskFlag (r : registry) (c : command) (s outputFilePath : string)
  : option bool :=
  match firstTest r s (cmdLog c) with
  | None => None
  | Some b0 =>
      let b1 := if negb b0 && negb (bool_decide (outputFilePath ∈ disk r))
                then true else b0 in
      let b2 := if negb b1 && forceTask r then true else b1 in
      Some b2
  end.

Definition setPrivateData (r : registry) (pd : gmap string (gmap string string)) : registry :=
  Registry (forceTask r) pd (sourcePublicData r) (sourcePrivateData r)
           (disk r) (allTasks r) (neededTasks r).

Definition pushNeeded (r : registry) (t : task) : registry :=
  Registry (forceTask r) (privateData r) (sourcePublicData r) (sourcePrivateData r)
           (disk r) (allTasks r) (neededTasks r ++ [t]).

Definition pushAll (r : registry) (c : command) : registry :=
  Registry (forceTask r) (privateData r) (sourcePublicData r) (sourcePrivateData r)
           (disk r) (allTasks r ++ [c]) (neededTasks r).

(** [addTask(cmd, slug, outputFilePath, onComplete, onTimeout)]. *)
Definition addTask (r : registry) (c : command) (s outputFilePath : string)
  : outcome registry :=
  let mediaPublicData := getMetadataBySlug r s in
  let mediaPrivateData := getPrivateDataBySlug r s in
  match runTaskFlag r c s outputFilePath with
  | None => Threw r
  | Some false => Returned (pushAll r c)
  | Some true =>
      (* if (!privateData[slug]) privateData[slug] = {}; *)
      let entry := default ∅ (privateData r !! s) in
      let r1 := match privateData r !! s with
                | None => setPrivateData r (<[s := ∅]> (privateData r))
                | Some _ => r
                end in
      (* privateData[slug][cmdLog] = mediaPrivateData.srcFileHash; *)
      match mediaPrivateData with
      | None => Threw r1
      | Some mp =>
          let r2 := setPrivateData r1
                      (<[s := <[cmdLog c := srcFileHash mp]> entry]> (privateData r1)) in
          let r3 := pushNeeded r2 (Task c s mediaPublicData) in
          Returned (pushAll r3 c)
      end
  end.

(** The decision rule in the words of the specification (4.2): needed
    when there is no entry for the pair, or the recorded fingerprint
    differs from the current one, or the output is absent, or the force
    flag is set. *)
Definition spec_needsRun (entry : option string) (current : string)
    (outputExists force : bool) : bool :=
  match entry with
  | None => true
  | Some recorded => negb (bool_decide (recorded = current))
  end || negb outputExists || force.

(** The rule [addTask] implements, for a slug the scan produced: as
    above, with an empty recorded fingerprint counting as no record. *)
Definition neededCondition (r : registry) (c : command) (s outputFilePath : string)
    (current : string) : Prop :=
  ledgerEntry r s (cmdLog c) = None \/
  ledgerEntry r s (cmdLog c) = Some EmptyString \/
  ledgerEntry r s (cmdLog c) <> Some current \/
  outputFilePath ∉ disk r \/
  forceTask r = true.

End Registration.

(** ** Execution: [_runTask], [runTasks], the queue and the event loop *)

Inductive level : Type := Info | Verbose | Error.

(** [getTasksMetaData()]: the three counters of the payload. *)
Record tasksMetaData : Type := TasksMetaData {
  numberOfTasksRequested : nat;
  numberOfTasksNeeded : nat;
  numberOfTasksRun : nat
}.

(** Events of the [MediaManager] namespace. *)
Inductive event : Type :=
  | Ready
  | AllTasksReady (md : tasksMetaData)
  | AllTasksRunning (md : tasksMetaData)
  | TaskDone (cmdName : string) (m : option publicData)
  | AllTasksDone (md : tasksMetaData)
  | Done (md : tasksMetaData).

(** What a run does that can be observed from outside, in order. *)
Inductive obs : Type :=
  | Emit (e : event)
  | Log (l : level) (msg : string)
  | Exec (i : nat) (text : string) (timeout : Z)
  | CallFunction (i : nat)
  | OnComplete (i : nat) (arg : option string)
  | OnTimeout (i : nat)
  | Kill (i : nat)
  | WritePublicData
  | WritePrivateData (ledger : gmap string (gmap string string)).

(** What the handlers installed by [_runTask] ask for.  [DoCallback] is a
    call of the [callback] the queue passed to the task; [DoKill] would be
    [task.kill()]. *)
Inductive effect : Type :=
  | DoLog (l : level) (msg : string)
  | DoOnComplete (arg : option string)
  | DoOnTimeout
  | DoLocalComplete
  | DoCallback
  | DoKill.

#[global] Instance level_eq_dec : EqDecision level.
Proof. solve_decision. Defined.
#[global] Instance effect_eq_dec : EqDecision effect.
Proof. solve_decision. Defined.

(** What a child process reports: a chunk on a stream, or its exit
    ([None] is the [null] exit code of a child ended by a signal, which is
    how the [timeout] option of [exec] ends it). *)
Inductive childEvent : Type :=
  | StdoutData (data : string)
  | StderrData (data : string)
  | Exit (code : option Z).

(** [exec(cmd, { timeout: 1000 * 60 * 10 })], in milliseconds. *)
Definition execTimeout : Z := 1000 * 60 * 10.

(** The three handlers of a string command, lines 325-347.  The first
    component is the local variable [stdout]. *)
Definition onStdoutData (stdout data : string) : string * list effect :=
  (stdout +:+ data, [DoLog Verbose data]).

Definition onStderrData (data : string) : list effect :=
  [DoLog Error ("exec error: " +:+ data); DoCallback].

Definition onExit (stdout : string) (code : option Z) : list effect :=
  (if truthy stdout then [DoLog Verbose stdout] else []) ++
  match code with
  | None => [DoOnTimeout]
  | Some _ => [DoOnComplete (Some stdout); DoLocalComplete]
  end ++ [DoCallback].

Definition childStep (stdout : string) (ev : childEvent) : string * list effect :=
  match ev with
  | StdoutData data => onStdoutData stdout data
  | StderrData data => (stdout, onStderrData data)
  | Exit code => (stdout, onExit stdout code)
  end.

(** The handlers run over the reports of one child, in order. *)
Fixpoint childRun (stdout : string) (evs : list childEvent) : string * list effect :=
  match evs with
  | [] => (stdout, [])
  | ev :: evs' =>
      let '(stdout1, effs) := childStep stdout ev in
      let '(stdout2, effs') := childRun stdout1 evs' in
      (stdout2, effs ++ effs')
  end.

(** The continuation handed to a function command, lines 351-355. *)
Definition continuation : list effect :=
  [DoOnComplete None; DoLocalComplete; DoCallback].

(** State of what a deferred task has become. *)
Inductive child : Type :=
  | Idle
  | Spawned (stdout : string) (exited : bool)
  | Invoked (continued : nat).

(** [queue(parallelism)] of the library [queue-async] (release 1.0): the
    variables of its closure.  The library is not part of the repository;
    the functions below follow its source:
    - [defer] pushes the task, increments [remaining] and calls [pop];
    - [pop] starts tasks, in the order they were pushed, while
      [started < tasks.length && active < parallelism], where a
      [parallelism] of 0 stands for no limit; a task is called at once,
      inside [pop], with its [callback];
    - every call of a [callback] decrements [active] and [remaining] (there
      is no guard against a second call): at zero it calls [notify], else it
      calls [pop] unless [pop] is already running;
    - [await] stores its function and calls [notify] if nothing remains.
    [error] stays [null] here because the code always calls [callback()]
    without arguments, and the result slots [tasks[i] = r] are never read. *)
Record queue : Type := Queue {
  parallelism : nat;
  tasks : list task;
  started : nat;
  active : Z;
  remaining : Z;
  awaiting : bool
}.

(** [setTimeout] callbacks scheduled by [_.defer]. *)
Inductive deferred : Type :=
  | EmitReady
  | CallRunTasks
  | Finish.

Record manager : Type := Manager {
  reg : registry;
  taskQueue : queue;
  children : list child;
  timers : list deferred;
  listening : bool;
  tasksRun : nat;
  trace : list obs
}.

(** What the environment does between two turns of the event loop. *)
Inductive stimulus : Type :=
  | Tick
  | FromChild (i : nat) (ev : childEvent)
  | Continue (i : nat).

Section Execution.

Definition say (o : obs) (m : manager) : manager :=
  Manager (reg m) (taskQueue m) (children m) (timers m) (listening m)
          (tasksRun m) (trace m ++ [o]).

Definition setQueue (q : queue) (m : manager) : manager :=
  Manager (reg m) q (children m) (timers m) (listening m) (tasksRun m) (trace m).

Definition setChildren (cs : list child) (m : manager) : manager :=
  Manager (reg m) (taskQueue m) cs (timers m) (listening m) (tasksRun m) (trace m).

Definition setTimers (ts : list deferred) (m : manager) : manager :=
  Manager (reg m) (taskQueue m) (children m) ts (listening m) (tasksRun m) (trace m).

Definition setListening (m : manager) : manager :=
  Manager (reg m) (taskQueue m) (children m) (timers m) true (tasksRun m) (trace m).

Definition bumpTasksRun (m : manager) : manager :=
  Manager (reg m) (taskQueue m) (children m) (timers m) (listening m)
          (S (tasksRun m)) (trace m).

Definition defer (d : deferred) (m : manager) : manager :=
  setTimers (timers m ++ [d]) m.

Definition getTasksMetaData (m : manager) : tasksMetaData :=
  TasksMetaData (length (allTasks (reg m))) (length (neededTasks (reg m))) (tasksRun m).

(** [emit]: the listeners run synchronously.  [ready] is heard by the
    listener of [ImageSizer], which defers [runTasks]; [taskdone] and
    [alltasksdone] are heard by the listeners [runTasks] installs. *)
Definition emit (e : event) (m : manager) : manager :=
  let m1 := say (Emit e) m in
  match e with
  | Ready => defer CallRunTasks m1
  | TaskDone _ _ => if listening m1 then bumpTasksRun m1 else m1
  | AllTasksDone _ => if listening m1 then defer Finish m1 else m1
  | _ => m1
  end.

Definition cmdName (c : command) : string :=
  match c with
  | CmdString text => text
  | CmdFunction name _ _ => name
  end.

(** [localComplete], lines 309-315. *)
Definition localComplete (t : task) (m : manager) : manager :=
  emit (TaskDone (cmdName (cmd t)) (getMetadataBySlug (reg m) (tslug t)))
       (say (Log Info ("Done: " +:+ cmdName (cmd t))) m).

(** queue-async: [notify] with the [await] callback of [runTasks] (or
    the initial no-op). *)
Definition notify (m : manager) : manager :=
  if awaiting (taskQueue m) then emit (AllTasksDone (getTasksMetaData m)) m else m.

(** [active < parallelism], where [queue(0)] means no limit. *)
Definition slotFree (q : queue) : bool :=
  match parallelism q with
  | O => true
  | S _ => bool_decide (active q < Z.of_nat (parallelism q))%Z
  end.

Definition released (q : queue) : queue :=
  Queue (parallelism q) (tasks q) (started q) (active q - 1) (remaining q - 1) (awaiting q).

(** [callback(i)] called while [pop] is running ([popping] is true). *)
Definition callbackInPop (i : nat) (m : manager) : manager :=
  let m1 := setQueue (released (taskQueue m)) m in
  if bool_decide (remaining (taskQueue m1) = 0)%Z then notify m1 else m1.

Definition perform (k : nat -> manager -> manager) (i : nat) (t : task)
    (e : effect) (m : manager) : manager :=
  match e with
  | DoLog l msg => say (Log l msg) m
  | DoOnComplete arg => say (OnComplete i arg) m
  | DoOnTimeout => say (OnTimeout i) m
  | DoLocalComplete => localComplete t m
  | DoCallback => k i m
  | DoKill => say (Kill i) m
  end.

Definition performAll (k : nat -> manager -> manager) (i : nat) (t : task)
    (effs : list effect) (m : manager) : manager :=
  foldl (fun m0 e => perform k i t e m0) m effs.

(** The function deferred by [_runTask], lines 317-357, as [pop] calls
    it for [tasks[i]]. *)
Definition startTask (i : nat) (t : task) (m : manager) : manager :=
  match cmd t with
  | CmdString text =>
      say (Exec i text execTimeout)
          (setChildren (<[i := Spawned EmptyString false]> (children m)) m)
  | CmdFunction _ _ eager =>
      let m1 := say (CallFunction i) m in
      if eager then
        performAll callbackInPop i t continuation
          (setChildren (<[i := Invoked 1]> (children m1)) m1)
      else setChildren (<[i := Invoked 0]> (children m1)) m1
  end.

(** [pop]: one iteration of its [while] per unit of fuel. *)
Fixpoint popLoop (fuel : nat) (m : manager) : manager :=
  match fuel with
  | O => m
  | S fuel' =>
      let q := taskQueue m in
      if bool_decide (started q < length (tasks q)) && slotFree q then
        match tasks q !! started q with
        | Some t =>
            let q1 := Queue (parallelism q) (tasks q) (S (started q))
                            (active q + 1) (remaining q) (awaiting q) in
            popLoop fuel' (startTask (started q) t (setQueue q1 m))
        | None => m
        end
      else m
  end.

Definition pop (m : manager) : manager :=
  popLoop (length (tasks (taskQueue m)) - started (taskQueue m)) m.

(** [callback(i)] called from a later turn of the event loop. *)
Definition callback (i : nat) (m : manager) : manager :=
  let m1 := setQueue (released (taskQueue m)) m in
  if bool_decide (remaining (taskQueue m1) = 0)%Z then notify m1 else pop m1.

(** [taskQueue.defer(function (callback) {...})]. *)
Definition queueDefer (t : task) (m : manager) : manager :=
  let q := taskQueue m in
  let q1 := Queue (parallelism q) (tasks q ++ [t]) (started q) (active q)
                  (remaining q + 1) (awaiting q) in
  pop (setQueue q1 (setChildren (children m ++ [Idle]) m)).

(** [taskQueue.await(f)]. *)
Definition queueAwait (m : manager) : manager :=
  let q := taskQueue m in
  let m1 := setQueue (Queue (parallelism q) (tasks q) (started q) (active q)
                            (remaining q) true) m in
  if bool_decide (remaining q = 0)%Z then notify m1 else m1.

(** [_runTask(task)]. *)
Definition _runTask (t : task) (m : manager) : manager :=
  queueDefer t (say (Log Info ("Starting: " +:+ cmdName (cmd t))) m).

(** The [forEach] of [runTasks], lines 407-410. *)
Fixpoint forEachNeeded (ts : list task) (index : nat) (m : manager) : manager :=
  match ts with
  | [] => m
  | t :: ts' =>
      let m1 := _runTask t m in
      let m2 := if bool_decide (index + 1 = length (neededTasks (reg m1)))
                then emit (AllTasksRunning (getTasksMetaData m1)) m1 else m1 in
      forEachNeeded ts' (S index) m2
  end.

(** [runTasks()]. *)
Definition runTasks (m : manager) : manager :=
  let m1 := setListening m in
  let m2 := emit (AllTasksReady (getTasksMetaData m1)) m1 in
  if bool_decide (0 < length (neededTasks (reg m2))) then
    queueAwait (forEachNeeded (neededTasks (reg m2)) 0 m2)
  else
    let m3 := emit (AllTasksRunning (getTasksMetaData m2)) m2 in
    emit (AllTasksDone (getTasksMetaData m3)) m3.

(** The three functions handed to [_.defer]: by the listener of [ready]
    of image-sizer.js, and by the listener of [alltasksdone], lines 391-395
    (the two writes are made when their paths are configured, as assumed
    here; the line each logs with its path is left out). *)
Definition runDeferred (d : deferred) (m : manager) : manager :=
  match d with
  | EmitReady => emit Ready m
  | CallRunTasks => runTasks m
  | Finish =>
      let m1 := say WritePublicData m in
      let m2 := say (WritePrivateData (privateData (reg m1))) m1 in
      emit (Done (getTasksMetaData m2)) m2
  end.

(** One turn of the event loop. *)
Definition deliver (s : stimulus) (m : manager) : manager :=
  match s with
  | Tick =>
      match timers m with
      | [] => m
      | d :: ds => runDeferred d (setTimers ds m)
      end
  | FromChild i ev =>
      match children m !! i, tasks (taskQueue m) !! i with
      | Some (Spawned stdout exited), Some t =>
          match ev with
          | Exit _ =>
              if exited then m
              else performAll callback i t (snd (childStep stdout ev))
                     (setChildren (<[i := Spawned stdout true]> (children m)) m)
          | _ =>
              let '(stdout1, effs) := childStep stdout ev in
              performAll callback i t effs
                (setChildren (<[i := Spawned stdout1 exited]> (children m)) m)
          end
      | _, _ => m
      end
  | Continue i =>
      match children m !! i, tasks (taskQueue m) !! i with
      | Some (Invoked n), Some t =>
          performAll callback i t continuation
            (setChildren (<[i := Invoked (S n)]> (children m)) m)
      | _, _ => m
      end
  end.

Definition run (m : manager) (script : list stimulus) : manager :=
  foldl (fun m0 s => deliver s m0) m script.

(** The instance as its constructor leaves it: [ready] deferred, an
    empty queue of the configured parallelism, nothing emitted. *)
Definition newManager (r : registry) (numberOfConcurrentTask : nat) : manager :=
  Manager r (Queue numberOfConcurrentTask [] 0 0 0 false) [] [EmitReady] false 0 [].

Definition events (m : manager) : list event :=
  omap (fun o => match o with Emit e => Some e | _ => None end) (trace m).

(** Tasks started and not yet finished: children that have not exited,
    functions that have not called back. *)
Definition busy (c : child) : bool :=
  match c with
  | Spawned _ false | Invoked O => true
  | _ => false
  end.

Definition outstanding (m : manager) : nat :=
  length (List.filter busy (children m)).

End Execution.

Arguments emit : simpl never.
Arguments localComplete : simpl never.
Arguments notify : simpl never.
Arguments callbackInPop : simpl never.
Arguments callback : simpl never.
Arguments pop : simpl never.
Arguments startTask : simpl never.
Arguments queueDefer : simpl never.
Arguments queueAwait : simpl never.
Arguments _runTask : simpl never.
Arguments runTasks : simpl never.
Arguments runDeferred : simpl never.
Arguments deliver : simpl never.
Arguments performAll : simpl never.

(** ** The directory scan: [getFilesInFolder] and the constructor *)

(** ASCII part of [String.prototype.toLowerCase]. *)
Definition lowerAscii (c : ascii) : ascii :=
  let n := nat_of_ascii c in
  if (65 <=? n)%nat && (n <=? 90)%nat then ascii_of_nat (n + 32) else c.

Fixpoint toLowerCase (s : string) : string :=
  match s with
  | EmptyString => EmptyString
  | String c s' => String (lowerAscii c) (toLowerCase s')
  end.

(** Characters the regular-expression atom [.] does not match. *)
Definition lineTerminator (c : ascii) : bool :=
  let n := nat_of_ascii c in (n =? 10)%nat || (n =? 13)%nat.

(** [s] is one character matched by [.] followed by exactly [ext]. *)
Definition dotThen (ext s : string) : bool :=
  match s with
  | EmptyString => false
  | String c rest => negb (lineTerminator c) && String.eqb rest ext
  end.

Fixpoint anySuffix (P : string -> bool) (s : string) : bool :=
  P s || match s with
         | EmptyString => false
         | String _ s' => anySuffix P s'
         end.

(** [new RegExp('.(' + fileExtensions.join('|') + ')$').test(file)] for
    extensions that are plain text (no regular-expression operators): an
    unescaped [.], one of the alternatives, the end of the input.  An empty
    list joins to the empty alternative. *)
Definition extensionTest (fileExtensions : list string) (file : string) : bool :=
  let alternatives := match fileExtensions with [] => [EmptyString] | _ => fileExtensions end in
  anySuffix (fun suffix => existsb (fun ext => dotThen ext suffix) alternatives) file.

Definition isSlash (c : ascii) : bool := (nat_of_ascii c =? 47)%nat.
Definition isDot (c : ascii) : bool := (nat_of_ascii c =? 46)%nat.

(** The scan of a path from the left that [path.basename] and
    [path.extname] make from the right: [prev] is the last non-empty
    component completed so far, [cur] the one being read. *)
Fixpoint portionState (prev cur : string) (p : string) : string * string :=
  match p with
  | EmptyString => (prev, cur)
  | String c p' =>
      if isSlash c then portionState (if truthy cur then cur else prev) EmptyString p'
      else portionState prev (cur +:+ String c EmptyString) p'
  end.

(** Last non-empty [/]-separated component of a path. *)
Definition lastPortion (p : string) : string :=
  let st := portionState EmptyString EmptyString p in
  if truthy (snd st) then snd st else fst st.

Fixpoint lastDot (s : string) : option nat :=
  match s with
  | EmptyString => None
  | String c s' =>
      match lastDot s' with
      | Some k => Some (S k)
      | None => if isDot c then Some O else None
      end
  end.

Fixpoint dropString (n : nat) (s : string) : string :=
  match n, s with
  | S n', String _ s' => dropString n' s'
  | _, _ => s
  end.

Fixpoint takeString (n : nat) (s : string) : string :=
  match n, s with
  | S n', String c s' => String c (takeString n' s')
  | _, _ => EmptyString
  end.

Definition dotdot : string := String "046"%char (String "046"%char EmptyString).

(** [path.extname(p)] (posix): from the last [.] of the last component,
    empty when there is none, when it is the first character of the
    component, or when the component is [..]. *)
Definition extname (p : string) : string :=
  let b := lastPortion p in
  match lastDot b with
  | Some (S k) => if String.eqb b dotdot then EmptyString else dropString (S k) b
  | _ => EmptyString
  end.

Definition endsWith (s suffix : string) : bool :=
  (String.length suffix <=? String.length s)%nat &&
  String.eqb (dropString (String.length s - String.length suffix) s) suffix.

(** [path.basename(p, ext)] (posix). *)
Definition basename (p ext : string) : string :=
  let b := lastPortion p in
  if truthy ext && String.eqb ext p then EmptyString
  else if truthy ext && endsWith b ext && negb (String.eqb b ext)
       then takeString (String.length b - String.length ext) b
       else b.

(** [s.replace('.', '')]: the first [.] is removed. *)
Fixpoint removeFirstDot (s : string) : string :=
  match s with
  | EmptyString => EmptyString
  | String c s' => if isDot c then s' else String c (removeFirstDot s')
  end.

(** An element of the array [getFilesInFolder] returns. *)
Record scannedFile : Type := ScannedFile {
  scannedPublic : publicData;
  scannedFolderPath : string;
  scannedFileName : string;
  scannedFilePath : string
}.

Section Scan.

Context `{Platform}.

Definition scanOne (folderPath fileName : string) : scannedFile :=
  let filePath := folderPath +:+ fileName in
  let slug := slugify (basename filePath (extname filePath)) in
  ScannedFile (PublicData slug (removeFirstDot (extname filePath)))
              folderPath fileName filePath.

(** [getFilesInFolder(folderPath, fileExtensions)], applied to the
    listing [fs.readdirSync] returns. *)
Definition getFilesInFolder (listing : list string) (folderPath : string)
    (fileExtensions : list string) : list scannedFile :=
  List.map (scanOne folderPath)
    (List.filter (fun file => extensionTest (List.map toLowerCase fileExtensions)
                                            (toLowerCase file)) listing).

(** The part of the constructor that builds the registry: the scan, the
    public and private records, the ledger read from disk.  Fields merged
    from a previous public manifest other than [slug] and [extension]
    (which the scan overrides) are not represented. *)
Definition construct (listing : list string) (mediaFolderPath : string)
    (validSourceExts : list string) (force : bool)
    (ledger : gmap string (gmap string string)) (existing : gset string) : registry :=
  let srcFiles := getFilesInFolder listing mediaFolderPath validSourceExts in
  Registry force ledger
    (List.map scannedPublic srcFiles)
    (List.map (fun f => PrivateRecord (scannedFolderPath f) (scannedFileName f)
                          (scannedFilePath f) (slug (scannedPublic f))
                          (getFileHash (scannedFilePath f))) srcFiles)
    existing [] [].

End Scan.

(** ** [ImageSizer.generateCovertCmd] *)

(** An element of [options.availableFilters]. *)
Record filterEntry : Type := FilterEntry {
  filterName : string;
  filterFlag : string
}.

(** The three filters [image-sizer.js] ships with. *)
Definition availableFilters : list filterEntry :=
  [FilterEntry "strip" "-strip";
   FilterEntry "bw" "-colorspace Gray";
   FilterEntry "blur" "-blur 0x5"].

(** [Array.prototype.join] on strings. *)
Fixpoint join (sep : string) (l : list string) : string :=
  match l with
  | [] => EmptyString
  | [x] => x
  | x :: l' => x +:+ sep +:+ join sep l'
  end.

(** The [forEach] of lines 238-247: the array [neededFilters] and the
    names logged as unknown, both in order. *)
Definition resolveFilter (table : list filterEntry) (acc : list string * list string)
    (filter : string) : list string * list string :=
  match List.find (fun e => bool_decide (filterName e = filter)) table with
  | Some filterCmd => (fst acc ++ [filterFlag filterCmd], snd acc)
  | None => (fst acc, snd acc ++ ["Unknown filter: " +:+ filter])
  end.

Definition neededFilters (table : list filterEntry) (filters : list string)
    : list string * list string :=
  foldl (resolveFilter table) ([], []) filters.

Definition dquote : string := String "034"%char EmptyString.

(** A JS number that is a natural number, as a template literal prints it. *)
Definition showNumber (n : N) : string := pretty n.

Definition generateCovertCmd (table : list filterEntry)
    (inputPath outputPath fileType : string) (width quality : N)
    (filters : list string) : string :=
  let filtersStr := join " " (fst (neededFilters table filters)) in
  if String.eqb fileType "png" then
    "convert " +:+ dquote +:+ inputPath +:+ dquote +:+ " -quality " +:+ showNumber quality
      +:+ " " +:+ filtersStr +:+ " -thumbnail " +:+ showNumber width
      +:+ "x  png:- | pngquant --skip-if-larger - > " +:+ dquote +:+ outputPath +:+ dquote
  else
    "convert " +:+ dquote +:+ inputPath +:+ dquote +:+ " -quality " +:+ showNumber quality
      +:+ " " +:+ filtersStr +:+ " -thumbnail " +:+ showNumber width
      +:+ "x " +:+ dquote +:+ outputPath +:+ dquote.

(** ** Reading the reports of a child, and client code that registers *)

(** What [stdout] has accumulated from the chunks among [evs]. *)
Fixpoint capturedStdout (evs : list childEvent) : string :=
  match evs with
  | [] => EmptyString
  | StdoutData data :: evs' => data +:+ capturedStdout evs'
  | _ :: evs' => capturedStdout evs'
  end.

Definition isStderr (ev : childEvent) : bool :=
  match ev with StderrData _ => true | _ => false end.

Definition isExit (ev : childEvent) : bool :=
  match ev with Exit _ => true | _ => false end.

(** A sequence of [addTask] calls made by client code; it stops at the
    first call that throws. *)
Fixpoint registerAll `{Platform} (r : registry) (calls : list (command * string * string))
  : outcome registry :=
  match calls with
  | [] => Returned r
  | (c, s, out) :: calls' =>
      match addTask r c s out with
      | Returned r' => registerAll r' calls'
      | Threw r' => Threw r'
      end
  end.

Definition registered `{Platform} (r : registry) (calls : list (command * string * string))
  : registry :=
  match registerAll r calls with Returned r' | Threw r' => r' end.

(** ** The lifecycle, as an automaton over the emitted events *)

Inductive phase : Type :=
  | BeforeReady
  | BeforeTasksReady
  | BeforeTasksRunning
  | Running
  | BeforeDone
  | Finished.

(** [ready], [alltasksready], [alltasksrunning], any number of
    [taskdone], [alltasksdone], [done]: the only moves. *)
Definition advance (p : phase) (e : event) : option phase :=
  match p, e with
  | BeforeReady, Ready => Some BeforeTasksReady
  | BeforeTasksReady, AllTasksReady _ => Some BeforeTasksRunning
  | BeforeTasksRunning, AllTasksRunning _ => Some Running
  | Running, TaskDone _ _ => Some Running
  | Running, AllTasksDone _ => Some BeforeDone
  | BeforeDone, Done _ => Some Finished
  | _, _ => None
  end.

Fixpoint lifecycle (p : phase) (es : list event) : option phase :=
  match es with
  | [] => Some p
  | e :: es' =>
      match advance p e with
      | Some p' => lifecycle p' es'
      | None => None
      end
  end.

(** The events emitted so far are a beginning of the lifecycle. *)
Definition inLifecycleOrder (es : list event) : Prop :=
  is_Some (lifecycle BeforeReady es).

(** A function command that leaves its continuation to a later turn, or a
    string command. *)
Definition nonEager (t : task) : bool :=
  match cmd t with
  | CmdFunction _ _ true => false
  | _ => true
  end.

Definition continues (script : list stimulus) : list nat :=
  omap (fun s => match s with Continue i => Some i | _ => None end) script.

Definition writesStderr (s : stimulus) : bool :=
  match s with FromChild _ (StderrData _) => true | _ => false end.

(** No child writes to [stderr], and no continuation is invoked twice. *)
Definition orderly (script : list stimulus) : Prop :=
  Forall (fun s => writesStderr s = false) script /\ NoDup (continues script).

(** A task that has run to its end: the child has exited, the function
    has called back. *)
Definition finished (c : child) : bool :=
  match c with
  | Spawned _ true | Invoked (S _) => true
  | _ => false
  end.

Definition pending (cs : list child) : nat :=
  length (List.filter (fun c => negb (finished c)) cs).

(** ** Stages of a run, for the proof of the lifecycle order *)

Definition idleFrom (k : nat) (cs : list child) : Prop :=
  forall i c, k <= i -> cs !! i = Some c -> c = Idle.

Definition freshFns (script : list stimulus) (cs : list child) : Prop :=
  forall i k, i ∈ continues script -> cs !! i = Some (Invoked k) -> k = 0.

Definition running (m : manager) : Prop :=
  lifecycle BeforeReady (events m) = Some Running /\
  timers m = [] /\ listening m = true /\
  awaiting (taskQueue m) = true /\
  Forall (fun t => nonEager t = true) (tasks (taskQueue m)) /\
  idleFrom (started (taskQueue m)) (children m).

Definition quiet (m m' : manager) : Prop :=
  events m' = events m /\ timers m' = timers m /\ listening m' = listening m /\
  reg m' = reg m /\
  tasks (taskQueue m') = tasks (taskQueue m) /\
  remaining (taskQueue m') = remaining (taskQueue m) /\
  awaiting (taskQueue m') = awaiting (taskQueue m) /\
  pending (children m') = pending (children m) /\
  idleFrom (started (taskQueue m')) (children m') /\
  (forall script, freshFns script (children m) -> freshFns script (children m')).

Definition settled (m : manager) : Prop :=
  Forall (fun c => finished c = true) (children m).

Definition untouched (m : manager) : Prop :=
  children m = [] /\ tasks (taskQueue m) = [] /\ remaining (taskQueue m) = 0%Z /\
  started (taskQueue m) = 0 /\ awaiting (taskQueue m) = false /\ listening m = false.

(** The five stages of a run whose script is [orderly]. *)
Definition stage (m : manager) : Prop :=
  (events m = [] /\ timers m = [EmitReady] /\ untouched m) \/
  (events m = [Ready] /\ timers m = [CallRunTasks] /\ untouched m) \/
  (running m /\ remaining (taskQueue m) = Z.of_nat (pending (children m))) \/
  (lifecycle BeforeReady (events m) = Some BeforeDone /\ timers m = [Finish] /\ settled m) \/
  (lifecycle BeforeReady (events m) = Some Finished /\ timers m = [] /\ settled m).

Definition invariant (r : registry) (rest : list stimulus) (m : manager) : Prop :=
  reg m = r /\ freshFns rest (children m) /\ stage m.

(** While [runTasks] hands the tasks to the queue ([p] is
    [BeforeTasksRunning]) and right after the last one ([Running]). *)
Definition deferring (p : phase) (rest : list stimulus) (m : manager) : Prop :=
  lifecycle BeforeReady (events m) = Some p /\
  timers m = [] /\ listening m = true /\
  awaiting (taskQueue m) = false /\
  Forall (fun t => nonEager t = true) (tasks (taskQueue m)) /\
  idleFrom (started (taskQueue m)) (children m) /\
  remaining (taskQueue m) = Z.of_nat (pending (children m)) /\
  remaining (taskQueue m) = Z.of_nat (length (tasks (taskQueue m))) /\
  freshFns rest (children m).

(** ** Slots in use, and the order of the starts *)

(** The indices of the tasks started so far, in the order of their
    [exec] or of the call of the function. *)
Definition starts (m : manager) : list nat :=
  omap (fun o => match o with
                 | Exec i _ _ | CallFunction i => Some i
                 | _ => None
                 end) (trace m).

(** A start observed in the trace is the start of the task the queue
    holds at that index. *)
Definition startOf (q : queue) (o : obs) : Prop :=
  match o with
  | Exec i text timeout =>
      cmd <$> tasks q !! i = Some (CmdString text) /\ timeout = execTimeout
  | CallFunction i =>
      exists name source eager, cmd <$> tasks q !! i = Some (CmdFunction name source eager)
  | _ => True
  end.

Definition isStart (o : obs) : bool :=
  match o with
  | Exec _ _ _ | CallFunction _ => true
  | _ => false
  end.

(** The queue, of limit [n], keeps its counter within the limit and has
    started its tasks in the order it holds them. *)
Definition accounted (n : nat) (m : manager) : Prop :=
  parallelism (taskQueue m) = n /\
  (n = 0 \/ (active (taskQueue m) <= Z.of_nat n)%Z) /\
  starts m = seq 0 (started (taskQueue m)) /\
  Forall (startOf (taskQueue m)) (trace m).

(** The queue, of limit [n], counts at least the tasks that are really
    running, never more than its limit, and has started its tasks in the
    order it holds them. *)
Definition bounded (n : nat) (m : manager) : Prop :=
  parallelism (taskQueue m) = n /\
  (Z.of_nat (outstanding m) <= active (taskQueue m))%Z /\
  (n = 0 \/ (active (taskQueue m) <= Z.of_nat n)%Z) /\
  starts m = seq 0 (started (taskQueue m)) /\
  Forall (startOf (taskQueue m)) (trace m).

(** The same between the end of a task and the call of [callback] that
    reports it: the queue still counts the task. *)
Definition owing (n : nat) (m : manager) : Prop :=
  parallelism (taskQueue m) = n /\
  (Z.of_nat (outstanding m) + 1 <= active (taskQueue m))%Z /\
  (n = 0 \/ (active (taskQueue m) <= Z.of_nat n)%Z) /\
  starts m = seq 0 (started (taskQueue m)) /\
  Forall (startOf (taskQueue m)) (trace m).

(** What [pop] needs to know of the tasks it may start. *)
Definition startable (m : manager) : Prop :=
  Forall (fun t => nonEager t = true) (tasks (taskQueue m)) /\
  idleFrom (started (taskQueue m)) (children m).

(** ** Auxiliary readings of paths and filters *)

Fixpoint allChars (P : ascii -> bool) (s : string) : bool :=
  match s with
  | EmptyString => true
  | String c s' => P c && allChars P s'
  end.

(** The flag a filter name resolves to: that of the first entry of the
    table with this name. *)
Definition lookupFilter (table : list filterEntry) (name : string) : option string :=
  filterFlag <$> List.find (fun e => bool_decide (filterName e = name)) table.

(** ** Example configurations *)


(** A machine on which [openssl] prints nothing: every fingerprint is the
    empty string.  [slugify] and [sha256_hex] are stand-ins; the slug of
    [a] is [a] and string commands do not use the digest. *)
Definition noOpenssl : Platform :=
  {| sha256_hex := fun s => s; slugify := fun s => s; getFileHash := fun _ => EmptyString |}.

Definition convertA : command := CmdString "convert a".

(** Second run on that machine: the first run recorded the empty
    fingerprint for [convertA] and produced the output. *)
Definition firstRun : registry :=
  construct (H := noOpenssl) ["a.jpg"] "/i/" ["jpg"; "png"] false ∅ ∅.

Definition secondRun : registry :=
  construct (H := noOpenssl) ["a.jpg"] "/i/" ["jpg"; "png"] false
    {["a" := {["convert a" := EmptyString]}]} {["/o/a-180.jpg"]}.

(** A machine with [openssl]; the stand-ins agree with the real functions
    on the inputs used below as far as the runs depend on them. *)
Definition demo : Platform :=
  {| sha256_hex := fun s => s; slugify := fun s => s; getFileHash := fun _ => "H1" |}.

(** One image in the folder, nothing recorded, nothing produced yet. *)
Definition oneImage : registry :=
  construct (H := demo) ["a.jpg"] "/i/" ["jpg"; "png"] false ∅ ∅.

(** A function that invokes its continuation before it returns, e.g.
    [function f(next) { next(); }]. *)
Definition eagerFunction : command := CmdFunction "f" "function f(next) { next(); }" true.

Definition lazyFunction : command :=
  CmdFunction "g" "function g(next) { setTimeout(next, 5); }" false.

Definition eagerManager : manager :=
  newManager (registered (H := demo) oneImage [(eagerFunction, "a", "/o/a.txt")]) 1.

Definition mixedRegistry : registry :=
  registered (H := demo) oneImage
    [(CmdString "c0", "a", "/o/a-0.jpg"); (lazyFunction, "a", "/o/a.txt")].

Definition mixedScript : list stimulus :=
  [Tick; Tick; FromChild 0 (StdoutData "ok"); FromChild 0 (Exit (Some 0%Z)); Continue 1; Tick].

Definition twoCommands : manager :=
  newManager (registered (H := demo) oneImage
                [(CmdString "c0", "a", "/o/a-0.jpg"); (CmdString "c1", "a", "/o/a-1.jpg")]) 1.

Definition threeCommands : manager :=
  newManager (registered (H := demo) oneImage
                [(CmdString "c0", "a", "/o/a-0.jpg"); (CmdString "c1", "a", "/o/a-1.jpg");
                 (CmdString "c2", "a", "/o/a-2.jpg")]) 1.

Definition oneCommand : manager :=
  newManager (registered (H := demo) oneImage [(CmdString "c0", "a", "/o/a-0.jpg")]) 1.

Definition publicA : option publicData := Some (PublicData "a" "jpg").

Definition recordA : privateRecord := PrivateRecord "/i/" "a.jpg" "/i/a.jpg" "a" "H1".

(** A later run on the machine with [openssl]: the fingerprint [recorded]
    is in the ledger for [convertA] and the output exists. *)
Definition laterRun (recorded : string) : registry :=
  construct (H := demo) ["a.jpg"] "/i/" ["jpg"; "png"] false
    {["a" := {["convert a" := recorded]}]} {["/o/a-180.jpg"]}.

Definition convertCall : list (command * string * string) :=
  [(convertA, "a", "/o/a-180.jpg")].

(** [a.jpg] and [a.png] side by side in the folder. *)
Definition twoFormats : registry :=
  construct (H := demo) ["a.jpg"; "a.png"] "/i/" ["jpg"; "png"] false ∅ ∅.

(** The only child so far writes a warning to [stderr] and keeps running. *)
Definition warningOnly : list stimulus :=
  [Tick; Tick; FromChild 0 (StderrData "warning")].

(** It writes the warning, then exits with code 1. *)
Definition warningThenExit : list stimulus :=
  [Tick; Tick; FromChild 0 (StderrData "warning"); FromChild 0 (Exit (Some 1%Z))].

(** It exits with code 1 without having written to [stderr]. *)
Definition exitOnly : list stimulus :=
  [Tick; Tick; FromChild 0 (Exit (Some 1%Z))].


Definition execs (m : manager) : list obs :=
  List.filter (fun o => match o with Exec _ _ _ => true | _ => false end) (trace m).

(** ** Further definitions: outcomes, constructors, footprints, markup *)
(** The instance as a call left it, whether it returned or threw. *)
Definition stateAfter {A : Type} (o : outcome A) : A :=
  match o with Returned a | Threw a => a end.

(** ** The constructors: options, dependencies, the renditions of [ImageSizer] *)

(** An element of [options.dependencies]: the name of a command, or an
    object with the fields [name] and [message], either of which may be
    absent. *)
Inductive dependency : Type :=
  | DepName (name : string)
  | DepObject (name : option string) (message : option string).

(** A value that may be [undefined], as string concatenation and
    template literals print it. *)
Definition showOptional (v : option string) : string := default "undefined" v.

(** Line 202 of media-manager.js: what is handed to
    [_checkSystemDependency]. *)
Definition localDependency (d : dependency) : string :=
  match d with
  | DepName name => name
  | DepObject name _ => showOptional name
  end.

(** [_checkSystemDependency(app)], where [shell cmd] tells whether the
    command line [cmd] ends with status 0 on this machine ([execSync]
    throws when it does not). *)
Definition _checkSystemDependency (shell : string -> bool) (app : string) : bool :=
  shell ("type " +:+ app).

(** What [`${dependency}`] prints: an object prints as
    [[object Object]]. *)
Definition showDependency (d : dependency) : string :=
  match d with
  | DepName name => name
  | DepObject _ _ => "[object Object]"
  end.

(** [missingMessage], line 205. *)
Definition missingMessage (d : dependency) : string :=
  let standard := showDependency d +:+ " required. You may be able to install with "
                    +:+ dquote +:+ "brew install " +:+ showDependency d +:+ dquote in
  match d with
  | DepObject _ (Some message) => if truthy message then message else standard
  | _ => standard
  end.

(** [findMissingDependencies()]: the [forEach] with its [push]. *)
Definition findMissingDependencies (shell : string -> bool) (dependencies : list dependency)
    : list string :=
  foldl (fun missing dependency =>
           if _checkSystemDependency shell (localDependency dependency) then missing
           else missing ++ [missingMessage dependency])
        [] dependencies.

(** The options of [MediaManager]; a field is [None] when the object
    passed to the constructor has no such key. *)
Record options : Type := Options {
  validSourceExts : option (list string);
  mediaFolderPath : option string;
  forceTaskOption : option bool;
  publicDataPath : option string;
  privateDataPath : option string;
  dependencies : option (list dependency);
  numberOfConcurrentTask : option nat;
  logging : option string
}.

(** The machine the constructor runs on: the shell, the file system (the
    listing of a folder, which exists), and the two default paths that
    [path.join] makes from [__dirname]. *)
Record machine : Type := Machine {
  shell : string -> bool;
  readdirSync : string -> list string;
  (** the ledger read from a path: [None] when [fs.existsSync] is false *)
  readLedger : string -> option (gmap string (gmap string string));
  existingFiles : gset string;
  assetsImages : string;
  tmpDir : string
}.

(** How a constructor ends: with a [TypeError], with the early [return]
    of line 106 that leaves the instance without its fields, or with a
    complete instance.  [console] is what [console.log] printed. *)
Inductive construction : Type :=
  | Thrown (console : list string)
  | Unfinished (console : list string)
  | Built (m : manager).

Section Constructors.

Context `{Platform}.

(** [new MediaManager(options)], lines 75-168.  Line 93 reads
    [options.logging] from the argument itself, not from the merged
    options. *)
Definition mediaManager (env : machine) (passed : option options) : construction :=
  match passed with
  | None => Thrown []
  | Some o =>
      let missingDependencies :=
        findMissingDependencies (shell env) (default [] (dependencies o)) in
      if bool_decide (0 < length missingDependencies) then
        let message := if bool_decide (1 < length missingDependencies)
                       then "dependencies" else "dependency" in
        Unfinished (("Error. Missing " +:+ message +:+ " must be installed.")
                      :: missingDependencies)
      else
        let folder := default (assetsImages env) (mediaFolderPath o) in
        let ledgerPath := default (tmpDir env +:+ "mediadata.json") (privateDataPath o) in
        let ledger := if truthy ledgerPath then default ∅ (readLedger env ledgerPath)
                      else ∅ in
        Built (newManager
                 (construct (readdirSync env folder) folder
                    (default ["jpg"; "png"] (validSourceExts o))
                    (default false (forceTaskOption o)) ledger (existingFiles env))
                 (default 1 (numberOfConcurrentTask o)))
  end.

End Constructors.

(** The options [ImageSizer] adds.  [widths], [standardQuality] and
    [publishDir] are given, as [index.js] gives them; [retinaQuality] may
    be absent. *)
Record sizerOptions : Type := SizerOptions {
  managerOptions : options;
  widths : list N;
  standardQuality : N;
  retinaQuality : option N;
  publishDir : string;
  limitToSlugs : option (list string);
  userFilters : option (list filterEntry);
  filters : option (list string)
}.

(** [defaultDependencies] of image-sizer.js. *)
Definition defaultDependencies : list dependency :=
  [DepObject (Some "convert")
             (Some ("Imagemagick required. To install, run:" +:+ dquote
                      +:+ "brew install imagemagick" +:+ dquote));
   DepName "pngquant"].

(** [if (retinaQuality)]: a number other than 0. *)
Definition retinaWanted (o : sizerOptions) : option N :=
  match retinaQuality o with
  | Some q => if (q =? 0)%N then None else Some q
  | None => None
  end.

(** The calls of [addConvertTask] for one width of one item. *)
Definition callsPerWidth (o : sizerOptions) : nat :=
  match retinaWanted o with Some _ => 2 | None => 1 end.

(** The table and the filters after the merges of lines 48-59. *)
Definition mergedFilters (o : sizerOptions) : list filterEntry :=
  availableFilters ++ default [] (userFilters o).

Definition requestedFilters (o : sizerOptions) : list string := default [] (filters o).

(** One call of [addConvertTask], as lines 95-102 and 106-114 make it:
    the output path is [publishDir], the slug, the width and [mark] (a dot,
    or [_x2.] for the retina rendition) before the extension; the command
    is made for that path with its own width and quality. *)
Definition renditionCall (o : sizerOptions) (metaData : publicData)
    (fileSourcePath : string) (width : N) (mark : string) (commandWidth quality : N)
    : command * string * string :=
  let outputFilePath :=
    publishDir o +:+ slug metaData +:+ "-" +:+ showNumber width +:+ mark
      +:+ extension metaData in
  (CmdString (generateCovertCmd (mergedFilters o) fileSourcePath outputFilePath
                (extension metaData) commandWidth quality (requestedFilters o)),
   slug metaData, outputFilePath).

(** Lines 94-115: the calls for one width of one item (an item without
    [crops]). *)
Definition widthCalls (o : sizerOptions) (metaData : publicData) (fileSourcePath : string)
    (width : N) : list (command * string * string) :=
  renditionCall o metaData fileSourcePath width "." width (standardQuality o)
  :: match retinaWanted o with
     | Some quality =>
         [renditionCall o metaData fileSourcePath width "_x2." (width * 2) quality]
     | None => []
     end.

(** [widths.forEach], line 92. *)
Definition renditions (o : sizerOptions) (metaData : publicData) (fileSourcePath : string)
    : list (command * string * string) :=
  flat_map (widthCalls o metaData fileSourcePath) (widths o).

(** Line 81. *)
Definition onWhiteList (o : sizerOptions) (metaData : publicData) : bool :=
  match default [] (limitToSlugs o) with
  | [] => true
  | list => bool_decide (slug metaData ∈ list)
  end.

Section SizerConstructor.

Context `{Platform}.

(** The [forEach] over [getMetadata()], lines 77-173; it ends at the
    first call that throws.  [sizeOf] is taken to return, and the fields the
    loop adds to the public record ([ratio], [sizes], [hasRetina]) are not
    represented. *)
Fixpoint registerItems (o : sizerOptions) (r : registry) (items : list publicData)
    : outcome registry :=
  match items with
  | [] => Returned r
  | metaData :: items' =>
      if onWhiteList o metaData then
        match getFilePathFromMeta r metaData with
        | None => Threw r
        | Some fileSourcePath =>
            match registerAll r (renditions o metaData fileSourcePath) with
            | Returned r' => registerItems o r' items'
            | Threw r' => Threw r'
            end
        end
      else registerItems o r items'
  end.

(** The options handed to [super], lines 31-61. *)
Definition superOptions (o : sizerOptions) : options :=
  let m := managerOptions o in
  Options (Some (default ["jpg"; "png"] (validSourceExts m)))
          (mediaFolderPath m)
          (Some (default false (forceTaskOption m)))
          (publicDataPath m) (privateDataPath m)
          (Some (defaultDependencies ++ default [] (dependencies m)))
          (numberOfConcurrentTask m) (logging m).

(** [new ImageSizer(options)] up to the end of the registrations. *)
Definition imageSizer (env : machine) (o : sizerOptions) : construction :=
  match mediaManager env (Some (superOptions o)) with
  | Thrown console => Thrown console
  | Unfinished console => Thrown console
  | Built m =>
      match registerItems o (reg m) (sourcePublicData (reg m)) with
      | Returned r =>
          Built (Manager r (taskQueue m) (children m) (timers m) (listening m)
                         (tasksRun m) (trace m))
      | Threw _ => Thrown []
      end
  end.

End SizerConstructor.

(** The options of [scripts/media-processing/index.js]; the three paths
    are what [path.join] makes from [__dirname]. *)
Definition indexOptions (assets data tmp static : string) : sizerOptions :=
  SizerOptions
    (Options None (Some assets) None (Some (data +:+ "imagedata.json"))
             (Some (tmp +:+ "imagedata.json")) None None None)
    [180; 300; 460; 720; 1050; 1440; 2000]%N 80%N (Some 80%N) static None None None.

(** A decimal digit. *)
Definition isDigit (c : ascii) : bool :=
  let n := nat_of_ascii c in (48 <=? n)%nat && (n <=? 57)%nat.

(** The first character of a string, if any, is not a digit. *)
Definition startsWithoutDigit (s : string) : bool :=
  match s with
  | EmptyString => true
  | String c _ => negb (isDigit c)
  end.

(** ** What a run leaves of the instance *)

(** The events among some observations. *)
Definition emitted (os : list obs) : list event :=
  omap (fun o => match o with Emit e => Some e | _ => None end) os.

Definition isTaskDone (e : event) : bool :=
  match e with TaskDone _ _ => true | _ => false end.

(** The number of [taskdone] events. *)
Definition taskDones (es : list event) : nat := length (List.filter isTaskDone es).

(** What the tasks of a run and the queue do between [ready] and the
    final writes: anything but the writes and the events [ready] and
    [done]. *)
Definition duringTasks (o : obs) : bool :=
  match o with
  | WritePublicData | WritePrivateData _ | Emit Ready | Emit (Done _) => false
  | _ => true
  end.

(** What handing [added] to the queue, starting tasks and ending them
    may change of an instance: the queue gets [added] and as many children
    are created, [alltasksdone] may defer the final writes, the trace grows
    by observations of the tasks, and the counter [tasksRun] by the number
    of [taskdone] among them once [runTasks] listens. *)
Definition footprint (added : list task) (m m' : manager) : Prop :=
  reg m' = reg m /\ listening m' = listening m /\
  parallelism (taskQueue m') = parallelism (taskQueue m) /\
  tasks (taskQueue m') = tasks (taskQueue m) ++ added /\
  length (children m') = length (children m) + length added /\
  (exists k, timers m' = timers m ++ replicate k Finish) /\
  exists extra,
    trace m' = trace m ++ extra /\ Forall (fun o => duringTasks o = true) extra /\
    (listening m = true -> tasksRun m' = tasksRun m + taskDones (emitted extra)).

(** The queue waits for tasks as long as the events are those of a run
    in progress. *)
Definition waiting (m : manager) : Prop :=
  awaiting (taskQueue m) = true ->
  lifecycle BeforeReady (events m) = Some Running ->
  remaining (taskQueue m) <> 0%Z.

(** The final write stores the ledger [l] of the registration. *)
Definition writesLedger (l : gmap string (gmap string string)) (o : obs) : Prop :=
  match o with
  | WritePrivateData written => written = l
  | _ => True
  end.

(** The three stages of an instance, whatever happens to its tasks:
    before [ready], before [runTasks], and from [runTasks] on, when the
    queue holds the needed tasks in the order of their registration, with
    one child each. *)
Definition handed (r : registry) (m : manager) : Prop :=
  (events m = [] /\ timers m = [EmitReady] /\ untouched m) \/
  (events m = [Ready] /\ timers m = [CallRunTasks] /\ untouched m) \/
  (listening m = true /\ Forall (fun d => d = Finish) (timers m) /\
   tasks (taskQueue m) = neededTasks r /\
   length (children m) = length (neededTasks r) /\
   exists md rest, events m = Ready :: AllTasksReady md :: rest).

Definition sound (r : registry) (m : manager) : Prop :=
  reg m = r /\ handed r m /\ waiting m /\
  tasksRun m = taskDones (events m) /\
  Forall (writesLedger (privateData r)) (trace m).





(** ** [parseArchieML.js]: from the DOM of the exported document to the text of ArchieML *)

(** A JS string as the sequence of its UTF-16 code units; the strings of
    this part hold the typographic quotes of the document. *)
Abbreviation utf16 := (list N) (only parsing).

Definition units (s : string) : utf16 := N_of_ascii <$> list_ascii_of_string s.

(** A node of the DOM that [htmlparser2] builds: a text, an element (of
    type [tag], [script] or [style]) with its attributes and children, or a
    comment or directive.  Neither [comment] nor the name of a directive,
    which begins with [!] or [?], is a key of [tagHandlers], so both are
    one case here. *)
#[local] Unset Elimination Schemes.
Inductive node : Type :=
  | TextNode (data : utf16)
  | Element (name : string) (attribs : gmap string utf16) (children : list node)
  | Other.
#[local] Set Elimination Schemes.


(** The functions of the object [tagHandlers], lines 10-53. *)
Inductive handler : Type := OnBase | OnText | OnSpan | OnP | OnA | OnLi.

(** [tagHandlers[key]] for the own keys of the object: the six of the
    literal, then [ul] and [ol] set to [span] and [h1] to [h6] set to [p].
    For an element the key is its name (for an empty name its type, which
    is no key either). *)
Definition tagHandlers (key : string) : option handler :=
  if String.eqb key "_base" then Some OnBase
  else if String.eqb key "text" then Some OnText
  else if String.eqb key "span" then Some OnSpan
  else if String.eqb key "p" then Some OnP
  else if String.eqb key "a" then Some OnA
  else if String.eqb key "li" then Some OnLi
  else if String.eqb key "ul" || String.eqb key "ol" then Some OnSpan
  else if existsb (String.eqb key) ["h1"; "h2"; "h3"; "h4"; "h5"; "h6"] then Some OnP
  else None.

(** The libraries the file calls.
    - [query_q href] is [url.parse(href, true).query.q] when it is truthy,
      as string concatenation prints it;
    - [entities_decode] is [new Entities().decode];
    - [archieml_load] is [archieml.load]. *)
Class Markup (doc : Type) : Type := {
  query_q : utf16 -> option utf16;
  entities_decode : utf16 -> utf16;
  archieml_load : utf16 -> doc
}.

Definition lineFeed : N := 10.
Definition quotationMark : N := 34.
Definition apostrophe : N := 39.
Definition lessThan : N := 60.
Definition greaterThan : N := 62.

Section ParseArchieML.

Context {doc : Type} `{!Markup doc}.

(** The handler [a], lines 27-42, given what [_base] made of the
    children. *)
Definition anchor (attribs : gmap string utf16) (inner : utf16) : utf16 :=
  match attribs !! "href" with
  | None => []
  | Some href =>
      let target := match href with
                    | [] => href
                    | _ :: _ => default href (query_q href)
                    end in
      units "<a href=" ++ [quotationMark] ++ target ++ [quotationMark] ++ units ">"
        ++ inner ++ units "</a>"
  end.

(** What one child adds to [str] in [_base]: the result of its handler
    if it has one.  The handler [text] returns the field [data], which an
    element does not have: [undefined] is appended as text. *)
Fixpoint contribution (child : node) : utf16 :=
  match child with
  | TextNode data => data
  | Other => []
  | Element name attribs children =>
      let inner := flat_map contribution children in
      match tagHandlers name with
      | Some OnBase | Some OnSpan => inner
      | Some OnText => units "undefined"
      | Some OnP => inner ++ [lineFeed]
      | Some OnA => anchor attribs inner
      | Some OnLi => units "* " ++ inner ++ [lineFeed]
      | None => []
      end
  end.

(** [tagHandlers._base(tag)] for the children of [tag]. *)
Definition _base (children : list node) : utf16 := flat_map contribution children.

End ParseArchieML.

(** The two inner [replace] of line 64, on one code unit: the double
    typographic quotes U+201C and U+201D become the quotation mark, the
    single ones U+2018 and U+2019 the apostrophe. *)
Definition straighten (c : N) : N :=
  if (c =? 8220)%N || (c =? 8221)%N then quotationMark
  else if (c =? 8216)%N || (c =? 8217)%N then apostrophe
  else c.

(** Whether [[^<>]*>] matches at the start of [s]: a [>] comes before
    any [<]. *)
Fixpoint closes (s : utf16) : bool :=
  match s with
  | [] => false
  | c :: s' =>
      if (c =? greaterThan)%N then true
      else if (c =? lessThan)%N then false
      else closes s'
  end.

(** The [replace] of lines 63-65 with the expression [<[^<>]*>] and
    the flag [g], read from the left;
    [inTag] tells that a match is being copied. *)
Fixpoint replaceFrom (inTag : bool) (s : utf16) : utf16 :=
  match s with
  | [] => []
  | c :: s' =>
      if inTag then
        if (c =? greaterThan)%N then c :: replaceFrom false s'
        else straighten c :: replaceFrom true s'
      else if (c =? lessThan)%N && closes s' then c :: replaceFrom true s'
      else c :: replaceFrom false s'
  end.

Definition straightenTags (s : utf16) : utf16 := replaceFrom false s.

Section Init.

Context {doc : Type} `{!Markup doc}.

(** [init(data)], applied to the DOM the parser made of [data].  [None]
    is the TypeError of reading [children] of [undefined], or [[1]] of
    [undefined]. *)
Definition init (dom : list node) : option doc :=
  match dom with
  | Element _ _ children :: _ =>
      match children !! 1 with
      | Some (Element _ _ bodyChildren) =>
          Some (archieml_load
                  (straightenTags (entities_decode (_base bodyChildren))))
      | _ => None
      end
  | _ => None
  end.

End Init.




(** A machine that has [convert] and [pngquant], with one image in every
    folder and no ledger on disk yet. *)
Definition demoMachine : machine :=
  Machine (fun _ => true) (fun _ => ["a.jpg"]) (fun _ => None) ∅ "/assets/images/" "/tmp/".

(** The run of [mixedRegistry] up to the first invocation of the
    continuation of its function. *)
Definition continuedOnce : list stimulus :=
  [Tick; Tick; FromChild 0 (Exit (Some 0%Z)); Continue 1].

(** * Properties *)

(** ** Registration *)

Section RegistrationFacts.

Context `{Platform}.

Lemma find_none_not_elem {A B : Type} `{EqDecision B} (f : A -> B) (b : B) (l : list A) :
  List.find (fun x => bool_decide (f x = b)) l = None <-> b ∉ (f <$> l).
Proof.
  induction l as [|x l IH]; simpl.
  - split; [intros _ Hin; inversion Hin | done].
  - case_bool_decide as Hx.
    + split; [done | intros Hn; exfalso; apply Hn; rewrite Hx; left].
    + rewrite IH. split.
      * intros Hn Hin. apply elem_of_cons in Hin as [Heq | Hin]; [by subst | done].
      * intros Hn Hin. apply Hn. by right.
Qed.

Lemma getPrivateDataBySlug_none r s :
  getPrivateDataBySlug r s = None <-> s ∉ (pslug <$> sourcePrivateData r).
Proof. apply find_none_not_elem. Qed.

(** With a known slug line 255 does not throw, and its value is false
    exactly when a non-empty fingerprint equal to the current one is
    recorded. *)
Lemma firstTest_known r s sig mp :
  getPrivateDataBySlug r s = Some mp ->
  firstTest r s sig =
    Some (match ledgerEntry r s sig with
          | None => true
          | Some recorded =>
              negb (truthy recorded) || negb (bool_decide (recorded = srcFileHash mp))
          end).
Proof.
  intros Hmp. unfold firstTest, ledgerEntry.
  destruct (privateData r !! s) as [entry|]; simpl; [|done].
  destruct (entry !! sig) as [recorded|]; [|done].
  rewrite Hmp. by destruct (truthy recorded).
Qed.

Lemma firstTest_unknown r s sig b :
  getPrivateDataBySlug r s = None -> firstTest r s sig = Some b -> b = true.
Proof.
  intros Hmp. unfold firstTest.
  destruct (privateData r !! s) as [entry|]; [|congruence].
  destruct (entry !! sig) as [recorded|]; [|congruence].
  rewrite Hmp. destruct (truthy recorded); congruence.
Qed.

Lemma runTaskFlag_unknown r c s out b :
  getPrivateDataBySlug r s = None -> runTaskFlag r c s out = Some b -> b = true.
Proof.
  intros Hmp. unfold runTaskFlag.
  destruct (firstTest r s (cmdLog c)) as [b0|] eqn:Hft; [|done].
  apply (firstTest_unknown _ _ _ _ Hmp) in Hft as ->. simpl. congruence.
Qed.


(** What a returning call did, by the value of [runTask]. *)
Lemma addTask_returned r c s out r' :
  addTask r c s out = Returned r' ->
  allTasks r' = allTasks r ++ [c] /\
  ((runTaskFlag r c s out = Some false /\ neededTasks r' = neededTasks r /\
    privateData r' = privateData r) \/
   (runTaskFlag r c s out = Some true /\
    exists mp, getPrivateDataBySlug r s = Some mp /\
      neededTasks r' = neededTasks r ++ [Task c s (getMetadataBySlug r s)] /\
      ledgerEntry r' s (cmdLog c) = Some (srcFileHash mp))).
Proof.
  unfold addTask. destruct (runTaskFlag r c s out) as [[|]|] eqn:Hflag; [| |done].
  - destruct (getPrivateDataBySlug r s) as [mp|] eqn:Hmp;
      [|destruct (privateData r !! s); done].
    intros [= <-]. split; [by destruct (privateData r !! s)|].
    right. split; [done|]. exists mp.
    split; [done|]. split; [by destruct (privateData r !! s)|].
    unfold ledgerEntry. destruct (privateData r !! s); simpl;
      rewrite lookup_insert_eq; simpl; apply lookup_insert_eq.
  - intros [= <-]. split; [done|]. left. done.
Qed.


Lemma addTask_known r c s out mp :
  getPrivateDataBySlug r s = Some mp -> exists r', addTask r c s out = Returned r'.
Proof.
  intros Hmp. destruct (addTask r c s out) as [r'|r'] eqn:Hadd; [by eauto|].
  exfalso. unfold addTask in Hadd. rewrite Hmp in Hadd.
  destruct (runTaskFlag r c s out) as [[|]|] eqn:Hflag; try done.
  unfold runTaskFlag in Hflag. by rewrite (firstTest_known _ _ _ _ Hmp) in Hflag.
Qed.

Lemma runTaskFlag_known r c s out mp :
  getPrivateDataBySlug r s = Some mp ->
  runTaskFlag r c s out =
    Some (match ledgerEntry r s (cmdLog c) with
          | None => true
          | Some recorded =>
              negb (truthy recorded) || negb (bool_decide (recorded = srcFileHash mp))
          end || negb (bool_decide (out ∈ disk r)) || forceTask r).
Proof.
  intros Hmp. unfold runTaskFlag. rewrite (firstTest_known _ _ _ _ Hmp).
  f_equal.
  destruct (match ledgerEntry r s (cmdLog c) with
            | Some recorded =>
                negb (truthy recorded) || negb (bool_decide (recorded = srcFileHash mp))
            | None => true
            end); simpl; [done|].
  destruct (bool_decide (out ∈ disk r)); simpl; [|done].
  by destruct (forceTask r).
Qed.

Lemma truthy_false s : truthy s = false <-> s = EmptyString.
Proof. by destruct s. Qed.

Lemma neededCondition_flag r c s out mp :
  neededCondition r c s out (srcFileHash mp) <->
  match ledgerEntry r s (cmdLog c) with
  | None => true
  | Some recorded =>
      negb (truthy recorded) || negb (bool_decide (recorded = srcFileHash mp))
  end || negb (bool_decide (out ∈ disk r)) || forceTask r = true.
Proof.
  unfold neededCondition. rewrite !orb_true_iff, negb_true_iff, bool_decide_eq_false.
  destruct (ledgerEntry r s (cmdLog c)) as [recorded|].
  - rewrite orb_true_iff, !negb_true_iff, bool_decide_eq_false, truthy_false.
    split.
    + intros [?|[[= ->]|[Hne|[?|?]]]]; try done; eauto.
      left. left. right. congruence.
    + intros [[[->|Hne]|?]|?]; eauto. right. right. left. congruence.
  - split; eauto.
Qed.

(** C1 (as amended): for a slug the scan produced the call returns, the
    command is always appended to [allTasks], and a task is queued exactly
    when there is no record for (slug, signature), or the record is the
    empty string, or it differs from the current fingerprint, or the
    output file is absent, or [forceTask] is set. *)
Theorem addTask_needed_iff r c s out mp :
  getPrivateDataBySlug r s = Some mp ->
  exists r', addTask r c s out = Returned r' /\
    allTasks r' = allTasks r ++ [c] /\
    ((neededCondition r c s out (srcFileHash mp) /\
      neededTasks r' = neededTasks r ++ [Task c s (getMetadataBySlug r s)]) \/
     (~ neededCondition r c s out (srcFileHash mp) /\
      neededTasks r' = neededTasks r)).
Proof.
  intros Hmp. destruct (addTask_known r c s out mp Hmp) as [r' Hadd].
  exists r'. split; [done|].
  destruct (addTask_returned _ _ _ _ _ Hadd) as [Hall Hcases]. split; [done|].
  rewrite (runTaskFlag_known _ _ _ _ _ Hmp) in Hcases.
  rewrite (neededCondition_flag r c s out mp).
  destruct Hcases as [([= Hflag] & Hneeded & _)|([= Hflag] & mp' & _ & Hneeded & _)].
  - right. rewrite Hflag. done.
  - left. rewrite Hflag. done.
Qed.

(** C7: a call for a slug without a private record throws and queues
    nothing; a call for a slug that has one returns. *)
Theorem addTask_throws_iff_unknown r c s out :
  match addTask r c s out with
  | Threw r' =>
      (s ∉ (pslug <$> sourcePrivateData r)) /\
      neededTasks r' = neededTasks r /\ allTasks r' = allTasks r
  | Returned r' => s ∈ (pslug <$> sourcePrivateData r)
  end.
Proof.
  destruct (getPrivateDataBySlug r s) as [mp|] eqn:Hmp.
  - destruct (addTask_known r c s out mp Hmp) as [r' ->].
    destruct (decide (s ∈ pslug <$> sourcePrivateData r)) as [|Hn]; [done|].
    apply getPrivateDataBySlug_none in Hn. congruence.
  - pose proof (proj1 (getPrivateDataBySlug_none r s) Hmp) as Hn.
    unfold addTask. rewrite Hmp.
    destruct (runTaskFlag r c s out) as [b|] eqn:Hflag; [|done].
    rewrite (runTaskFlag_unknown _ _ _ _ _ Hmp Hflag).
    by destruct (privateData r !! s).
Qed.

(** C4: the ledger key is the text of a string command and, for a
    function, its name followed by the digest of its source text; it
    depends on nothing else, and two registrations of one command that
    queue a task both write their record under that key. *)
Theorem cmdLog_is_ledger_key :
  (forall text, cmdLog (CmdString text) = text) /\
  (forall name source eager,
      cmdLog (CmdFunction name source eager) = name +:+ sha256_hex source) /\
  (forall r1 r2 c s1 s2 out1 out2 r1' r2',
      addTask r1 c s1 out1 = Returned r1' ->
      addTask r2 c s2 out2 = Returned r2' ->
      neededTasks r1' <> neededTasks r1 ->
      neededTasks r2' <> neededTasks r2 ->
      exists mp1 mp2,
        getPrivateDataBySlug r1 s1 = Some mp1 /\
        getPrivateDataBySlug r2 s2 = Some mp2 /\
        ledgerEntry r1' s1 (cmdLog c) = Some (srcFileHash mp1) /\
        ledgerEntry r2' s2 (cmdLog c) = Some (srcFileHash mp2)).
Proof.
  split; [done|]. split; [done|].
  intros r1 r2 c s1 s2 out1 out2 r1' r2' Hadd1 Hadd2 Hne1 Hne2.
  destruct (addTask_returned _ _ _ _ _ Hadd1) as [_ [(_ & ? & _)|(_ & mp1 & Hmp1 & _ & He1)]];
    [done|].
  destruct (addTask_returned _ _ _ _ _ Hadd2) as [_ [(_ & ? & _)|(_ & mp2 & Hmp2 & _ & He2)]];
    [done|].
  by exists mp1, mp2.
Qed.

End RegistrationFacts.

(** ** Execution never touches the registry *)

Section RegistryUntouched.

Lemma reg_emit e m : reg (emit e m) = reg m.
Proof. unfold emit. destruct e; simpl; try done; by destruct (listening m). Qed.

Lemma performAll_cons k i t e effs m :
  performAll k i t (e :: effs) m = performAll k i t effs (perform k i t e m).
Proof. done. Qed.

Lemma performAll_nil k i t m : performAll k i t [] m = m.
Proof. done. Qed.


Lemma reg_localComplete t m : reg (localComplete t m) = reg m.
Proof. unfold localComplete. by rewrite reg_emit. Qed.

Lemma reg_notify m : reg (notify m) = reg m.
Proof. unfold notify. destruct (awaiting _); [apply reg_emit | done]. Qed.

Lemma reg_callbackInPop i m : reg (callbackInPop i m) = reg m.
Proof. unfold callbackInPop. case_bool_decide; [by rewrite reg_notify | done]. Qed.

Lemma reg_performAll k i t effs m :
  (forall j m0, reg (k j m0) = reg m0) -> reg (performAll k i t effs m) = reg m.
Proof.
  intros Hk. revert m. induction effs as [|e effs IH]; intros m; [done|].
  rewrite performAll_cons, IH.
  destruct e; simpl; try done; try apply reg_localComplete; apply Hk.
Qed.

Lemma reg_startTask i t m : reg (startTask i t m) = reg m.
Proof.
  unfold startTask. destruct (cmd t) as [text|name source [|]]; try done.
  by rewrite reg_performAll by apply reg_callbackInPop.
Qed.

Lemma reg_popLoop fuel m : reg (popLoop fuel m) = reg m.
Proof.
  revert m. induction fuel as [|fuel IH]; intros m; [done|]. simpl.
  destruct (bool_decide _ && slotFree _); [|done].
  destruct (tasks (taskQueue m) !! started (taskQueue m)); [|done].
  by rewrite IH, reg_startTask.
Qed.

Lemma reg_callback i m : reg (callback i m) = reg m.
Proof.
  unfold callback, pop. case_bool_decide; [by rewrite reg_notify | by rewrite reg_popLoop].
Qed.

Lemma reg__runTask t m : reg (_runTask t m) = reg m.
Proof. unfold _runTask, queueDefer, pop. by rewrite reg_popLoop. Qed.

Lemma reg_forEachNeeded ts index m : reg (forEachNeeded ts index m) = reg m.
Proof.
  revert index m. induction ts as [|t ts IH]; intros index m; [done|]. simpl.
  rewrite IH.
  destruct (bool_decide (index + 1 = length (neededTasks (reg (_runTask t m)))));
    [rewrite reg_emit|]; apply reg__runTask.
Qed.

Lemma reg_runTasks m : reg (runTasks m) = reg m.
Proof.
  unfold runTasks. case_bool_decide.
  - unfold queueAwait. case_bool_decide; [rewrite reg_notify|]; simpl;
      by rewrite reg_forEachNeeded, reg_emit.
  - by rewrite !reg_emit.
Qed.



End RegistryUntouched.

Section LedgerFacts.

Context `{Platform}.


End LedgerFacts.

(** ** The loop of [pop] *)

Section PopFacts.

Ltac qfields :=
  cbn [reg taskQueue children timers listening tasksRun trace say setQueue setChildren
       setTimers setListening bumpTasksRun defer tasks started active remaining awaiting
       parallelism released].

Lemma taskQueue_emit e m : taskQueue (emit e m) = taskQueue m.
Proof. unfold emit. destruct e; try done; by destruct (listening _). Qed.

Lemma children_emit e m : children (emit e m) = children m.
Proof. unfold emit. destruct e; try done; by destruct (listening _). Qed.

Lemma taskQueue_localComplete t m : taskQueue (localComplete t m) = taskQueue m.
Proof. unfold localComplete. by rewrite taskQueue_emit. Qed.

Lemma children_localComplete t m : children (localComplete t m) = children m.
Proof. unfold localComplete. by rewrite children_emit. Qed.

(** What starting a task does to the queue: only an eager function
    changes it, by the release of its own slot. *)
Lemma startTask_queue i t m :
  taskQueue (startTask i t m) =
    (if nonEager t then taskQueue m else released (taskQueue m)).
Proof.
  unfold startTask, nonEager. destruct (cmd t) as [text|name source [|]]; try done.
  unfold continuation. rewrite !performAll_cons, performAll_nil. cbn [perform].
  unfold callbackInPop, notify. qfields. rewrite taskQueue_localComplete. qfields.
  case_bool_decide; [|done]. destruct (awaiting _); [|done].
  by rewrite taskQueue_emit.
Qed.

(** The fuel [pop] gives its loop is enough: with any more of it the loop
    stops in the same state, having started every task it could. *)
Lemma popLoop_enough_fuel fuel m :
  length (tasks (taskQueue m)) - started (taskQueue m) <= fuel ->
  popLoop fuel m = pop m.
Proof.
  unfold pop. revert m. induction fuel as [|fuel IH]; intros m Hfuel.
  - by replace (length (tasks (taskQueue m)) - started (taskQueue m)) with 0 by lia.
  - cbn [popLoop].
    destruct (bool_decide (started (taskQueue m) < length (tasks (taskQueue m)))) eqn:Hlt.
    + apply bool_decide_eq_true in Hlt.
      destruct (length (tasks (taskQueue m)) - started (taskQueue m)) as [|k] eqn:Hk; [lia|].
      cbn [popLoop]. rewrite bool_decide_eq_true_2 by done. cbn [andb].
      destruct (slotFree (taskQueue m)); [|done].
      destruct (tasks (taskQueue m) !! started (taskQueue m)) as [t|]; [|done].
      set (m' := startTask _ _ _).
      assert (length (tasks (taskQueue m')) - started (taskQueue m') = k) as Hk'.
      { subst m'. rewrite startTask_queue. destruct (nonEager t); qfields; lia. }
      rewrite (IH m') by lia. by rewrite Hk'.
    + cbn [andb].
      destruct (length (tasks (taskQueue m)) - started (taskQueue m)) as [|k]; [done|].
      cbn [popLoop]. by rewrite Hlt.
Qed.

End PopFacts.

(** ** The handlers of a string command *)

Section ChildFacts.

Lemma append_cons (x : ascii) (a b : string) : String x a +:+ b = String x (a +:+ b).
Proof. reflexivity. Qed.

Lemma append_empty_l (a : string) : EmptyString +:+ a = a.
Proof. reflexivity. Qed.

Lemma append_assoc (a b c : string) : (a +:+ b) +:+ c = a +:+ (b +:+ c).
Proof. induction a as [|x a IH]; [done|]. rewrite !append_cons. by f_equal. Qed.

Lemma append_empty_r (a : string) : a +:+ EmptyString = a.
Proof. induction a as [|x a IH]; [done|]. rewrite append_cons. by f_equal. Qed.

Lemma childRun_cons stdout ev evs :
  childRun stdout (ev :: evs) =
    (fst (childRun (fst (childStep stdout ev)) evs),
     snd (childStep stdout ev) ++ snd (childRun (fst (childStep stdout ev)) evs)).
Proof.
  simpl. destruct (childStep stdout ev) as [stdout1 effs]. simpl.
  by destruct (childRun stdout1 evs).
Qed.

Lemma childRun_stdout evs stdout :
  fst (childRun stdout evs) = stdout +:+ capturedStdout evs.
Proof.
  revert stdout. induction evs as [|ev evs IH]; intros stdout.
  - simpl. by rewrite append_empty_r.
  - rewrite childRun_cons. cbn [fst]. rewrite IH.
    destruct ev; cbn [childStep onStdoutData fst capturedStdout]; try done.
    apply append_assoc.
Qed.

Lemma childRun_app stdout evs1 evs2 :
  snd (childRun stdout (evs1 ++ evs2)) =
    snd (childRun stdout evs1) ++ snd (childRun (fst (childRun stdout evs1)) evs2).
Proof.
  revert stdout. induction evs1 as [|ev evs1 IH]; intros stdout; [done|].
  rewrite <- app_comm_cons, !childRun_cons. simpl. by rewrite IH, app_assoc.
Qed.

Lemma onExit_callbacks stdout code : count_occ effect_eq_dec (onExit stdout code) DoCallback = 1.
Proof. unfold onExit. by destruct (truthy stdout), code. Qed.

(** Each report on [stderr] and each exit calls the queue's [callback]
    once; chunks on [stdout] never do. *)
Lemma childRun_callbacks evs stdout :
  count_occ effect_eq_dec (snd (childRun stdout evs)) DoCallback =
    length (List.filter isStderr evs) + length (List.filter isExit evs).
Proof.
  revert stdout. induction evs as [|ev evs IH]; intros stdout; [done|].
  rewrite childRun_cons. cbn [snd]. rewrite count_occ_app, IH.
  destruct ev; cbn [childStep onStdoutData fst snd List.filter isStderr isExit].
  - done.
  - simpl. lia.
  - rewrite onExit_callbacks. simpl. lia.
Qed.

Lemma capturedStdout_without_stderr evs :
  capturedStdout (List.filter (fun ev => negb (isStderr ev)) evs) = capturedStdout evs.
Proof.
  induction evs as [|ev evs IH]; [done|]. destruct ev; simpl; by rewrite ?IH.
Qed.



(** C9: every chunk on [stderr] calls the queue's [callback] at once,
    and the exit calls it again, so the handlers of one child call it once
    per chunk and once more; [callback] has no guard and frees a slot each
    time.  The exit with a code still calls [onComplete] and emits
    [taskdone], whatever was written to [stderr].  With three commands and
    a limit of one, a warning and the exit of the first child start both
    others; the events and the counter [tasksRun] are those of a run
    without the warning. *)
Theorem stderr_releases_the_slot_and_exit_releases_it_again :
  (forall data,
      onStderrData data = [DoLog Error ("exec error: " +:+ data); DoCallback]) /\
  (forall evs stdout,
      count_occ effect_eq_dec (snd (childRun stdout evs)) DoCallback =
        length (List.filter isStderr evs) + length (List.filter isExit evs)) /\
  (forall q, active (released q) = (active q - 1)%Z /\
             remaining (released q) = (remaining q - 1)%Z) /\
  (forall evs code,
      snd (childRun EmptyString (evs ++ [Exit (Some code)])) =
        snd (childRun EmptyString evs) ++
        (if truthy (capturedStdout evs) then [DoLog Verbose (capturedStdout evs)] else []) ++
        [DoOnComplete (Some (capturedStdout evs)); DoLocalComplete; DoCallback]) /\
  (forall evs code,
      onExit (capturedStdout (List.filter (fun ev => negb (isStderr ev)) evs)) code =
        onExit (capturedStdout evs) code) /\
  parallelism (taskQueue threeCommands) = 1 /\
  children (run threeCommands warningThenExit) =
    [Spawned EmptyString true; Spawned EmptyString false; Spawned EmptyString false] /\
  outstanding (run threeCommands warningThenExit) = 2 /\
  events (run threeCommands warningThenExit) =
    [Ready; AllTasksReady (TasksMetaData 3 3 0); AllTasksRunning (TasksMetaData 3 3 0);
     TaskDone "c0" publicA] /\
  events (run threeCommands warningThenExit) = events (run threeCommands exitOnly) /\
  tasksRun (run threeCommands warningThenExit) = tasksRun (run threeCommands exitOnly).
Proof.
  split; [done|]. split; [apply childRun_callbacks|]. split; [done|].
  split.
  { intros evs code. rewrite childRun_app, childRun_stdout. simpl.
    by rewrite app_nil_r. }
  split; [intros evs code; by rewrite capturedStdout_without_stderr|].
  split_and!; by vm_compute.
Qed.

End ChildFacts.

(** ** The order of the lifecycle events *)

Section LifecycleFacts.

Ltac fields :=
  cbn [reg taskQueue children timers listening tasksRun trace say setQueue setChildren
       setTimers setListening bumpTasksRun defer tasks started active remaining awaiting
       parallelism released] in *.

Lemma events_say o m :
  events (say o m) = events m ++ match o with Emit e => [e] | _ => [] end.
Proof.
  unfold events. fields. rewrite omap_app. destruct o; simpl; by rewrite ?app_nil_r.
Qed.

Lemma lifecycle_snoc p es e p' :
  lifecycle p es = Some p' -> lifecycle p (es ++ [e]) = advance p' e.
Proof.
  revert p. induction es as [|e0 es IH]; intros p Hes; simpl in *.
  - injection Hes as ->. by destruct (advance p' e).
  - destruct (advance p e0); [by apply IH | done].
Qed.

Lemma pending_insert_same cs i c' :
  (forall c, cs !! i = Some c -> finished c = finished c') ->
  pending (<[i := c']> cs) = pending cs.
Proof.
  unfold pending. revert i. induction cs as [|c cs IH]; intros i Hc; [done|].
  destruct i as [|i]; simpl.
  - rewrite <- (Hc c eq_refl). by destruct (finished c).
  - destruct (negb (finished c)); simpl; rewrite IH; try done; intros c0 H0; by apply Hc.
Qed.

Lemma pending_insert_finish cs i c c' :
  cs !! i = Some c -> finished c = false -> finished c' = true ->
  S (pending (<[i := c']> cs)) = pending cs.
Proof.
  unfold pending. revert i. induction cs as [|c0 cs IH]; intros i Hc Hf Hf'; [done|].
  destruct i as [|i]; simpl in *.
  - injection Hc as ->. rewrite Hf, Hf'. done.
  - destruct (negb (finished c0)); simpl; by rewrite <- (IH i).
Qed.

Lemma pending_zero cs : pending cs = 0 -> Forall (fun c => finished c = true) cs.
Proof.
  unfold pending. induction cs as [|c cs IH]; [done|]. simpl.
  destruct (finished c) eqn:Hc; simpl; [|done]. intros Hz. constructor; auto.
Qed.

Lemma quiet_refl m : idleFrom (started (taskQueue m)) (children m) -> quiet m m.
Proof. unfold quiet. naive_solver. Qed.

Lemma quiet_trans m1 m2 m3 : quiet m1 m2 -> quiet m2 m3 -> quiet m1 m3.
Proof. unfold quiet. intros. destruct_and!. repeat split; try congruence; auto. Qed.

Lemma idleFrom_insert k i c cs : i < k -> idleFrom i cs -> idleFrom k (<[i := c]> cs).
Proof.
  intros Hik Hidle j c0 Hj Hlook. rewrite list_lookup_insert_ne in Hlook by lia.
  apply (Hidle j); [lia | done].
Qed.

Lemma freshFns_insert script i c cs :
  (forall k, c = Invoked k -> k = 0) -> freshFns script cs -> freshFns script (<[i := c]> cs).
Proof.
  intros Hc Hfresh j k Hj Hlook. destruct (decide (i = j)) as [->|Hne].
  - apply list_lookup_insert_Some in Hlook as [(_ & Heq & _)|(? & _)]; [by apply Hc | done].
  - rewrite list_lookup_insert_ne in Hlook by done. by apply (Hfresh j).
Qed.

(** Starting a string command or a function that calls back later
    emits nothing and completes nothing. *)
Lemma startTask_quiet t m q1 :
  nonEager t = true ->
  tasks q1 = tasks (taskQueue m) -> remaining q1 = remaining (taskQueue m) ->
  awaiting q1 = awaiting (taskQueue m) ->
  started q1 = S (started (taskQueue m)) ->
  idleFrom (started (taskQueue m)) (children m) ->
  quiet m (startTask (started (taskQueue m)) t (setQueue q1 m)).
Proof.
  intros Ht Htasks Hrem Haw Hst Hidle. unfold startTask, nonEager in *.
  assert (forall c', finished c' = false ->
            pending (<[started (taskQueue m) := c']> (children m)) = pending (children m)) as Hp.
  { intros c' Hc'. apply pending_insert_same. intros c Hc.
    rewrite (Hidle _ c (le_n _) Hc). by rewrite Hc'. }
  destruct (cmd t) as [text|name source [|]]; [|done|].
  - unfold quiet. rewrite events_say. fields. rewrite app_nil_r.
    repeat split; try done.
    + by apply Hp.
    + rewrite Hst. by apply idleFrom_insert; [lia|].
    + intros script. by apply freshFns_insert.
  - unfold quiet. unfold events. fields. rewrite omap_app, app_nil_r.
    repeat split; try done.
    + by apply Hp.
    + rewrite Hst. by apply idleFrom_insert; [lia|].
    + intros script. apply freshFns_insert. by intros k [= <-].
Qed.

Lemma popLoop_quiet fuel m :
  Forall (fun t => nonEager t = true) (tasks (taskQueue m)) ->
  idleFrom (started (taskQueue m)) (children m) ->
  quiet m (popLoop fuel m).
Proof.
  revert m. induction fuel as [|fuel IH]; intros m Hall Hidle; [by apply quiet_refl|].
  simpl. destruct (bool_decide _ && slotFree _); [|by apply quiet_refl].
  destruct (tasks (taskQueue m) !! started (taskQueue m)) as [t|] eqn:Ht;
    [|by apply quiet_refl].
  set (q1 := Queue _ _ _ _ _ _).
  assert (quiet m (startTask (started (taskQueue m)) t (setQueue q1 m))) as Hq.
  { apply startTask_quiet; try done. by apply (Forall_lookup_1 _ _ _ _ Hall Ht). }
  eapply quiet_trans; [exact Hq|]. apply IH.
  - destruct Hq as (_ & _ & _ & _ & -> & _). done.
  - by destruct Hq as (_ & _ & _ & _ & _ & _ & _ & _ & ? & _).
Qed.

Lemma events_setChildren cs m : events (setChildren cs m) = events m.
Proof. done. Qed.

Lemma events_setQueue q m : events (setQueue q m) = events m.
Proof. done. Qed.

Lemma events_emit e m : events (emit e m) = events m ++ [e].
Proof.
  unfold emit. destruct e; try apply events_say;
    destruct (listening _); apply (events_say (Emit _) m).
Qed.

Lemma idleFrom_started k cs i c : idleFrom k cs -> cs !! i = Some c -> c <> Idle -> i < k.
Proof.
  intros Hidle Hc Hne. destruct (decide (i < k)) as [|Hge]; [done|].
  exfalso. apply Hne, (Hidle i); [lia | done].
Qed.

Lemma idleFrom_update k cs i c c' :
  idleFrom k cs -> cs !! i = Some c -> c <> Idle -> idleFrom k (<[i := c']> cs).
Proof.
  intros Hidle Hc Hne j c0 Hj Hlook.
  pose proof (idleFrom_started _ _ _ _ Hidle Hc Hne).
  rewrite list_lookup_insert_ne in Hlook by lia. by apply (Hidle j).
Qed.

Lemma localComplete_fields t m :
  events (localComplete t m) =
    events m ++ [TaskDone (cmdName (cmd t)) (getMetadataBySlug (reg m) (tslug t))] /\
  timers (localComplete t m) = timers m /\
  listening (localComplete t m) = listening m /\
  children (localComplete t m) = children m /\
  taskQueue (localComplete t m) = taskQueue m /\
  reg (localComplete t m) = reg m.
Proof.
  unfold localComplete. rewrite events_emit, events_say, app_nil_r.
  unfold emit. by destruct (listening (say (Emit _) (say (Log _ _) m))).
Qed.

(** Everything a handler does before it calls [callback] keeps the run
    in its running stage and leaves queue and children alone. *)
Lemma perform_plain k i t e m :
  e <> DoCallback -> running m ->
  running (perform k i t e m) /\
  children (perform k i t e m) = children m /\
  taskQueue (perform k i t e m) = taskQueue m /\
  reg (perform k i t e m) = reg m.
Proof.
  intros He (Hlife & Htimers & Hlisten & Haw & Hall & Hidle).
  destruct e; try done; cbn [perform];
    try (unfold running; rewrite events_say; fields; by rewrite app_nil_r).
  destruct (localComplete_fields t m) as (He' & Ht & Hl & Hc & Hq & Hr).
  unfold running. rewrite He', Ht, Hl, Hc, Hq, (lifecycle_snoc _ _ _ _ Hlife). done.
Qed.

(** [callback] in the running stage, when the counter [remaining] is
    one above the number of unfinished tasks: either tasks remain and
    the run goes on, or none does and [alltasksdone] is emitted. *)
Lemma callback_running i m :
  running m ->
  remaining (taskQueue m) = (Z.of_nat (pending (children m)) + 1)%Z ->
  reg (callback i m) = reg m /\
  (forall script, freshFns script (children m) -> freshFns script (children (callback i m))) /\
  ((running (callback i m) /\
    remaining (taskQueue (callback i m)) = Z.of_nat (pending (children (callback i m)))) \/
   (lifecycle BeforeReady (events (callback i m)) = Some BeforeDone /\
    timers (callback i m) = [Finish] /\ settled (callback i m))).
Proof.
  intros (Hlife & Htimers & Hlisten & Haw & Hall & Hidle) Hrem.
  split; [apply reg_callback|]. unfold callback. fields.
  case_bool_decide as Hzero.
  - unfold notify. fields. rewrite Haw. split; [by unfold emit; fields; rewrite Hlisten|].
    right. rewrite events_emit. unfold emit, settled. fields. rewrite Hlisten. fields.
    rewrite (lifecycle_snoc _ _ _ _ Hlife), Htimers.
    repeat split; try done. apply pending_zero. lia.
  - unfold pop.
    set (m1 := setQueue (released (taskQueue m)) m).
    destruct (popLoop_quiet (length (tasks (taskQueue m1)) - started (taskQueue m1)) m1)
      as (He & Ht & Hl & _ & Hta & Hr & Ha & Hp & Hi & Hf); [done..|].
    split; [done|]. left. unfold running.
    rewrite He, Ht, Hl, Hta, Hr, Ha, Hp. subst m1. fields.
    repeat split; try done. lia.
Qed.

Lemma performAll_then_callback i t effs m :
  Forall (fun e => e <> DoCallback) effs ->
  running m ->
  remaining (taskQueue m) = (Z.of_nat (pending (children m)) + 1)%Z ->
  let m' := performAll callback i t (effs ++ [DoCallback]) m in
  reg m' = reg m /\
  (forall script, freshFns script (children m) -> freshFns script (children m')) /\
  ((running m' /\ remaining (taskQueue m') = Z.of_nat (pending (children m'))) \/
   (lifecycle BeforeReady (events m') = Some BeforeDone /\
    timers m' = [Finish] /\ settled m')).
Proof.
  revert m. induction effs as [|e effs IH]; intros m Hplain Hrun Hrem.
  - apply (callback_running i m Hrun Hrem).
  - apply Forall_cons in Hplain as [He Hplain]. cbn zeta.
    rewrite <- app_comm_cons, performAll_cons.
    destruct (perform_plain callback i t e m He Hrun) as (Hrun' & Hc & Hq & Hr).
    specialize (IH (perform callback i t e m) Hplain Hrun').
    rewrite Hc, Hq, Hr in IH. by apply IH.
Qed.

Lemma onExit_shape stdout code :
  exists effs, onExit stdout code = effs ++ [DoCallback] /\
               Forall (fun e => e <> DoCallback) effs.
Proof.
  exists ((if truthy stdout then [DoLog Verbose stdout] else []) ++
          match code with
          | None => [DoOnTimeout]
          | Some _ => [DoOnComplete (Some stdout); DoLocalComplete]
          end).
  split; [unfold onExit; by rewrite app_assoc|].
  destruct (truthy stdout), code; repeat constructor; done.
Qed.

Lemma pending_snoc_idle cs : pending (cs ++ [Idle]) = S (pending cs).
Proof.
  unfold pending. rewrite List.filter_app, length_app. simpl. lia.
Qed.

Lemma idleFrom_snoc k cs : idleFrom k cs -> idleFrom k (cs ++ [Idle]).
Proof.
  intros Hidle i c Hi Hlook. apply lookup_app_Some in Hlook as [Hl|[_ Hr]].
  - by apply (Hidle i).
  - apply list_lookup_singleton_Some in Hr as [_ <-]. done.
Qed.

Lemma freshFns_snoc rest cs : freshFns rest cs -> freshFns rest (cs ++ [Idle]).
Proof.
  intros Hfresh i k Hi Hlook. apply lookup_app_Some in Hlook as [Hl|[_ Hr]].
  - by apply (Hfresh i).
  - by apply list_lookup_singleton_Some in Hr as [_ ?].
Qed.

Lemma _runTask_deferring rest t m :
  nonEager t = true -> deferring BeforeTasksRunning rest m ->
  deferring BeforeTasksRunning rest (_runTask t m) /\
  reg (_runTask t m) = reg m /\
  length (tasks (taskQueue (_runTask t m))) = S (length (tasks (taskQueue m))).
Proof.
  intros Ht (Hlife & Htimers & Hlisten & Haw & Hall & Hidle & Hrem & Hlen & Hfresh).
  unfold _runTask, queueDefer, pop.
  set (m1 := setQueue _ _).
  assert (events m1 = events m /\ timers m1 = timers m /\ listening m1 = listening m /\
          reg m1 = reg m /\
          tasks (taskQueue m1) = tasks (taskQueue m) ++ [t] /\
          remaining (taskQueue m1) = (remaining (taskQueue m) + 1)%Z /\
          awaiting (taskQueue m1) = awaiting (taskQueue m) /\
          children m1 = children m ++ [Idle] /\
          started (taskQueue m1) = started (taskQueue m))
    as (He1 & Hti1 & Hl1 & Hreg1 & Hta1 & Hr1 & Ha1 & Hc1 & Hs1).
  { subst m1. rewrite events_setQueue, events_setChildren, events_say, app_nil_r. done. }
  assert (Forall (fun t => nonEager t = true) (tasks (taskQueue m1))) as Hall1.
  { rewrite Hta1. apply Forall_app. split; [done|]. by constructor. }
  assert (idleFrom (started (taskQueue m1)) (children m1)) as Hidle1.
  { rewrite Hs1, Hc1. by apply idleFrom_snoc. }
  generalize (length (tasks (taskQueue m1)) - started (taskQueue m1)). intros fuel.
  destruct (popLoop_quiet fuel m1 Hall1 Hidle1)
    as (He & Hti & Hl & Hreg & Hta & Hr & Ha & Hp & Hi & Hf).
  clearbody m1.
  split; [|split; [congruence|]].
  - unfold deferring.
    rewrite He, Hti, Hl, Hta, Hr, Ha, Hp, He1, Hti1, Hl1, Hta1, Hr1, Ha1, Hc1.
    rewrite pending_snoc_idle, length_app. cbn [length].
    split_and!; try done.
    + by rewrite <- Hta1.
    + lia.
    + lia.
    + apply Hf. rewrite Hc1. by apply freshFns_snoc.
  - rewrite Hta, Hta1, length_app. cbn [length]. lia.
Qed.

Lemma forEachNeeded_deferring rest r ts :
  forall pre m,
    neededTasks r = pre ++ ts -> ts <> [] ->
    Forall (fun t => nonEager t = true) ts ->
    reg m = r -> deferring BeforeTasksRunning rest m ->
    length (tasks (taskQueue m)) = length pre ->
    reg (forEachNeeded ts (length pre) m) = r /\
    deferring Running rest (forEachNeeded ts (length pre) m) /\
    length (tasks (taskQueue (forEachNeeded ts (length pre) m))) = length (neededTasks r).
Proof.
  induction ts as [|t ts IH]; intros pre m Hsplit Hne Hall Hreg Hdef Hlen; [done|].
  apply Forall_cons in Hall as [Ht Hall].
  destruct (_runTask_deferring rest t m Ht Hdef) as (Hdef1 & Hreg1 & Hlen1).
  assert (length (neededTasks (reg (_runTask t m))) = length pre + S (length ts)) as Hn.
  { rewrite Hreg1, Hreg, Hsplit, length_app. done. }
  cbn [forEachNeeded]. destruct ts as [|t' ts].
  - rewrite bool_decide_eq_true_2 by (rewrite Hn; simpl; lia). cbn [forEachNeeded].
    rewrite reg_emit, Hreg1, Hreg. split; [done|].
    destruct Hdef1 as (Hlife & Htimers & Hlisten & Haw & Hall1 & Hidle & Hrem & Hlen' & Hf).
    split.
    + unfold deferring. rewrite events_emit, (lifecycle_snoc _ _ _ _ Hlife).
      unfold emit. fields. done.
    + unfold emit. fields. rewrite Hlen1, Hlen, Hsplit, length_app. simpl. lia.
  - rewrite bool_decide_eq_false_2 by (rewrite Hn; simpl; lia).
    replace (S (length pre)) with (length (pre ++ [t])) by (rewrite length_app; simpl; lia).
    apply IH; try done.
    + by rewrite <- app_assoc.
    + congruence.
    + rewrite Hlen1, Hlen, length_app. simpl. lia.
Qed.

Lemma runTasks_stage rest m :
  Forall (fun t => nonEager t = true) (neededTasks (reg m)) ->
  events m = [Ready] -> timers m = [] -> untouched m ->
  reg (runTasks m) = reg m /\ freshFns rest (children (runTasks m)) /\ stage (runTasks m).
Proof.
  intros Hall Hev Htimers (Hcs & Htasks & Hrem & Hst & Haw & Hlisten).
  split; [apply reg_runTasks|]. unfold runTasks.
  set (m1 := setListening m).
  set (m2 := emit (AllTasksReady (getTasksMetaData m1)) m1).
  assert (reg m2 = reg m) as Hreg2 by (subst m2; by rewrite reg_emit).
  assert (deferring BeforeTasksRunning rest m2) as Hdef.
  { subst m2. unfold deferring. rewrite events_emit. unfold emit. subst m1. fields.
    unfold events in *. fields. rewrite Hev, Htimers, Haw, Htasks, Hrem, Hcs, Hst.
    split_and!; try done; intros i k ? Hlook; by rewrite lookup_nil in Hlook. }
  case_bool_decide as Hlen.
  - rewrite Hreg2 in *.
    destruct (forEachNeeded_deferring rest (reg m) (neededTasks (reg m)) [] m2)
      as (Hreg3 & (Hlife & Hti & Hl & Haw3 & Hall3 & Hidle & Hrem3 & Hlen3 & Hf) & Hlen4);
      try done.
    { intros Hnil. rewrite Hnil in Hlen. simpl in Hlen. lia. }
    { subst m2 m1. unfold emit. fields. by rewrite Htasks. }
    cbn [length] in *. unfold queueAwait.
    rewrite bool_decide_eq_false_2 by lia. fields.
    split; [done|]. right. right. left. unfold running.
    rewrite events_setQueue. fields. done.
  - assert (neededTasks (reg m) = []) as Hnil.
    { rewrite Hreg2 in Hlen. destruct (neededTasks (reg m)); [done|]. simpl in Hlen. lia. }
    destruct Hdef as (Hlife & _).
    set (m3 := emit (AllTasksRunning (getTasksMetaData m2)) m2).
    set (m4 := emit (AllTasksDone (getTasksMetaData m3)) m3).
    assert (children m4 = [] /\ timers m4 = [Finish]) as [Hc4 Ht4].
    { subst m4 m3 m2 m1. unfold emit. fields. by rewrite Hcs, Htimers. }
    split.
    + rewrite Hc4. intros i k ? Hlook. by rewrite lookup_nil in Hlook.
    + right. right. right. left. unfold settled. rewrite Hc4, Ht4.
      split_and!; try done. subst m4 m3. rewrite !events_emit.
      rewrite (lifecycle_snoc _ _ _ Running); [done|].
      by rewrite (lifecycle_snoc _ _ _ _ Hlife).
Qed.

Lemma freshFns_tail s rest cs : freshFns (s :: rest) cs -> freshFns rest cs.
Proof.
  intros Hfresh i k Hi. apply (Hfresh i). unfold continues in *. simpl.
  destruct s; try done. by right.
Qed.

Lemma orderly_tail s rest : orderly (s :: rest) -> orderly rest.
Proof.
  intros [Hq Hnd]. split; [by apply Forall_cons in Hq as [_ ?]|].
  unfold continues in *. simpl in Hnd. destruct s; try done.
  by apply NoDup_cons in Hnd as [_ ?].
Qed.

Lemma stage_in_order m : stage m -> inLifecycleOrder (events m).
Proof.
  unfold inLifecycleOrder.
  intros [(-> & _)|[(-> & _)|[((-> & _) & _)|[(-> & _)|(-> & _)]]]]; by eexists.
Qed.

(** A child whose state is rewritten without finishing it (a chunk on
    [stdout]) leaves the stage as it is. *)
Lemma stage_update m i c c' o :
  (forall e, o <> Emit e) ->
  children m !! i = Some c -> c <> Idle -> finished c' = finished c ->
  stage m -> stage (say o (setChildren (<[i := c']> (children m)) m)).
Proof.
  intros Ho Hc Hne Hfin Hstage.
  assert (events (say o (setChildren (<[i := c']> (children m)) m)) = events m) as Hev.
  { rewrite events_say, events_setChildren. destruct o; try apply app_nil_r.
    by destruct (Ho e). }
  unfold stage, running, settled, untouched in *. rewrite Hev. fields.
  destruct Hstage as [(_ & _ & Hnil & _)|[(_ & _ & Hnil & _)|[Hrun|[Hdone|Hdone]]]].
  - by rewrite Hnil in Hc.
  - by rewrite Hnil in Hc.
  - right. right. left.
    destruct Hrun as ((? & ? & ? & ? & ? & Hidle) & Hrem).
    rewrite pending_insert_same by (intros c0 Hc0; congruence).
    split_and!; try done. by eapply idleFrom_update.
  - right. right. right. left. destruct Hdone as (? & ? & Hall).
    split_and!; try done. apply Forall_insert; [done|].
    rewrite Hfin. by apply (Forall_lookup_1 _ _ _ _ Hall Hc).
  - right. right. right. right. destruct Hdone as (? & ? & Hall).
    split_and!; try done. apply Forall_insert; [done|].
    rewrite Hfin. by apply (Forall_lookup_1 _ _ _ _ Hall Hc).
Qed.

(** A task that finishes while the run is in its running stage. *)
Lemma stage_finish rest m i t c c' effs :
  Forall (fun e => e <> DoCallback) effs ->
  children m !! i = Some c -> c <> Idle -> finished c = false -> finished c' = true ->
  (forall k, c' = Invoked k -> i ∉ continues rest) ->
  freshFns rest (children m) ->
  stage m ->
  let m' := performAll callback i t (effs ++ [DoCallback])
              (setChildren (<[i := c']> (children m)) m) in
  reg m' = reg m /\ freshFns rest (children m') /\ stage m'.
Proof.
  intros Hplain Hc Hne Hunf Hfin Hcont Hfresh Hstage.
  unfold stage, settled, untouched in Hstage.
  destruct Hstage as [(_ & _ & Hnil & _)|[(_ & _ & Hnil & _)|[Hrun|[Hdone|Hdone]]]].
  - by rewrite Hnil in Hc.
  - by rewrite Hnil in Hc.
  - destruct Hrun as ((Hlife & Hti & Hl & Ha & Hall & Hidle) & Hrem).
    set (m1 := setChildren (<[i := c']> (children m)) m).
    assert (running m1) as Hrun1.
    { unfold running. subst m1. rewrite events_setChildren. fields.
      split_and!; try done. by eapply idleFrom_update. }
    assert (remaining (taskQueue m1) = (Z.of_nat (pending (children m1)) + 1)%Z) as Hrem1.
    { subst m1. fields. rewrite Hrem.
      rewrite <- (pending_insert_finish _ _ _ c' Hc Hunf Hfin). lia. }
    destruct (performAll_then_callback i t effs m1 Hplain Hrun1 Hrem1)
      as (Hreg & Hf & Hst).
    split; [by rewrite Hreg|]. split.
    + apply Hf. subst m1. fields. intros j k Hj Hlook.
      destruct (decide (i = j)) as [->|Hij].
      * apply list_lookup_insert_Some in Hlook as [(_ & Heq & _)|(? & _)]; [|done].
        by destruct (Hcont k Heq).
      * rewrite list_lookup_insert_ne in Hlook by done. by apply (Hfresh j).
    + unfold stage. destruct Hst as [?|?]; [right; right; by left|].
      right; right; right; by left.
  - destruct Hdone as (_ & _ & Hall).
    pose proof (Forall_lookup_1 _ _ _ _ Hall Hc). congruence.
  - destruct Hdone as (_ & _ & Hall).
    pose proof (Forall_lookup_1 _ _ _ _ Hall Hc). congruence.
Qed.

Lemma invariant_skip r s rest m : invariant r (s :: rest) m -> invariant r rest m.
Proof. intros (? & ? & ?). split_and!; try done. by eapply freshFns_tail. Qed.

Lemma tick_invariant r rest m :
  Forall (fun t => nonEager t = true) (neededTasks r) ->
  invariant r (Tick :: rest) m -> invariant r rest (deliver Tick m).
Proof.
  intros Hall Hinv. pose proof (invariant_skip _ _ _ _ Hinv) as (Hreg & Hfresh & Hstage).
  unfold deliver.
  destruct Hstage as [(Hev & Hti & Hun)|[(Hev & Hti & Hun)|[Hrun|[Hdone|Hdone]]]].
  - rewrite Hti. unfold runDeferred, invariant. rewrite reg_emit.
    split; [done|]. split; [by unfold emit|].
    right. left. rewrite events_emit. unfold emit. unfold events. fields.
    unfold events in Hev. rewrite Hev. done.
  - rewrite Hti. unfold runDeferred.
    destruct (runTasks_stage rest (setTimers [] m)) as (Hr & Hf & Hs); try done.
    { fields. by rewrite Hreg. }
    unfold invariant. rewrite Hr. done.
  - destruct Hrun as ((? & -> & ?) & ?). unfold invariant, stage. naive_solver.
  - destruct Hdone as (Hlife & -> & Hall'). unfold runDeferred.
    unfold invariant. rewrite reg_emit. split; [done|]. split; [by unfold emit|].
    right. right. right. right.
    rewrite events_emit, !events_say, !app_nil_r.
    assert (events (setTimers [] m) = events m) as -> by done.
    rewrite (lifecycle_snoc _ _ _ _ Hlife). unfold emit, settled. fields. done.
  - destruct Hdone as (? & -> & ?). unfold invariant, stage. naive_solver.
Qed.

Lemma child_invariant r rest m i ev :
  writesStderr (FromChild i ev) = false ->
  invariant r (FromChild i ev :: rest) m -> invariant r rest (deliver (FromChild i ev) m).
Proof.
  intros Hq Hinv. pose proof (invariant_skip _ _ _ _ Hinv) as Hskip.
  destruct Hskip as (Hreg & Hfresh & Hstage).
  unfold deliver.
  destruct (children m !! i) as [[|stdout exited|n]|] eqn:Hc; try done.
  destruct (tasks (taskQueue m) !! i) as [t|] eqn:Ht; [|done].
  destruct ev as [data|data|code]; [| done |].
  - cbn [childStep onStdoutData]. rewrite performAll_cons, performAll_nil. cbn [perform].
    unfold invariant. split; [done|]. split.
    + fields. apply freshFns_insert; [done|done].
    + by apply (stage_update m i (Spawned stdout exited)).
  - destruct exited; [done|]. cbn [childStep snd].
    destruct (onExit_shape stdout code) as (effs & -> & Hplain).
    destruct (stage_finish rest m i t (Spawned stdout false) (Spawned stdout true) effs)
      as (Hr & Hf & Hs); try done.
    unfold invariant. rewrite Hr. done.
Qed.

Lemma continue_invariant r rest m i :
  NoDup (continues (Continue i :: rest)) ->
  invariant r (Continue i :: rest) m -> invariant r rest (deliver (Continue i) m).
Proof.
  intros Hnd Hinv. pose proof (invariant_skip _ _ _ _ Hinv) as Hskip.
  destruct Hinv as (_ & Hfresh0 & _). destruct Hskip as (Hreg & Hfresh & Hstage).
  unfold deliver.
  destruct (children m !! i) as [[|stdout exited|n]|] eqn:Hc; try done.
  destruct (tasks (taskQueue m) !! i) as [t|] eqn:Ht; [|done].
  assert (n = 0) as -> by (apply (Hfresh0 i); [by left | done]).
  change continuation with ([DoOnComplete None; DoLocalComplete] ++ [DoCallback]).
  destruct (stage_finish rest m i t (Invoked 0) (Invoked 1)
              [DoOnComplete None; DoLocalComplete]) as (Hr & Hf & Hs); try done.
  - repeat constructor; done.
  - intros k _. unfold continues in Hnd. simpl in Hnd. by apply NoDup_cons in Hnd as [? _].
  - unfold invariant. rewrite Hr. done.
Qed.

Lemma deliver_invariant r s rest m :
  Forall (fun t => nonEager t = true) (neededTasks r) ->
  orderly (s :: rest) ->
  invariant r (s :: rest) m -> invariant r rest (deliver s m).
Proof.
  intros Hall [Hq Hnd] Hinv. destruct s as [|i ev|i].
  - by apply tick_invariant.
  - apply child_invariant; [|done]. by apply Forall_cons in Hq as [? _].
  - by apply continue_invariant.
Qed.

Lemma run_invariant r script m :
  Forall (fun t => nonEager t = true) (neededTasks r) ->
  orderly script -> invariant r script m -> stage (run m script).
Proof.
  intros Hall. revert m. induction script as [|s rest IH]; intros m Hord Hinv.
  - by destruct Hinv as (_ & _ & ?).
  - unfold run. cbn [foldl]. apply IH; [by eapply orderly_tail|].
    by apply deliver_invariant.
Qed.

Lemma newManager_invariant r n script : invariant r script (newManager r n).
Proof.
  unfold invariant, newManager. fields. split; [done|]. split.
  - intros i k ? Hlook. by rewrite lookup_nil in Hlook.
  - by left.
Qed.

Lemma runTasks_nothing_needed m :
  neededTasks (reg m) = [] ->
  trace (runTasks m) =
    trace m ++ [Emit (AllTasksReady (getTasksMetaData m));
                Emit (AllTasksRunning (getTasksMetaData m));
                Emit (AllTasksDone (getTasksMetaData m))] /\
  taskQueue (runTasks m) = taskQueue m /\ children (runTasks m) = children m.
Proof.
  intros Hnil. unfold runTasks. rewrite reg_emit. cbn [reg setListening].
  rewrite Hnil. cbn [length]. rewrite bool_decide_eq_false_2 by lia.
  unfold emit. cbn. by rewrite <- !app_assoc.
Qed.

(** C2 (as amended): when no needed task is a function that calls back
    before it returns, no child writes to [stderr] and no continuation is
    invoked twice, the events emitted at any point of the run are a
    beginning of: [ready], [alltasksready], [alltasksrunning], any number
    of [taskdone], [alltasksdone], [done].  With no needed task,
    [runTasks] emits [alltasksready], [alltasksrunning] and
    [alltasksdone] in a row and does not touch the queue. *)
Theorem lifecycle_order r n script :
  Forall (fun t => nonEager t = true) (neededTasks r) ->
  orderly script ->
  inLifecycleOrder (events (run (newManager r n) script)) /\
  (forall m,
      match neededTasks (reg m) with
      | [] =>
          trace (runTasks m) =
            trace m ++ [Emit (AllTasksReady (getTasksMetaData m));
                        Emit (AllTasksRunning (getTasksMetaData m));
                        Emit (AllTasksDone (getTasksMetaData m))] /\
          taskQueue (runTasks m) = taskQueue m /\ children (runTasks m) = children m
      | _ :: _ => True
      end).
Proof.
  intros Hall Hord. split.
  - apply stage_in_order, (run_invariant r); try done. apply newManager_invariant.
  - intros m. destruct (neededTasks (reg m)) eqn:Hn; [|done].
    by apply runTasks_nothing_needed.
Qed.

End LifecycleFacts.

(** ** The limit and the order of the starts, without writes to [stderr] *)

Section BoundFacts.

Ltac qfields :=
  cbn [reg taskQueue children timers listening tasksRun trace say setQueue setChildren
       setTimers setListening bumpTasksRun defer tasks started active remaining awaiting
       parallelism released].

Lemma trace_emit e m : trace (emit e m) = trace m ++ [Emit e].
Proof. unfold emit. destruct e; try done; by destruct (listening _). Qed.

Lemma trace_localComplete t m :
  trace (localComplete t m) =
    trace m ++ [Log Info ("Done: " +:+ cmdName (cmd t));
                Emit (TaskDone (cmdName (cmd t)) (getMetadataBySlug (reg m) (tslug t)))].
Proof. unfold localComplete. rewrite trace_emit. qfields. by rewrite <- app_assoc. Qed.

Lemma outstanding_insert_same m i c' :
  (forall c, children m !! i = Some c -> busy c = busy c') ->
  outstanding (setChildren (<[i := c']> (children m)) m) = outstanding m.
Proof.
  unfold outstanding. qfields. generalize (children m). intros cs. revert i.
  induction cs as [|c cs IH]; intros i Hc; [done|].
  destruct i as [|i]; simpl.
  - rewrite <- (Hc c eq_refl). by destruct (busy c).
  - destruct (busy c); simpl; rewrite IH; try done; intros c0 H0; by apply Hc.
Qed.

Lemma outstanding_insert_idle m i c' :
  (forall c, children m !! i = Some c -> c = Idle) ->
  outstanding (setChildren (<[i := c']> (children m)) m) <= S (outstanding m).
Proof.
  unfold outstanding. qfields. generalize (children m). intros cs. revert i.
  induction cs as [|c cs IH]; intros i Hc; [simpl; lia|].
  destruct i as [|i]; simpl.
  - rewrite (Hc c eq_refl). simpl. destruct (busy c'); simpl; lia.
  - specialize (IH i (fun c0 H0 => Hc c0 H0)). destruct (busy c); simpl; lia.
Qed.

Lemma outstanding_insert_done m i c c' :
  children m !! i = Some c -> busy c = true -> busy c' = false ->
  S (outstanding (setChildren (<[i := c']> (children m)) m)) = outstanding m.
Proof.
  unfold outstanding. qfields. generalize (children m). intros cs. revert i.
  induction cs as [|c0 cs IH]; intros i Hc Hb Hb'; [done|].
  destruct i as [|i]; simpl in *.
  - injection Hc as ->. rewrite Hb, Hb'. done.
  - destruct (busy c0); simpl; by rewrite <- (IH i).
Qed.

Lemma starts_app m m' extra :
  trace m' = trace m ++ extra -> Forall (fun o => isStart o = false) extra ->
  starts m' = starts m.
Proof.
  intros Htr Hextra. unfold starts. rewrite Htr, omap_app.
  rewrite <- (app_nil_r (omap _ (trace m))) at 2. f_equal. clear Htr.
  induction extra as [|o extra IH]; [done|].
  apply Forall_cons in Hextra as [Ho Hextra]. cbn [omap list_omap].
  rewrite (IH Hextra). by destruct o.
Qed.

Lemma startOf_app q m m' extra :
  trace m' = trace m ++ extra -> Forall (fun o => isStart o = false) extra ->
  Forall (startOf q) (trace m) -> Forall (startOf q) (trace m').
Proof.
  intros Htr Hextra Hall. rewrite Htr. apply Forall_app. split; [done|].
  eapply Forall_impl; [exact Hextra|]. intros o Ho. by destruct o.
Qed.

(** A step that leaves queue and children alone and starts nothing. *)
Lemma bounded_frame n m m' extra :
  taskQueue m' = taskQueue m -> children m' = children m ->
  trace m' = trace m ++ extra -> Forall (fun o => isStart o = false) extra ->
  (bounded n m -> bounded n m') /\ (owing n m -> owing n m') /\
  (startable m -> startable m').
Proof.
  intros Hq Hc Htr Hextra. unfold bounded, owing, startable, outstanding.
  rewrite Hq, Hc, (starts_app m m' extra Htr Hextra).
  split_and!; intros; destruct_and!; split_and!; try done;
    by eapply startOf_app.
Qed.

Lemma bounded_emit n e m :
  (bounded n m -> bounded n (emit e m)) /\ (owing n m -> owing n (emit e m)) /\
  (startable m -> startable (emit e m)).
Proof.
  apply (bounded_frame n m (emit e m) [Emit e]);
    [apply taskQueue_emit | apply children_emit | apply trace_emit | by repeat constructor].
Qed.

Lemma bounded_say n o m :
  isStart o = false ->
  (bounded n m -> bounded n (say o m)) /\ (owing n m -> owing n (say o m)) /\
  (startable m -> startable (say o m)).
Proof.
  intros Ho. apply (bounded_frame n m (say o m) [o]); try done. by repeat constructor.
Qed.

Lemma bounded_notify n m :
  (bounded n m -> bounded n (notify m)) /\ (startable m -> startable (notify m)).
Proof.
  unfold notify. destruct (awaiting _); [|done].
  destruct (bounded_emit n (AllTasksDone (getTasksMetaData m)) m) as (? & _ & ?). done.
Qed.

Lemma owing_perform n k i t e m :
  e <> DoCallback ->
  (owing n m -> owing n (perform k i t e m)) /\
  (startable m -> startable (perform k i t e m)).
Proof.
  intros He. destruct e; try done; cbn [perform];
    try (by destruct (bounded_say n (Log l msg) m eq_refl) as (_ & ? & ?));
    try (by destruct (bounded_say n (OnComplete i arg) m eq_refl) as (_ & ? & ?));
    try (by destruct (bounded_say n (OnTimeout i) m eq_refl) as (_ & ? & ?));
    try (by destruct (bounded_say n (Kill i) m eq_refl) as (_ & ? & ?)).
  destruct (bounded_frame n m (localComplete t m)
              [Log Info ("Done: " +:+ cmdName (cmd t));
               Emit (TaskDone (cmdName (cmd t)) (getMetadataBySlug (reg m) (tslug t)))])
    as (_ & ? & ?); try done.
  - apply taskQueue_localComplete.
  - apply children_localComplete.
  - apply trace_localComplete.
  - by repeat constructor.
Qed.

Lemma seq_snoc k : seq 0 (S k) = seq 0 k ++ [k].
Proof. by rewrite seq_S. Qed.

(** [pop] starts tasks in the order of the queue, one per free slot. *)
Lemma popLoop_bounded n fuel m :
  startable m -> bounded n m ->
  bounded n (popLoop fuel m) /\ startable (popLoop fuel m).
Proof.
  revert m. induction fuel as [|fuel IH]; intros m Hst Hb; [done|].
  cbn [popLoop].
  destruct (bool_decide (started (taskQueue m) < length (tasks (taskQueue m)))) eqn:Hlt;
    [|done].
  destruct (slotFree (taskQueue m)) eqn:Hfree; [|done]. cbn [andb].
  destruct (tasks (taskQueue m) !! started (taskQueue m)) as [t|] eqn:Ht; [|done].
  destruct Hst as [Hall Hidle].
  destruct Hb as (Hpar & Hout & Hlim & Hstarts & Htrace).
  pose proof (Forall_lookup_1 _ _ _ _ Hall Ht) as Hne.
  set (q1 := Queue _ _ _ _ _ _). set (i := started (taskQueue m)) in *.
  assert (exists c o,
            busy c = true /\ (forall k, c <> Invoked (S k)) /\ isStart o = true /\
            startOf (taskQueue m) o /\
            omap (fun o => match o with
                           | Exec i _ _ | CallFunction i => Some i
                           | _ => None
                           end) [o] = [i] /\
            children (startTask i t (setQueue q1 m)) = <[i := c]> (children m) /\
            taskQueue (startTask i t (setQueue q1 m)) = q1 /\
            trace (startTask i t (setQueue q1 m)) = trace m ++ [o])
    as (c & o & Hbusy & Hc & Ho & Hof & Homap & Hcs & Hq & Htr).
  { unfold startTask, nonEager in *. destruct (cmd t) as [text|name source [|]] eqn:Hcmd.
    - exists (Spawned EmptyString false), (Exec i text execTimeout).
      split_and!; try done. cbn [startOf]. by rewrite Ht; cbn; rewrite Hcmd.
    - done.
    - exists (Invoked 0), (CallFunction i).
      split_and!; try done. cbn [startOf]. exists name, source, false.
      by rewrite Ht; cbn; rewrite Hcmd. }
  apply IH.
  - unfold startable. rewrite Hq, Hcs. subst q1. qfields. split; [done|].
    apply idleFrom_insert; [lia | done].
  - unfold bounded. rewrite Hq. subst q1. qfields. split_and!.
    + done.
    + assert (outstanding (startTask i t (setQueue (Queue (parallelism (taskQueue m))
                 (tasks (taskQueue m)) (S i) (active (taskQueue m) + 1)
                 (remaining (taskQueue m)) (awaiting (taskQueue m))) m))
              <= S (outstanding m)); [|lia].
      unfold outstanding at 1. rewrite Hcs.
      apply (outstanding_insert_idle m i c). intros c0 Hc0. by apply (Hidle i).
    + destruct n as [|n']; [by left|]. right.
      unfold slotFree in Hfree. rewrite Hpar in Hfree.
      apply bool_decide_eq_true in Hfree. lia.
    + unfold starts. rewrite Htr, omap_app, Homap. fold (starts m).
      by rewrite Hstarts, seq_snoc.
    + rewrite Htr. apply Forall_app. split; [done|]. by repeat constructor.
Qed.

(** The [callback] that reports the end of a task. *)
Lemma callback_bounded n i m :
  startable m -> owing n m -> bounded n (callback i m).
Proof.
  intros Hst (Hpar & Hout & Hlim & Hstarts & Htrace). unfold callback.
  set (m1 := setQueue (released (taskQueue m)) m).
  assert (bounded n m1) as Hb1.
  { unfold bounded, outstanding in *. subst m1. qfields. split_and!; try done; [lia|].
    destruct Hlim as [?|?]; [by left | right; lia]. }
  assert (startable m1) as Hst1 by done.
  case_bool_decide.
  - by apply bounded_notify.
  - by apply popLoop_bounded.
Qed.

Lemma performAll_bounded n i t effs m :
  Forall (fun e => e <> DoCallback) effs ->
  startable m -> owing n m ->
  bounded n (performAll callback i t (effs ++ [DoCallback]) m).
Proof.
  revert m. induction effs as [|e effs IH]; intros m Hplain Hst Hb.
  - by apply callback_bounded.
  - apply Forall_cons in Hplain as [He Hplain].
    rewrite <- app_comm_cons, performAll_cons.
    destruct (owing_perform n callback i t e m He) as [Ho Hs]. apply IH; auto.
Qed.

Lemma tasks_popLoop fuel m :
  tasks (taskQueue (popLoop fuel m)) = tasks (taskQueue m).
Proof.
  revert m. induction fuel as [|fuel IH]; intros m; [done|]. cbn [popLoop].
  destruct (bool_decide _ && slotFree _); [|done].
  destruct (tasks (taskQueue m) !! started (taskQueue m)) as [t|]; [|done].
  rewrite IH, startTask_queue. by destruct (nonEager t).
Qed.

Lemma tasks_notify m : tasks (taskQueue (notify m)) = tasks (taskQueue m).
Proof. unfold notify. destruct (awaiting _); [by rewrite taskQueue_emit | done]. Qed.

Lemma tasks_callback i m : tasks (taskQueue (callback i m)) = tasks (taskQueue m).
Proof.
  unfold callback, pop. case_bool_decide; [by rewrite tasks_notify | by rewrite tasks_popLoop].
Qed.

Lemma tasks_performAll i t effs m :
  tasks (taskQueue (performAll callback i t effs m)) = tasks (taskQueue m).
Proof.
  revert m. induction effs as [|e effs IH]; intros m; [done|].
  rewrite performAll_cons, IH. destruct e; cbn [perform]; try done.
  - by rewrite taskQueue_localComplete.
  - apply tasks_callback.
Qed.

Lemma startOf_more q q' o :
  (exists more, tasks q' = tasks q ++ more) -> startOf q o -> startOf q' o.
Proof.
  intros [more Hq]. destruct o; try done; cbn [startOf]; rewrite Hq.
  - intros [Hlook ?]. split; [|done].
    destruct (tasks q !! i) as [t|] eqn:Ht; [|done].
    by rewrite (lookup_app_l_Some _ _ _ _ Ht).
  - intros (name & source & eager & Hlook). exists name, source, eager.
    destruct (tasks q !! i) as [t|] eqn:Ht; [|done].
    by rewrite (lookup_app_l_Some _ _ _ _ Ht).
Qed.

Lemma _runTask_bounded n t m :
  nonEager t = true -> startable m -> bounded n m ->
  startable (_runTask t m) /\ bounded n (_runTask t m) /\
  tasks (taskQueue (_runTask t m)) = tasks (taskQueue m) ++ [t].
Proof.
  intros Ht [Hall Hidle] (Hpar & Hout & Hlim & Hstarts & Htrace).
  unfold _runTask, queueDefer, pop.
  set (m1 := setQueue _ _).
  assert (startable m1) as Hst1.
  { subst m1. unfold startable. qfields. split.
    - apply Forall_app. split; [done|]. by constructor.
    - by apply idleFrom_snoc. }
  assert (bounded n m1) as Hb1.
  { subst m1. unfold bounded, outstanding, starts. qfields.
    rewrite List.filter_app, length_app, omap_app. cbn. rewrite !app_nil_r, Nat.add_0_r.
    split_and!; try done. apply Forall_app. split; [|by repeat constructor].
    eapply Forall_impl; [exact Htrace|]. intros o. apply startOf_more. by exists [t]. }
  generalize (length (tasks (taskQueue m1)) - started (taskQueue m1)). intros fuel.
  destruct (popLoop_bounded n fuel m1 Hst1 Hb1) as [Hb Hst].
  split; [done|]. split; [done|]. by rewrite tasks_popLoop.
Qed.

Lemma forEachNeeded_bounded n ts :
  forall index m,
    Forall (fun t => nonEager t = true) ts -> startable m -> bounded n m ->
    startable (forEachNeeded ts index m) /\ bounded n (forEachNeeded ts index m) /\
    tasks (taskQueue (forEachNeeded ts index m)) = tasks (taskQueue m) ++ ts.
Proof.
  induction ts as [|t ts IH]; intros index m Hall Hst Hb.
  - cbn [forEachNeeded]. by rewrite app_nil_r.
  - apply Forall_cons in Hall as [Ht Hall]. cbn [forEachNeeded].
    destruct (_runTask_bounded n t m Ht Hst Hb) as (Hst1 & Hb1 & Htasks1).
    set (m2 := if bool_decide _ then _ else _).
    assert (startable m2 /\ bounded n m2 /\
            tasks (taskQueue m2) = tasks (taskQueue m) ++ [t]) as (Hst2 & Hb2 & Htasks2).
    { subst m2. case_bool_decide; [|done].
      destruct (bounded_emit n (AllTasksRunning (getTasksMetaData (_runTask t m)))
                  (_runTask t m)) as (? & _ & ?).
      rewrite taskQueue_emit. auto. }
    destruct (IH (S index) m2 Hall Hst2 Hb2) as (? & ? & Htasks).
    split; [done|]. split; [done|]. by rewrite Htasks, Htasks2, <- app_assoc.
Qed.

Lemma runTasks_bounded n m :
  Forall (fun t => nonEager t = true) (neededTasks (reg m)) ->
  startable m -> bounded n m ->
  bounded n (runTasks m) /\
  tasks (taskQueue (runTasks m)) = tasks (taskQueue m) ++ neededTasks (reg m).
Proof.
  intros Hall Hst Hb. unfold runTasks.
  set (m1 := setListening m).
  set (m2 := emit (AllTasksReady (getTasksMetaData m1)) m1).
  assert (startable m2 /\ bounded n m2 /\ taskQueue m2 = taskQueue m /\ reg m2 = reg m)
    as (Hst2 & Hb2 & Hq2 & Hreg2).
  { subst m2. rewrite taskQueue_emit, reg_emit.
    destruct (bounded_emit n (AllTasksReady (getTasksMetaData m1)) m1) as (? & _ & ?).
    auto. }
  rewrite Hreg2. case_bool_decide as Hlen.
  - destruct (forEachNeeded_bounded n (neededTasks (reg m)) 0 m2 Hall Hst2 Hb2)
      as (Hst3 & Hb3 & Htasks3).
    unfold queueAwait. set (m3 := forEachNeeded _ _ _) in *.
    set (m4 := setQueue _ m3).
    assert (bounded n m4) as Hb4 by done.
    assert (tasks (taskQueue m4) = tasks (taskQueue m) ++ neededTasks (reg m)) as Htasks4.
    { subst m4. qfields. by rewrite Htasks3, Hq2. }
    case_bool_decide; [|done]. split; [by apply bounded_notify|]. by rewrite tasks_notify.
  - assert (neededTasks (reg m) = []) as ->.
    { destruct (neededTasks (reg m)); [done|]. simpl in Hlen. lia. }
    rewrite app_nil_r, !taskQueue_emit, Hq2. split; [|done].
    by apply bounded_emit, bounded_emit.
Qed.

(** One turn of an orderly run keeps the queue within its limit and the
    starts in order. *)
Lemma deliver_bounded r n s rest m :
  Forall (fun t => nonEager t = true) (neededTasks r) ->
  orderly (s :: rest) ->
  invariant r (s :: rest) m ->
  bounded n m /\ (tasks (taskQueue m) = [] \/ tasks (taskQueue m) = neededTasks r) ->
  bounded n (deliver s m) /\
  (tasks (taskQueue (deliver s m)) = [] \/ tasks (taskQueue (deliver s m)) = neededTasks r).
Proof.
  intros Hall [Hq Hnd] (Hreg & Hfresh & Hstage) [Hb Htasks].
  destruct s as [|i ev|i]; unfold deliver.
  - destruct Hstage as [(Hev & Hti & Hun)|[(Hev & Hti & Hun)|[Hrun|[Hdone|Hdone]]]].
    + rewrite Hti. unfold runDeferred. rewrite taskQueue_emit. split; [|done].
      by apply bounded_emit.
    + rewrite Hti. unfold runDeferred.
      destruct Hun as (Hcs & Hta & _ & Hst & _).
      destruct (runTasks_bounded n (setTimers [] m)) as [Hb' Htasks']; try done.
      { qfields. by rewrite Hreg. }
      { unfold startable. qfields. rewrite Hta, Hcs. split; [done|].
        intros j c ? Hlook. by rewrite lookup_nil in Hlook. }
      split; [done|]. right. rewrite Htasks'. qfields. by rewrite Hta, Hreg.
    + by destruct Hrun as ((_ & -> & _) & _).
    + destruct Hdone as (_ & -> & _). unfold runDeferred. rewrite taskQueue_emit.
      split; [|done]. apply bounded_emit.
      apply (bounded_say n (WritePrivateData _)); [done|].
      by apply (bounded_say n WritePublicData).
    + by destruct Hdone as (_ & -> & _).
  - destruct (children m !! i) as [[|stdout exited|k]|] eqn:Hc; try done.
    destruct (tasks (taskQueue m) !! i) as [t|] eqn:Ht; [|done].
    apply Forall_cons in Hq as [Hev _].
    destruct ev as [data|data|code]; [|done|].
    + cbn [childStep onStdoutData]. rewrite performAll_cons, performAll_nil. cbn [perform].
      split; [|done]. apply (bounded_say n (Log Verbose data)); [done|].
      destruct Hb as (Hpar & Hout & Hlim & Hstarts & Htrace).
      unfold bounded. rewrite outstanding_insert_same; [done|].
      intros c Hc'. rewrite Hc in Hc'. by injection Hc' as <-.
    + destruct exited; [done|]. cbn [childStep snd]. rewrite tasks_performAll.
      split; [|done].
      destruct (onExit_shape stdout code) as (effs & -> & Hplain).
      destruct Hstage as [(_ & _ & Hnil & _)|[(_ & _ & Hnil & _)|[Hrun|[Hdone|Hdone]]]];
        try (by rewrite Hnil in Hc);
        try (destruct Hdone as (_ & _ & Hset);
             by pose proof (Forall_lookup_1 _ _ _ _ Hset Hc)).
      destruct Hrun as ((_ & _ & _ & _ & Hne & Hidle) & _).
      apply performAll_bounded; [done| |].
      * split; [done|]. qfields. by eapply idleFrom_update.
      * destruct Hb as (Hpar & Hout & Hlim & Hstarts & Htrace). unfold owing.
        pose proof (outstanding_insert_done m i _ (Spawned stdout true) Hc eq_refl eq_refl).
        split_and!; try done. cbn [taskQueue setChildren] in *. lia.
  - destruct (children m !! i) as [[|stdout exited|k]|] eqn:Hc; try done.
    destruct (tasks (taskQueue m) !! i) as [t|] eqn:Ht; [|done].
    assert (k = 0) as -> by (apply (Hfresh i); [by left | done]).
    rewrite tasks_performAll. split; [|done].
    destruct Hstage as [(_ & _ & Hnil & _)|[(_ & _ & Hnil & _)|[Hrun|[Hdone|Hdone]]]];
      try (by rewrite Hnil in Hc);
      try (destruct Hdone as (_ & _ & Hset);
           by pose proof (Forall_lookup_1 _ _ _ _ Hset Hc)).
    destruct Hrun as ((_ & _ & _ & _ & Hne & Hidle) & _).
    change continuation with ([DoOnComplete None; DoLocalComplete] ++ [DoCallback]).
    apply performAll_bounded; [by repeat constructor| |].
    + split; [done|]. qfields. by eapply idleFrom_update.
    + destruct Hb as (Hpar & Hout & Hlim & Hstarts & Htrace). unfold owing.
      pose proof (outstanding_insert_done m i _ (Invoked 1) Hc eq_refl eq_refl).
      split_and!; try done. cbn [taskQueue setChildren] in *. lia.
Qed.

Lemma run_bounded r n script m :
  Forall (fun t => nonEager t = true) (neededTasks r) ->
  orderly script -> invariant r script m ->
  bounded n m /\ (tasks (taskQueue m) = [] \/ tasks (taskQueue m) = neededTasks r) ->
  bounded n (run m script) /\
  (tasks (taskQueue (run m script)) = [] \/
   tasks (taskQueue (run m script)) = neededTasks r).
Proof.
  intros Hall. revert m. induction script as [|s rest IH]; intros m Hord Hinv Hb; [done|].
  unfold run. cbn [foldl]. apply IH.
  - by eapply orderly_tail.
  - by apply deliver_invariant.
  - by eapply deliver_bounded.
Qed.

(** Without writes to [stderr] (and without eager functions or repeated
    continuations), a queue of limit [n >= 1] never has more than [n]
    tasks running, and the tasks are started in the order of their
    registration: the [k]-th start is that of the [k]-th needed task. *)
Theorem orderly_run_within_limit r n script :
  Forall (fun t => nonEager t = true) (neededTasks r) ->
  orderly script ->
  (n = 0 \/ outstanding (run (newManager r n) script) <= n) /\
  starts (run (newManager r n) script) =
    seq 0 (started (taskQueue (run (newManager r n) script))) /\
  (forall i text timeout,
      Exec i text timeout ∈ trace (run (newManager r n) script) ->
      cmd <$> neededTasks r !! i = Some (CmdString text)).
Proof.
  intros Hall Hord.
  destruct (run_bounded r n script (newManager r n) Hall Hord (newManager_invariant r n script))
    as [(Hpar & Hout & Hlim & Hstarts & Htrace) Htasks].
  { split; [|by left]. unfold bounded, newManager, outstanding, starts. cbn.
    split_and!; try done. destruct n; [by left | right; lia]. }
  split; [destruct Hlim as [?|?]; [by left | right; lia]|]. split; [done|].
  intros i text timeout Hin.
  pose proof (proj1 (Forall_forall _ _) Htrace _ Hin) as [Hlook _].
  destruct Htasks as [Hnil|Heq]; [by rewrite Hnil in Hlook | by rewrite <- Heq].
Qed.

End BoundFacts.


(** ** The order of the starts, in every run *)

Section StartOrderFacts.

Ltac qfields :=
  cbn [reg taskQueue children timers listening tasksRun trace say setQueue setChildren
       setTimers setListening bumpTasksRun defer tasks started active remaining awaiting
       parallelism released].

(** A step that starts nothing, keeps the tasks and the count of the
    started ones, and does not raise [active]. *)
Lemma accounted_frame n m m' extra :
  tasks (taskQueue m') = tasks (taskQueue m) ->
  started (taskQueue m') = started (taskQueue m) ->
  parallelism (taskQueue m') = parallelism (taskQueue m) ->
  (active (taskQueue m') <= active (taskQueue m))%Z ->
  trace m' = trace m ++ extra -> Forall (fun o => isStart o = false) extra ->
  accounted n m -> accounted n m'.
Proof.
  intros Htasks Hst Hpar Hact Htr Hextra (Hn & Hlim & Hstarts & Htrace).
  unfold accounted. rewrite Hpar, Hst, (starts_app m m' extra Htr Hextra).
  split_and!; try done.
  - destruct Hlim as [?|?]; [by left | right; lia].
  - eapply Forall_impl; [exact (startOf_app _ m m' extra Htr Hextra Htrace)|].
    intros o. apply startOf_more. exists []. by rewrite app_nil_r.
Qed.

Lemma accounted_emit n e m : accounted n m -> accounted n (emit e m).
Proof.
  apply (accounted_frame n m (emit e m) [Emit e]);
    rewrite ?taskQueue_emit; try done; [apply trace_emit | by repeat constructor].
Qed.

Lemma accounted_say n o m : isStart o = false -> accounted n m -> accounted n (say o m).
Proof.
  intros Ho. apply (accounted_frame n m (say o m) [o]); try done. by repeat constructor.
Qed.

Lemma accounted_notify n m : accounted n m -> accounted n (notify m).
Proof. unfold notify. destruct (awaiting _); [apply accounted_emit | done]. Qed.

Lemma accounted_released n m :
  accounted n m -> accounted n (setQueue (released (taskQueue m)) m).
Proof.
  apply (accounted_frame n m _ []); qfields; try done; [lia | by rewrite app_nil_r].
Qed.

Lemma accounted_callbackInPop n i m : accounted n m -> accounted n (callbackInPop i m).
Proof.
  intros Hacc. unfold callbackInPop. apply (accounted_released n) in Hacc.
  case_bool_decide; [by apply accounted_notify | done].
Qed.

Lemma accounted_performAll n k i t effs m :
  (forall j m0, accounted n m0 -> accounted n (k j m0)) ->
  accounted n m -> accounted n (performAll k i t effs m).
Proof.
  intros Hk. revert m. induction effs as [|e effs IH]; intros m Hacc; [done|].
  rewrite performAll_cons. apply IH. destruct e; cbn [perform]; auto;
    try (by apply accounted_say).
  unfold localComplete. by apply accounted_emit, accounted_say.
Qed.

(** One iteration of [pop]: the task started is the next of the queue. *)
Lemma accounted_start n m t :
  accounted n m -> slotFree (taskQueue m) = true ->
  tasks (taskQueue m) !! started (taskQueue m) = Some t ->
  accounted n
    (startTask (started (taskQueue m)) t
       (setQueue (Queue (parallelism (taskQueue m)) (tasks (taskQueue m))
                        (S (started (taskQueue m))) (active (taskQueue m) + 1)
                        (remaining (taskQueue m)) (awaiting (taskQueue m))) m)).
Proof.
  intros (Hn & Hlim & Hstarts & Htrace) Hfree Ht.
  set (i := started (taskQueue m)) in *. set (q1 := Queue _ _ _ _ _ _).
  assert (forall o, isStart o = true -> startOf q1 o ->
            omap (fun o => match o with
                           | Exec i _ _ | CallFunction i => Some i
                           | _ => None
                           end) [o] = [i] ->
            accounted n (say o (setQueue q1 m))) as Hsay.
  { intros o Ho Hof Homap. unfold accounted, starts. subst q1. qfields.
    rewrite omap_app, Homap. fold (starts m). rewrite Hstarts, seq_snoc.
    split_and!; try done.
    - destruct n as [|n']; [by left|]. right.
      unfold slotFree in Hfree. rewrite Hn in Hfree.
      apply bool_decide_eq_true in Hfree. lia.
    - apply Forall_app. split; [|by repeat constructor].
      eapply Forall_impl; [exact Htrace|]. intros o'. apply startOf_more.
      exists []. by rewrite app_nil_r. }
  unfold startTask. destruct (cmd t) as [text|name source eager] eqn:Hcmd.
  - apply (accounted_frame n (say (Exec i text execTimeout) (setQueue q1 m)) _ []);
      try done; [by rewrite app_nil_r|].
    apply Hsay; try done. cbn [startOf]. subst q1. qfields. by rewrite Ht; cbn; rewrite Hcmd.
  - assert (accounted n (say (CallFunction i) (setQueue q1 m))) as Hcall.
    { apply Hsay; try done. cbn [startOf]. subst q1. qfields.
      exists name, source, eager. by rewrite Ht; cbn; rewrite Hcmd. }
    destruct eager.
    + apply accounted_performAll; [apply accounted_callbackInPop|].
      by apply (accounted_frame n (say (CallFunction i) (setQueue q1 m)) _ []);
        rewrite ?app_nil_r.
    + by apply (accounted_frame n (say (CallFunction i) (setQueue q1 m)) _ []);
        rewrite ?app_nil_r.
Qed.

Lemma accounted_popLoop n fuel m : accounted n m -> accounted n (popLoop fuel m).
Proof.
  revert m. induction fuel as [|fuel IH]; intros m Hacc; [done|]. cbn [popLoop].
  destruct (bool_decide _); [|done]. destruct (slotFree _) eqn:Hfree; [|done]. cbn [andb].
  destruct (tasks (taskQueue m) !! started (taskQueue m)) as [t|] eqn:Ht; [|done].
  by apply IH, accounted_start.
Qed.

Lemma accounted_callback n i m : accounted n m -> accounted n (callback i m).
Proof.
  intros Hacc. unfold callback, pop. apply (accounted_released n) in Hacc.
  case_bool_decide; [by apply accounted_notify | by apply accounted_popLoop].
Qed.

Lemma accounted__runTask n t m : accounted n m -> accounted n (_runTask t m).
Proof.
  intros Hacc. unfold _runTask, queueDefer, pop. apply accounted_popLoop.
  apply (accounted_say n (Log Info ("Starting: " +:+ cmdName (cmd t)))) in Hacc; [|done].
  destruct Hacc as (Hn & Hlim & Hstarts & Htrace). unfold accounted. qfields.
  split_and!; try done.
  eapply Forall_impl; [exact Htrace|]. intros o. apply startOf_more. by exists [t].
Qed.

Lemma accounted_forEachNeeded n ts index m :
  accounted n m -> accounted n (forEachNeeded ts index m).
Proof.
  revert index m. induction ts as [|t ts IH]; intros index m Hacc; [done|].
  cbn [forEachNeeded]. apply IH.
  case_bool_decide; [apply accounted_emit|]; by apply accounted__runTask.
Qed.

Lemma accounted_runTasks n m : accounted n m -> accounted n (runTasks m).
Proof.
  intros Hacc. unfold runTasks.
  assert (accounted n (emit (AllTasksReady (getTasksMetaData (setListening m)))
                            (setListening m))) as Hacc2 by (by apply accounted_emit).
  case_bool_decide.
  - unfold queueAwait.
    apply (accounted_forEachNeeded n (neededTasks
             (reg (emit (AllTasksReady (getTasksMetaData (setListening m))) (setListening m))))
             0) in Hacc2.
    set (m3 := forEachNeeded _ _ _) in *.
    assert (accounted n (setQueue (Queue (parallelism (taskQueue m3)) (tasks (taskQueue m3))
              (started (taskQueue m3)) (active (taskQueue m3)) (remaining (taskQueue m3))
              true) m3)) as Hacc4 by done.
    case_bool_decide; [by apply accounted_notify | done].
  - by apply accounted_emit, accounted_emit.
Qed.

Lemma accounted_deliver n s m : accounted n m -> accounted n (deliver s m).
Proof.
  intros Hacc. destruct s as [|i ev|i]; unfold deliver.
  - destruct (timers m) as [|d ds]; [done|].
    assert (accounted n (setTimers ds m)) as Hacc' by done.
    destruct d; unfold runDeferred.
    + by apply accounted_emit.
    + by apply accounted_runTasks.
    + apply accounted_emit, (accounted_say n (WritePrivateData _)); [done|].
      by apply (accounted_say n WritePublicData).
  - destruct (children m !! i) as [[|stdout exited|k]|]; try done.
    destruct (tasks (taskQueue m) !! i) as [t|]; [|done].
    destruct ev as [data|data|code]; [| |destruct exited; [done|]];
      cbn [childStep onStdoutData snd];
      by apply accounted_performAll; [intros; apply accounted_callback|].
  - destruct (children m !! i) as [[|stdout exited|k]|]; try done.
    destruct (tasks (taskQueue m) !! i) as [t|]; [|done].
    by apply accounted_performAll; [intros; apply accounted_callback|].
Qed.

Lemma tasks_forEachNeeded ts index m :
  tasks (taskQueue (forEachNeeded ts index m)) = tasks (taskQueue m) ++ ts.
Proof.
  revert index m. induction ts as [|t ts IH]; intros index m.
  - cbn [forEachNeeded]. by rewrite app_nil_r.
  - cbn [forEachNeeded]. rewrite IH.
    assert (tasks (taskQueue (_runTask t m)) = tasks (taskQueue m) ++ [t]) as Ht.
    { unfold _runTask, queueDefer, pop. by rewrite tasks_popLoop. }
    case_bool_decide; rewrite ?taskQueue_emit, Ht; by rewrite <- app_assoc.
Qed.

(** [runTasks] hands the needed tasks to the queue in the order of their
    registration. *)
Lemma runTasks_hands_over m :
  tasks (taskQueue (runTasks m)) = tasks (taskQueue m) ++ neededTasks (reg m).
Proof.
  unfold runTasks. rewrite reg_emit. cbn [reg setListening].
  case_bool_decide as Hlen.
  - unfold queueAwait. case_bool_decide; rewrite ?tasks_notify; qfields;
      by rewrite tasks_forEachNeeded, taskQueue_emit.
  - destruct (neededTasks (reg m)); [|simpl in Hlen; lia].
    by rewrite !taskQueue_emit, app_nil_r.
Qed.

(** In every run, whatever the children and the functions do, the tasks
    are started in the order in which the queue holds them: the [k]-th
    start is that of its [k]-th task; and the counter [active] of the queue
    stays within the limit. *)
Theorem starts_follow_the_queue r n script :
  starts (run (newManager r n) script) =
    seq 0 (started (taskQueue (run (newManager r n) script))) /\
  Forall (startOf (taskQueue (run (newManager r n) script)))
         (trace (run (newManager r n) script)) /\
  (n = 0 \/ (active (taskQueue (run (newManager r n) script)) <= Z.of_nat n)%Z).
Proof.
  assert (accounted n (run (newManager r n) script)) as (_ & ? & ? & ?); [|done].
  assert (accounted n (newManager r n)) as Hnew.
  { unfold accounted, newManager, starts. cbn. split_and!; try done.
    destruct n; [by left | right; lia]. }
  revert Hnew. generalize (newManager r n).
  induction script as [|s script IH]; intros m Hacc; [done|].
  unfold run. cbn [foldl]. by apply IH, accounted_deliver.
Qed.

End StartOrderFacts.

(** ** The scan *)

Section ScanFacts.

Context `{Platform}.

Lemma length_append (a b : string) :
  String.length (a +:+ b) = String.length a + String.length b.
Proof. induction a as [|x a IH]; [done|]. rewrite append_cons. simpl. by rewrite IH. Qed.

Lemma truthy_append_r (a b : string) : truthy b = true -> truthy (a +:+ b) = true.
Proof. by destruct a, b. Qed.

Lemma portionState_noslash b prev cur :
  allChars (fun c => negb (isSlash c)) b = true ->
  portionState prev cur b = (prev, cur +:+ b).
Proof.
  revert cur. induction b as [|x b IH]; intros cur Hb; simpl in *.
  - by rewrite append_empty_r.
  - apply andb_true_iff in Hb as [Hx Hb]. apply negb_true_iff in Hx. rewrite Hx.
    rewrite IH by done. by rewrite append_assoc.
Qed.

Lemma portionState_app a b prev cur :
  portionState prev cur (a +:+ b) =
    portionState (fst (portionState prev cur a)) (snd (portionState prev cur a)) b.
Proof.
  revert prev cur. induction a as [|x a IH]; intros prev cur; [done|].
  rewrite append_cons. simpl. destruct (isSlash x); apply IH.
Qed.

(** The component [path.basename] and [path.extname] look at, for a
    path that continues its last component with [x]. *)
Lemma lastPortion_continue p x :
  allChars (fun c => negb (isSlash c)) x = true -> truthy x = true ->
  lastPortion (p +:+ x) = snd (portionState EmptyString EmptyString p) +:+ x.
Proof.
  intros Hx Hne. unfold lastPortion.
  rewrite portionState_app, portionState_noslash by done.
  cbn [fst snd]. by rewrite truthy_append_r.
Qed.

Lemma lastDot_none e : allChars (fun c => negb (isDot c)) e = true -> lastDot e = None.
Proof.
  induction e as [|x e IH]; [done|]. simpl. intros He.
  apply andb_true_iff in He as [Hx He]. apply negb_true_iff in Hx.
  by rewrite IH, Hx.
Qed.

Lemma lastDot_stem c e :
  lastDot e = None -> lastDot (c +:+ String "046"%char e) = Some (String.length c).
Proof.
  intros He. induction c as [|x c IH].
  - rewrite append_empty_l. simpl. by rewrite He.
  - rewrite append_cons. simpl. by rewrite IH.
Qed.

Lemma dropString_append c y : dropString (String.length c) (c +:+ y) = y.
Proof. induction c as [|x c IH]; [by destruct y|]. by rewrite append_cons. Qed.

Lemma takeString_append c y : takeString (String.length c) (c +:+ y) = c.
Proof.
  induction c as [|x c IH]; [by destruct y|]. rewrite append_cons. simpl. by rewrite IH.
Qed.

Lemma eqb_length_ne (a b : string) :
  String.length a <> String.length b -> String.eqb a b = false.
Proof. intros Hne. apply String.eqb_neq. intros ->. done. Qed.

(** [extname] and [basename] on [p.e], when the last component of [p]
    is being read (it is not empty) and [e] is a plain extension. *)
Lemma stem_and_extension p e :
  let c := snd (portionState EmptyString EmptyString p) in
  truthy c = true -> truthy e = true ->
  allChars (fun x => negb (isSlash x) && negb (isDot x)) e = true ->
  extname (p +:+ String "046"%char e) = String "046"%char e /\
  basename (p +:+ String "046"%char e) (String "046"%char e) = c.
Proof.
  intros c Hc He Hplain.
  assert (allChars (fun x => negb (isSlash x)) (String "046"%char e) = true) as Hns.
  { simpl. clear -Hplain. induction e as [|x e IH]; [done|]. simpl in *.
    apply andb_true_iff in Hplain as [Hx Hplain]. apply andb_true_iff in Hx as [-> _].
    by apply IH. }
  assert (lastDot e = None) as Hnd.
  { apply lastDot_none. clear -Hplain. induction e as [|x e IH]; [done|]. simpl in *.
    apply andb_true_iff in Hplain as [Hx Hplain]. apply andb_true_iff in Hx as [_ ->].
    by apply IH. }
  assert (0 < String.length c) as Hlc by (destruct c; [done | simpl; lia]).
  assert (0 < String.length e) as Hle by (destruct e; [done | simpl; lia]).
  assert (lastPortion (p +:+ String "046"%char e) = c +:+ String "046"%char e) as Hb.
  { by apply lastPortion_continue. }
  split.
  - unfold extname. rewrite Hb, (lastDot_stem c e Hnd).
    destruct (String.length c) as [|k] eqn:Hk; [lia|].
    rewrite eqb_length_ne.
    + by rewrite <- Hk, dropString_append.
    + rewrite length_append. simpl. lia.
  - unfold basename. rewrite Hb. cbn [truthy andb].
    rewrite (eqb_length_ne (String "046"%char e)).
    2:{ rewrite length_append. simpl.
        assert (0 < String.length p); [|lia].
        destruct p; [done | simpl; lia]. }
    assert (endsWith (c +:+ String "046"%char e) (String "046"%char e) = true) as ->.
    { unfold endsWith. rewrite length_append. apply andb_true_iff. split.
      - apply Nat.leb_le. lia.
      - replace (String.length c + String.length (String "046"%char e)
                 - String.length (String "046"%char e)) with (String.length c) by lia.
        rewrite dropString_append. apply String.eqb_refl. }
    rewrite (eqb_length_ne (c +:+ String "046"%char e)).
    2:{ rewrite length_append. lia. }
    cbn [negb andb]. rewrite length_append.
    replace (String.length c + String.length (String "046"%char e)
             - String.length (String "046"%char e)) with (String.length c) by lia.
    apply takeString_append.
Qed.





(** The slugs of the records are those of the scan, in its order. *)
Lemma construct_slugs listing folder exts force ledger existing :
  pslug <$> sourcePrivateData (construct listing folder exts force ledger existing) =
    (fun f => slug (scannedPublic f)) <$> getFilesInFolder listing folder exts /\
  slug <$> sourcePublicData (construct listing folder exts force ledger existing) =
    (fun f => slug (scannedPublic f)) <$> getFilesInFolder listing folder exts.
Proof.
  unfold construct. cbn [sourcePrivateData sourcePublicData].
  generalize (getFilesInFolder listing folder exts). intros files.
  split; induction files as [|f files IH]; try done;
    cbn [List.map]; rewrite !fmap_cons; cbn [pslug slug]; by f_equal.
Qed.



End ScanFacts.


(** ** The command template *)

Section CommandFacts.




(** The command for a 180 pixel rendition of a PNG with two known
    filters and an unknown one, and for a JPEG without filters. *)
Example generateCovertCmd_png :
  generateCovertCmd availableFilters "/i/a.png" "/o/a-180.png" "png" 180 80
                    ["bw"; "sepia"; "strip"] =
    "convert " +:+ dquote +:+ "/i/a.png" +:+ dquote
      +:+ " -quality 80 -colorspace Gray -strip -thumbnail 180x  png:- | pngquant --skip-if-larger - > "
      +:+ dquote +:+ "/o/a-180.png" +:+ dquote.
Proof. by vm_compute. Qed.

Example generateCovertCmd_jpg :
  generateCovertCmd availableFilters "/i/a.jpg" "/o/a-180.jpg" "jpg" 180 80 [] =
    "convert " +:+ dquote +:+ "/i/a.jpg" +:+ dquote
      +:+ " -quality 80  -thumbnail 180x " +:+ dquote +:+ "/o/a-180.jpg" +:+ dquote.
Proof. by vm_compute. Qed.

End CommandFacts.

Section MoreRegistrationFacts.

Context `{Platform}.

Lemma ledgerEntry_insert r s entry s' sig' :
  ledgerEntry (setPrivateData r (<[s := entry]> (privateData r))) s' sig' =
    if decide (s' = s) then entry !! sig' else ledgerEntry r s' sig'.
Proof.
  unfold ledgerEntry. cbn [privateData setPrivateData].
  destruct (decide (s' = s)) as [->|Hne].
  - by rewrite lookup_insert_eq.
  - by rewrite lookup_insert_ne.
Qed.

(** The ledger after [addTask], whatever the outcome. *)
Lemma addTask_ledger r c s out :
  privateData (stateAfter (addTask r c s out)) = privateData r \/
  (privateData r !! s = None /\
   privateData (stateAfter (addTask r c s out)) = <[s := ∅]> (privateData r)) \/
  (exists mp, getPrivateDataBySlug r s = Some mp /\
     addTask r c s out =
       Returned (pushAll (pushNeeded (setPrivateData r
          (<[s := <[cmdLog c := srcFileHash mp]> (default ∅ (privateData r !! s))]>
             (privateData r))) (Task c s (getMetadataBySlug r s))) c)).
Proof.
  unfold addTask. destruct (runTaskFlag r c s out) as [[|]|]; [| by left | by left].
  destruct (getPrivateDataBySlug r s) as [mp|] eqn:Hmp.
  - right. right. exists mp. split; [done|].
    destruct (privateData r !! s) eqn:Hs; cbn; [done|].
    do 2 f_equal. unfold pushNeeded, setPrivateData. cbn. f_equal.
    by rewrite insert_insert_eq.
  - destruct (privateData r !! s); [by left | right; left; done].
Qed.

Lemma addTask_frame r c s out s' sig' :
  (s', sig') <> (s, cmdLog c) ->
  ledgerEntry (stateAfter (addTask r c s out)) s' sig' = ledgerEntry r s' sig'.
Proof.
  intros Hne.
  destruct (addTask_ledger r c s out) as [Heq|[[Hnone Heq]|(mp & Hmp & Heq)]].
  - unfold ledgerEntry. by rewrite Heq.
  - unfold ledgerEntry. rewrite Heq.
    destruct (decide (s' = s)) as [->|Hs].
    + by rewrite lookup_insert_eq, Hnone.
    + by rewrite lookup_insert_ne.
  - rewrite Heq. cbn [stateAfter].
    change (ledgerEntry (pushAll (pushNeeded ?r0 ?t) ?c0) s' sig')
      with (ledgerEntry r0 s' sig').
    rewrite ledgerEntry_insert. destruct (decide (s' = s)) as [->|Hs]; [|done].
    rewrite lookup_insert_ne by congruence.
    unfold ledgerEntry. by destruct (privateData r !! s).
Qed.

Lemma addTask_sources r c s out :
  sourcePublicData (stateAfter (addTask r c s out)) = sourcePublicData r /\
  sourcePrivateData (stateAfter (addTask r c s out)) = sourcePrivateData r /\
  disk (stateAfter (addTask r c s out)) = disk r /\
  forceTask (stateAfter (addTask r c s out)) = forceTask r.
Proof.
  unfold addTask. destruct (runTaskFlag r c s out) as [[|]|]; try done.
  destruct (getPrivateDataBySlug r s), (privateData r !! s); done.
Qed.

(** [addTask] writes one record at most and touches nothing else: every
    other record of the ledger is as before, no record is ever removed
    (also not those of commands or files that no longer exist), and the
    records of the scan, the force flag and the file system are not
    changed.  This holds whether the call returns or throws. *)
Theorem addTask_keeps_the_other_records r c s out :
  (forall s' sig', (s', sig') <> (s, cmdLog c) ->
     ledgerEntry (stateAfter (addTask r c s out)) s' sig' = ledgerEntry r s' sig') /\
  (forall s' sig', is_Some (ledgerEntry r s' sig') ->
     is_Some (ledgerEntry (stateAfter (addTask r c s out)) s' sig')) /\
  sourcePublicData (stateAfter (addTask r c s out)) = sourcePublicData r /\
  sourcePrivateData (stateAfter (addTask r c s out)) = sourcePrivateData r /\
  disk (stateAfter (addTask r c s out)) = disk r /\
  forceTask (stateAfter (addTask r c s out)) = forceTask r.
Proof.
  split; [intros s' sig'; apply addTask_frame|]. split; [|apply addTask_sources].
  intros s' sig' Hsome.
  destruct (decide ((s', sig') = (s, cmdLog c))) as [[= -> ->]|Hne].
  - destruct (addTask_ledger r c s out) as [Heq|[[Hnone Heq]|(mp & Hmp & Heq)]].
    + unfold ledgerEntry. by rewrite Heq.
    + unfold ledgerEntry in Hsome. rewrite Hnone in Hsome. by destruct Hsome.
    + rewrite Heq. cbn [stateAfter].
      change (ledgerEntry (pushAll (pushNeeded ?r0 ?t) ?c0) s (cmdLog c))
        with (ledgerEntry r0 s (cmdLog c)).
      rewrite ledgerEntry_insert, decide_True by done.
      rewrite lookup_insert_eq. by eexists.
  - by rewrite addTask_frame.
Qed.


(** A call that returned has the current fingerprint on record for its
    pair, whether it queued a task or not. *)
Lemma addTask_recorded r c s out r' mp :
  getPrivateDataBySlug r s = Some mp ->
  addTask r c s out = Returned r' ->
  ledgerEntry r' s (cmdLog c) = Some (srcFileHash mp).
Proof.
  intros Hmp Hadd.
  destruct (addTask_returned _ _ _ _ _ Hadd)
    as [_ [(Hflag & _ & Hpd)|(_ & mp' & Hmp' & _ & He)]].
  - rewrite (runTaskFlag_known _ _ _ _ _ Hmp) in Hflag. injection Hflag as Hflag.
    apply orb_false_iff in Hflag as [Hflag _]. apply orb_false_iff in Hflag as [Hflag _].
    unfold ledgerEntry in *. rewrite Hpd.
    destruct (privateData r !! s ≫= _) as [recorded|]; [|done].
    apply orb_false_iff in Hflag as [_ Hflag]. apply negb_false_iff in Hflag.
    apply bool_decide_eq_true in Hflag. by subst.
  - rewrite Hmp in Hmp'. by injection Hmp' as <-.
Qed.

Lemma lookups_after r c s out s' :
  getPrivateDataBySlug (stateAfter (addTask r c s out)) s' = getPrivateDataBySlug r s' /\
  getMetadataBySlug (stateAfter (addTask r c s out)) s' = getMetadataBySlug r s'.
Proof.
  unfold getPrivateDataBySlug, getMetadataBySlug.
  destruct (addTask_sources r c s out) as (-> & -> & _). done.
Qed.

(** Registering the same command for the same item twice in a row: the
    second call finds the fingerprint the first one left or found, so it
    queues the command again exactly when the output file is absent, or
    [forceTask] is set, or the fingerprint is the empty string.  The
    ledger is the same after both. *)
Theorem registering_again r c s out mp :
  getPrivateDataBySlug r s = Some mp ->
  exists r' r'',
    addTask r c s out = Returned r' /\
    addTask r' c s out = Returned r'' /\
    allTasks r'' = allTasks r ++ [c; c] /\
    privateData r'' = privateData r' /\
    neededTasks r'' =
      neededTasks r' ++
      (if negb (truthy (srcFileHash mp)) || negb (bool_decide (out ∈ disk r)) || forceTask r
       then [Task c s (getMetadataBySlug r s)] else []).
Proof.
  intros Hmp. destruct (addTask_known r c s out mp Hmp) as [r' Hadd]. exists r'.
  pose proof (lookups_after r c s out s) as [Hpriv Hpub].
  pose proof (addTask_sources r c s out) as (_ & _ & Hdisk & Hforce).
  rewrite Hadd in Hpriv, Hpub, Hdisk, Hforce. cbn [stateAfter] in *.
  rewrite Hmp in Hpriv.
  destruct (addTask_known r' c s out mp Hpriv) as [r'' Hadd']. exists r''.
  split; [done|]. split; [done|].
  pose proof (addTask_recorded r c s out r' mp Hmp Hadd) as Hrec.
  destruct (addTask_returned _ _ _ _ _ Hadd) as [Hall _].
  destruct (addTask_returned _ _ _ _ _ Hadd') as [Hall' Hcases].
  split; [by rewrite Hall', Hall, <- app_assoc|].
  rewrite (runTaskFlag_known _ _ _ _ _ Hpriv), Hrec, Hdisk, Hforce in Hcases.
  rewrite bool_decide_eq_true_2, orb_false_r in Hcases by done.
  destruct Hcases as [([= Hflag] & Hn & Hpd)|([= Hflag] & mp' & _ & Hn & _)].
  - rewrite Hflag, Hn, app_nil_r. done.
  - rewrite Hflag, Hn, Hpub. split; [|done].
    destruct (addTask_ledger r' c s out) as [Heq|[[Hnone Heq]|(mp'' & Hmp'' & Heq)]];
      rewrite Hadd' in *; cbn [stateAfter] in *; try done.
    + unfold ledgerEntry in Hrec. by rewrite Hnone in Hrec.
    + injection Heq as ->. cbn [privateData pushAll pushNeeded setPrivateData].
      rewrite Hpriv in Hmp''. injection Hmp'' as <-.
      unfold ledgerEntry in Hrec.
      destruct (privateData r' !! s) as [entry|] eqn:Hentry; [|done].
      cbn in Hrec. cbn [default]. by rewrite (insert_id entry), insert_id.
Qed.

Lemma addTask_threw r c s out r' :
  addTask r c s out = Threw r' ->
  getPrivateDataBySlug r s = None /\
  privateData r' = match privateData r !! s with
                   | None => <[s := ∅]> (privateData r)
                   | Some _ => privateData r
                   end /\
  allTasks r' = allTasks r /\ neededTasks r' = neededTasks r.
Proof.
  intros Hadd.
  destruct (getPrivateDataBySlug r s) as [mp|] eqn:Hmp.
  { destruct (addTask_known r c s out mp Hmp) as [? ?]. congruence. }
  split; [done|]. unfold addTask in Hadd. rewrite Hmp in Hadd.
  destruct (runTaskFlag r c s out) as [[|]|] eqn:Hflag; try done.
  - destruct (privateData r !! s); by injection Hadd as <-.
  - injection Hadd as <-. unfold runTaskFlag, firstTest in Hflag.
    destruct (privateData r !! s); [done|]. done.
Qed.


Lemma registered_cons r c s out calls :
  registered r ((c, s, out) :: calls) =
    match addTask r c s out with
    | Returned r' => registered r' calls
    | Threw r' => r'
    end.
Proof. unfold registered. cbn [registerAll]. by destruct (addTask r c s out). Qed.

(** What holds of the two lists of tasks at any point of a registration. *)
Lemma registered_lists r calls :
  let r' := registered r calls in
  sourcePublicData r' = sourcePublicData r /\
  sourcePrivateData r' = sourcePrivateData r /\
  exists requested needed,
    allTasks r' = allTasks r ++ requested /\
    neededTasks r' = neededTasks r ++ needed /\
    (cmd <$> needed) `sublist_of` requested /\
    length requested <= length calls /\
    Forall (fun t => media t = getMetadataBySlug r (tslug t) /\
                     is_Some (getPrivateDataBySlug r (tslug t))) needed.
Proof.
  revert r. induction calls as [|[[c s] out] calls IH]; intros r; cbn zeta.
  - split; [done|]. split; [done|]. exists [], []. rewrite !app_nil_r.
    split_and!; try done.
  - rewrite registered_cons.
    pose proof (addTask_sources r c s out) as (Hpub & Hpriv & _).
    destruct (addTask r c s out) as [r1|r1] eqn:Hadd; cbn [stateAfter] in *.
    + destruct (IH r1) as (Hpub1 & Hpriv1 & requested & needed & Hall & Hneeded & Hsub & Hlen & Hfor).
      split; [congruence|]. split; [congruence|].
      assert (forall t, media t = getMetadataBySlug r1 (tslug t) /\
                        is_Some (getPrivateDataBySlug r1 (tslug t)) ->
                        media t = getMetadataBySlug r (tslug t) /\
                        is_Some (getPrivateDataBySlug r (tslug t))) as Hlook.
      { intros t. unfold getMetadataBySlug, getPrivateDataBySlug. by rewrite Hpub, Hpriv. }
      destruct (addTask_returned _ _ _ _ _ Hadd)
        as [Hall1 [(_ & Hn1 & _)|(_ & mp & Hmp & Hn1 & _)]].
      * exists (c :: requested), needed. rewrite Hall, Hall1, Hneeded, Hn1, <- app_assoc.
        split_and!; try done.
        -- by apply sublist_cons.
        -- simpl. lia.
        -- eapply Forall_impl; [exact Hfor | exact Hlook].
      * exists (c :: requested), (Task c s (getMetadataBySlug r s) :: needed).
        rewrite Hall, Hall1, Hneeded, Hn1, <- !app_assoc.
        split_and!; try done.
        -- rewrite fmap_cons. by apply sublist_skip.
        -- simpl. lia.
        -- apply Forall_cons. split; [cbn [media tslug]; by rewrite Hmp; eauto|].
           eapply Forall_impl; [exact Hfor | exact Hlook].
    + split; [done|]. split; [done|]. exists [], []. rewrite !app_nil_r.
      destruct (addTask_threw _ _ _ _ _ Hadd) as (_ & _ & -> & ->).
      split_and!; try done. simpl. lia.
Qed.

(** After any sequence of registrations on a new instance, the commands
    of the queued tasks are among the requested ones, in the same order;
    there are at most as many requests as calls; and every queued task
    belongs to an item of the scan, whose public record it carries. *)
Theorem needed_tasks_are_requested listing folder exts force ledger existing calls :
  let r := registered (construct listing folder exts force ledger existing) calls in
  (cmd <$> neededTasks r) `sublist_of` allTasks r /\
  length (neededTasks r) <= length (allTasks r) <= length calls /\
  Forall (fun t => media t = getMetadataBySlug r (tslug t) /\
                   is_Some (getPrivateDataBySlug r (tslug t))) (neededTasks r).
Proof.
  cbn zeta. set (r0 := construct listing folder exts force ledger existing).
  destruct (registered_lists r0 calls)
    as (Hpub & Hpriv & requested & needed & Hall & Hneeded & Hsub & Hlen & Hfor).
  rewrite Hall, Hneeded. cbn [r0 construct allTasks neededTasks app].
  split; [done|]. split.
  - split; [|done]. rewrite <- (length_fmap cmd). by apply sublist_length.
  - eapply Forall_impl; [exact Hfor|]. intros t.
    unfold getMetadataBySlug, getPrivateDataBySlug. by rewrite Hpub, Hpriv.
Qed.








Lemma find_elem_of {A : Type} (P : A -> bool) (l : list A) (x : A) :
  List.find P l = Some x -> x ∈ l /\ P x = true.
Proof. intros Hf. apply find_some in Hf as [? ?]. split; [by apply list_elem_of_In | done]. Qed.






End MoreRegistrationFacts.

(** ** More on the scan *)

Section MoreScanFacts.

Context `{Platform}.




Lemma portionState_folder start tail :
  allChars (fun x => negb (isSlash x)) tail = true ->
  snd (portionState EmptyString EmptyString (start +:+ String "/"%char tail)) = tail.
Proof.
  intros Htail. rewrite portionState_app. cbn [portionState].
  change (isSlash "/"%char) with true. cbn match.
  rewrite portionState_noslash by done. cbn [snd]. apply append_empty_l.
Qed.

Lemma allChars_weaken (P Q : ascii -> bool) s :
  (forall x, P x = true -> Q x = true) -> allChars P s = true -> allChars Q s = true.
Proof.
  intros HPQ. induction s as [|x s IH]; [done|]. simpl.
  intros [Hx Hs]%andb_true_iff. by rewrite (HPQ x Hx), IH.
Qed.

Lemma allChars_append P a b :
  allChars P (a +:+ b) = allChars P a && allChars P b.
Proof.
  induction a as [|x a IH]; [done|]. rewrite append_cons. simpl.
  by rewrite IH, andb_assoc.
Qed.

(** The record of a file [b.e] in a folder whose path ends with [/tail]
    ([tail] is empty when the path ends with the slash, as the code
    expects): the path is the plain concatenation, so the slug is made from
    [tail] glued to the stem; the extension is kept as it is written, in
    its own letter case. *)
Theorem scanOne_stem_and_extension start tail b e :
  allChars (fun x => negb (isSlash x)) tail = true ->
  truthy b = true -> allChars (fun x => negb (isSlash x)) b = true ->
  truthy e = true -> allChars (fun x => negb (isSlash x) && negb (isDot x)) e = true ->
  scanOne (start +:+ String "/"%char tail) (b +:+ String "."%char e) =
    ScannedFile (PublicData (slugify (tail +:+ b)) e)
                (start +:+ String "/"%char tail) (b +:+ String "."%char e)
                ((start +:+ String "/"%char tail) +:+ b +:+ String "."%char e).
Proof.
  intros Htail Hb Hbs He Hplain. set (folder := start +:+ String "/"%char tail).
  assert (snd (portionState EmptyString EmptyString (folder +:+ b)) = tail +:+ b) as Hc.
  { rewrite portionState_app, portionState_noslash by done. cbn [snd].
    unfold folder. by rewrite portionState_folder. }
  unfold scanOne. rewrite <- append_assoc.
  destruct (stem_and_extension (folder +:+ b) e) as [-> ->]; try done.
  { rewrite Hc. by apply truthy_append_r. }
  by rewrite Hc.
Qed.

Lemma lastDot_some_dot s k : lastDot s = Some k -> allChars (fun x => negb (isDot x)) s = false.
Proof.
  revert k. induction s as [|x s IH]; intros k; [done|]. simpl.
  destruct (lastDot s) as [j|] eqn:Hs.
  - intros _. rewrite (IH j eq_refl). apply andb_false_r.
  - destruct (isDot x); [done|]. done.
Qed.

(** A name without any dot that the expression lets through (such as
    [xjpg] for the extension [jpg]): the extension of its record is empty
    and the slug is made from the whole name. *)
Theorem scanOne_without_dot start name :
  truthy name = true ->
  allChars (fun x => negb (isSlash x) && negb (isDot x)) name = true ->
  scanOne (start +:+ "/") name =
    ScannedFile (PublicData (slugify name) EmptyString) (start +:+ "/") name
                ((start +:+ "/") +:+ name).
Proof.
  intros Hname Hplain.
  assert (allChars (fun x => negb (isSlash x)) name = true) as Hns.
  { eapply allChars_weaken; [|exact Hplain]. by intros x [? _]%andb_true_iff. }
  assert (allChars (fun x => negb (isDot x)) name = true) as Hnd.
  { eapply allChars_weaken; [|exact Hplain]. by intros x [_ ?]%andb_true_iff. }
  assert (lastPortion ((start +:+ "/") +:+ name) = name) as Hlast.
  { rewrite lastPortion_continue by done.
    rewrite (portionState_folder start EmptyString eq_refl). apply append_empty_l. }
  assert (extname ((start +:+ "/") +:+ name) = EmptyString) as Hext.
  { unfold extname. by rewrite Hlast, lastDot_none. }
  unfold scanOne. rewrite Hext. unfold basename. cbn [truthy andb]. by rewrite Hlast.
Qed.

Lemma find_fmap {A B : Type} (g : A -> B) (P : B -> bool) (l : list A) :
  List.find P (g <$> l) = g <$> List.find (fun x => P (g x)) l.
Proof.
  induction l as [|x l IH]; [done|]. rewrite fmap_cons. simpl.
  by destruct (P (g x)).
Qed.

(** The file a slug stands for: the first of the scan with that slug. *)
Lemma lookups_of_construct listing folder exts force ledger existing s :
  let r := construct listing folder exts force ledger existing in
  let found := List.find (fun f => bool_decide (slug (scannedPublic f) = s))
                         (getFilesInFolder listing folder exts) in
  getMetadataBySlug r s = scannedPublic <$> found /\
  getPrivateDataBySlug r s =
    (fun f => PrivateRecord (scannedFolderPath f) (scannedFileName f) (scannedFilePath f)
                (slug (scannedPublic f)) (getFileHash (scannedFilePath f))) <$> found.
Proof.
  cbn zeta. unfold getMetadataBySlug, getPrivateDataBySlug, construct.
  cbn [sourcePublicData sourcePrivateData].
  change (List.map ?g ?l) with (g <$> l). by rewrite !find_fmap.
Qed.

Lemma getFilesInFolder_elem listing folder exts f :
  f ∈ getFilesInFolder listing folder exts ->
  exists fileName, fileName ∈ listing /\
    extensionTest (List.map toLowerCase exts) (toLowerCase fileName) = true /\
    f = scanOne folder fileName.
Proof.
  unfold getFilesInFolder. intros Hin.
  apply list_elem_of_In, in_map_iff in Hin as (fileName & <- & Hf).
  apply filter_In in Hf as [Hf Htest]. exists fileName.
  split; [by apply list_elem_of_In | done].
Qed.


Lemma getFilePathFromMeta_found listing folder exts force ledger existing meta :
  meta ∈ sourcePublicData (construct listing folder exts force ledger existing) ->
  exists fileName,
    getFilePathFromMeta (construct listing folder exts force ledger existing) meta
      = Some (folder +:+ fileName) /\
    fileName ∈ listing /\
    extensionTest (List.map toLowerCase exts) (toLowerCase fileName) = true /\
    slug (scannedPublic (scanOne folder fileName)) = slug meta.
Proof.
  intros Hmeta. unfold getFilePathFromMeta.
  destruct (lookups_of_construct listing folder exts force ledger existing (slug meta))
    as [Hpub Hpriv].
  cbn zeta in *. rewrite Hpriv.
  destruct (List.find _ (getFilesInFolder listing folder exts)) as [f|] eqn:Hfind.
  - apply find_elem_of in Hfind as [Hf Hs]. apply bool_decide_eq_true in Hs.
    apply getFilesInFolder_elem in Hf as (fileName & Hin & Htest & ->).
    by exists fileName.
  - exfalso. revert Hpub. unfold getMetadataBySlug. cbn [fmap option_fmap option_map].
    intros Hnone. apply (find_none_not_elem slug (slug meta)) in Hnone.
    apply Hnone. by apply list_elem_of_fmap_2.
Qed.

(** [getFilePathFromMeta] does not throw on an element of
    [getMetadata()]: it returns the path of a file of the listing that
    passed the filter and has the slug of the element. *)
Theorem getFilePathFromMeta_of_scanned listing folder exts force ledger existing meta :
  meta ∈ sourcePublicData (construct listing folder exts force ledger existing) ->
  exists fileName,
    getFilePathFromMeta (construct listing folder exts force ledger existing) meta
      = Some (folder +:+ fileName) /\
    fileName ∈ listing /\
    extensionTest (List.map toLowerCase exts) (toLowerCase fileName) = true /\
    slug (scannedPublic (scanOne folder fileName)) = slug meta.
Proof. apply getFilePathFromMeta_found. Qed.

End MoreScanFacts.

(** ** The constructors *)

Section ConstructorFacts.

Context `{Platform}.

Lemma findMissingDependencies_from shell dependencies missing :
  foldl (fun missing dependency =>
           if _checkSystemDependency shell (localDependency dependency) then missing
           else missing ++ [missingMessage dependency])
        missing dependencies =
    missing ++ (missingMessage <$>
                List.filter (fun d => negb (_checkSystemDependency shell (localDependency d)))
                            dependencies).
Proof.
  revert missing. induction dependencies as [|d ds IH]; intros missing.
  - by rewrite app_nil_r.
  - cbn [foldl List.filter]. rewrite IH.
    destruct (_checkSystemDependency shell (localDependency d)); cbn [negb]; [done|].
    by rewrite fmap_cons, <- app_assoc.
Qed.

Lemma findMissingDependencies_lists_missing shell dependencies :
  findMissingDependencies shell dependencies =
    (missingMessage <$>
     List.filter (fun d => negb (shell ("type " +:+ localDependency d))) dependencies) /\
  (findMissingDependencies shell dependencies = [] <->
   Forall (fun d => shell ("type " +:+ localDependency d) = true) dependencies).
Proof.
  assert (findMissingDependencies shell dependencies =
    (missingMessage <$>
     List.filter (fun d => negb (shell ("type " +:+ localDependency d))) dependencies))
    as Heq.
  { unfold findMissingDependencies. by rewrite findMissingDependencies_from. }
  split; [done|]. rewrite Heq. clear Heq.
  induction dependencies as [|d ds IH]; [done|]. cbn [List.filter].
  rewrite Forall_cons. destruct (shell ("type " +:+ localDependency d)); cbn [negb].
  - rewrite IH. tauto.
  - rewrite fmap_cons. split; [done | by intros [? _]].
Qed.

(** [findMissingDependencies] returns one message for each dependency
    whose command [type] does not find, in the order of the dependencies,
    and nothing else; so it returns the empty array exactly when every
    command is found. *)
Theorem findMissingDependencies_lists_the_missing shell dependencies :
  findMissingDependencies shell dependencies =
    (missingMessage <$>
     List.filter (fun d => negb (shell ("type " +:+ localDependency d))) dependencies) /\
  (findMissingDependencies shell dependencies = [] <->
   Forall (fun d => shell ("type " +:+ localDependency d) = true) dependencies).
Proof. apply findMissingDependencies_lists_missing. Qed.



(** Calls for known slugs all return, and each is counted. *)
Lemma registerAll_known r calls :
  Forall (fun call : command * string * string =>
            is_Some (getPrivateDataBySlug r call.1.2)) calls ->
  exists r', registerAll r calls = Returned r' /\
    allTasks r' = allTasks r ++ ((fun call : command * string * string => call.1.1) <$> calls) /\
    sourcePublicData r' = sourcePublicData r /\
    sourcePrivateData r' = sourcePrivateData r /\
    forceTask r' = forceTask r.
Proof.
  revert r. induction calls as [|[[c s] out] calls IH]; intros r Hknown.
  - exists r. by rewrite app_nil_r.
  - apply Forall_cons in Hknown as [[mp Hmp] Hknown]. cbn [fst snd] in Hmp.
    destruct (addTask_known r c s out mp Hmp) as [r1 Hadd].
    pose proof (addTask_sources r c s out) as (Hpub & Hpriv & _ & Hforce).
    rewrite Hadd in Hpub, Hpriv, Hforce. cbn [stateAfter] in Hpub, Hpriv, Hforce.
    destruct (IH r1) as (r' & Hreg & Hall & Hpub' & Hpriv' & Hforce').
    { eapply Forall_impl; [exact Hknown|]. intros call.
      unfold getPrivateDataBySlug. by rewrite Hpriv. }
    exists r'. cbn [registerAll]. rewrite Hadd. split; [done|].
    destruct (addTask_returned _ _ _ _ _ Hadd) as [Hall1 _].
    rewrite Hall, Hall1, fmap_cons, <- app_assoc. split; [done|].
    split; [congruence|]. split; congruence.
Qed.

Lemma renditions_slug o metaData path :
  Forall (fun call : command * string * string => call.1.2 = slug metaData)
         (renditions o metaData path).
Proof.
  unfold renditions. induction (widths o) as [|w ws IH]; [done|]. cbn [flat_map].
  apply Forall_app. split; [|done]. unfold widthCalls.
  destruct (retinaWanted o); by repeat constructor.
Qed.

Lemma renditions_length o metaData path :
  length (renditions o metaData path) =
    length (widths o) * callsPerWidth o.
Proof.
  unfold renditions. induction (widths o) as [|w ws IH]; [done|]. cbn [flat_map].
  rewrite length_app, IH. unfold widthCalls, callsPerWidth.
  destruct (retinaWanted o); simpl; lia.
Qed.

(** The loop over the items of the scan, for any registry that has the
    records of a scan. *)
Lemma registerItems_returns listing folder exts force ledger existing o items r :
  sourcePublicData r =
    sourcePublicData (construct listing folder exts force ledger existing) ->
  sourcePrivateData r =
    sourcePrivateData (construct listing folder exts force ledger existing) ->
  items ⊆ sourcePublicData r ->
  exists r', registerItems o r items = Returned r' /\
    sourcePublicData r' = sourcePublicData r /\
    sourcePrivateData r' = sourcePrivateData r /\
    forceTask r' = forceTask r /\
    exists calls,
      allTasks r' = allTasks r ++ ((fun call : command * string * string => call.1.1) <$> calls) /\
      length calls =
        length (List.filter (onWhiteList o) items) * length (widths o)
          * callsPerWidth o /\
      Forall (fun call : command * string * string => exists metaData,
                metaData ∈ List.filter (onWhiteList o) items /\
                call.1.2 = slug metaData) calls.
Proof.
  intros Hpub Hpriv. revert r Hpub Hpriv.
  induction items as [|metaData items IH]; intros r Hpub Hpriv Hitems.
  - exists r. split; [done|]. split; [done|]. split; [done|]. split; [done|]. exists [].
    by rewrite app_nil_r.
  - assert (items ⊆ sourcePublicData r) as Hitems'.
    { intros x Hx. apply Hitems. by right. }
    cbn [registerItems List.filter]. destruct (onWhiteList o metaData) eqn:Hwl.
    + assert (metaData ∈ sourcePublicData
                (construct listing folder exts force ledger existing)) as Hin.
      { rewrite <- Hpub. apply Hitems. by left. }
      destruct (getFilePathFromMeta_found _ _ _ _ _ _ _ Hin) as (fileName & Hpath & _).
      assert (getFilePathFromMeta r metaData = Some (folder +:+ fileName)) as Hpath'.
      { revert Hpath. unfold getFilePathFromMeta, getPrivateDataBySlug. by rewrite Hpriv. }
      rewrite Hpath'.
      destruct (registerAll_known r (renditions o metaData (folder +:+ fileName)))
        as (r1 & Hreg & Hall1 & Hpub1 & Hpriv1 & Hforce1).
      { eapply Forall_impl; [apply renditions_slug|]. intros call ->.
        unfold getFilePathFromMeta in Hpath'.
        by destruct (getPrivateDataBySlug r (slug metaData)). }
      rewrite Hreg.
      destruct (IH r1)
        as (r' & Hloop & Hpub' & Hpriv' & Hforce' & calls & Hall & Hlen & Hslugs);
        [congruence | congruence | by rewrite Hpub1 |].
      exists r'. split; [done|]. split; [congruence|]. split; [congruence|].
      split; [congruence|].
      exists (renditions o metaData (folder +:+ fileName) ++ calls).
      rewrite Hall, Hall1, fmap_app, <- app_assoc. split; [done|]. split.
      * rewrite length_app, renditions_length, Hlen. cbn [length]. lia.
      * apply Forall_app. split.
        -- eapply Forall_impl; [apply renditions_slug|]. intros call Hcall.
           exists metaData. split; [by left | done].
        -- eapply Forall_impl; [exact Hslugs|]. intros call (md & Hmd & Hcall).
           exists md. split; [by right | done].
    + destruct (IH r Hpub Hpriv Hitems')
        as (r' & Hloop & Hpub' & Hpriv' & Hforce' & calls & Hrest).
      exists r'. split; [done|]. split; [done|]. split; [done|]. split; [done|].
      by exists calls.
Qed.


Lemma mediaManager_built env o :
  findMissingDependencies (shell env) (default [] (dependencies o)) = [] ->
  mediaManager env (Some o) =
    Built (newManager
             (construct (readdirSync env (default (assetsImages env) (mediaFolderPath o)))
                (default (assetsImages env) (mediaFolderPath o))
                (default ["jpg"; "png"] (validSourceExts o))
                (default false (forceTaskOption o))
                (let path := default (tmpDir env +:+ "mediadata.json") (privateDataPath o) in
                 if truthy path then default ∅ (readLedger env path) else ∅)
                (existingFiles env))
             (default 1 (numberOfConcurrentTask o))).
Proof. intros Hnil. unfold mediaManager. by rewrite Hnil. Qed.

(** How [new ImageSizer(options)] ends.  [convert] and [pngquant] are
    looked for before the dependencies the caller names.  When something is
    missing, the heading and the messages are printed by the constructor of
    [MediaManager], which returns early; [getMetadata()] is then
    [undefined] and line 77 throws: no instance is returned.  Otherwise the
    registrations run to their end and the instance is complete, with
    [ready] deferred and nothing emitted yet. *)
Theorem imageSizer_outcome env o :
  let wanted := defaultDependencies ++ default [] (dependencies (managerOptions o)) in
  let missing :=
    missingMessage <$>
    List.filter (fun d => negb (shell env ("type " +:+ localDependency d))) wanted in
  match imageSizer env o with
  | Thrown console =>
      missing <> [] /\
      console =
        ("Error. Missing "
           +:+ (if bool_decide (length missing = 1) then "dependency" else "dependencies")
           +:+ " must be installed.") :: missing /\
      (shell env "type convert" = false ->
       console !! 1 = Some ("Imagemagick required. To install, run:" +:+ dquote
                              +:+ "brew install imagemagick" +:+ dquote))
  | Unfinished _ => False
  | Built m =>
      Forall (fun d => shell env ("type " +:+ localDependency d) = true) wanted /\
      timers m = [EmitReady] /\ trace m = [] /\
      parallelism (taskQueue m) = default 1 (numberOfConcurrentTask (managerOptions o)) /\
      exists r0,
        mediaManager env (Some (superOptions o)) =
          Built (newManager r0 (default 1 (numberOfConcurrentTask (managerOptions o)))) /\
        registerItems o r0 (sourcePublicData r0) = Returned (reg m)
  end.
Proof.
  cbn zeta.
  destruct (findMissingDependencies_lists_missing (shell env)
              (defaultDependencies ++ default [] (dependencies (managerOptions o))))
    as [Heq Hnil].
  unfold imageSizer.
  destruct (findMissingDependencies (shell env)
              (defaultDependencies ++ default [] (dependencies (managerOptions o))))
    as [|x l] eqn:Hmissing.
  - rewrite mediaManager_built by done. cbn [reg sourcePublicData].
    match goal with |- context [registerItems o ?r0 _] => set (r := r0) end.
    destruct (registerItems_returns
                (readdirSync env (default (assetsImages env)
                                          (mediaFolderPath (superOptions o))))
                (default (assetsImages env) (mediaFolderPath (superOptions o)))
                (default ["jpg"; "png"] (validSourceExts (superOptions o)))
                (default false (forceTaskOption (superOptions o)))
                (let path := default (tmpDir env +:+ "mediadata.json")
                                     (privateDataPath (superOptions o)) in
                 if truthy path then default ∅ (readLedger env path) else ∅)
                (existingFiles env) o (sourcePublicData r) r)
      as (r' & Hloop & _); [done..|].
    fold r. rewrite Hloop. split; [by apply Hnil|]. split; [done|]. split; [done|].
    split; [done|]. exists r. done.
  - unfold mediaManager. cbn [dependencies superOptions default id]. rewrite Hmissing.
    cbn [length]. rewrite bool_decide_eq_true_2 by lia. rewrite <- Heq.
    split; [done|]. split.
    + do 2 f_equal. repeat case_bool_decide; try done; cbn [length] in *; lia.
    + intros Hconvert. revert Heq.
      cbn [defaultDependencies app List.filter localDependency showOptional default id].
      change ("type " +:+ "convert") with "type convert".
      rewrite Hconvert. cbn [negb]. rewrite fmap_cons. by intros [= -> _].
Qed.

(** [index.js]: seven widths, standard and retina at quality 80, no
    white list.  When [convert] and [pngquant] are found the instance is
    complete, its queue has the default limit of 1, [forceTask] is off, and
    fourteen commands are requested for each file of the folder that passes
    the filter for [jpg] and [png] (for items without [crops]). *)
Theorem index_requests_fourteen_commands_per_image env assets data tmp static :
  shell env "type convert" = true -> shell env "type pngquant" = true ->
  exists m,
    imageSizer env (indexOptions assets data tmp static) = Built m /\
    parallelism (taskQueue m) = 1 /\ forceTask (reg m) = false /\
    length (allTasks (reg m)) =
      14 * length (getFilesInFolder (readdirSync env assets) assets ["jpg"; "png"]).
Proof.
  intros Hconvert Hpngquant. unfold imageSizer.
  rewrite mediaManager_built.
  2:{ apply findMissingDependencies_lists_missing. cbn. by repeat constructor. }
  cbn [reg sourcePublicData newManager superOptions indexOptions managerOptions
       mediaFolderPath default validSourceExts forceTaskOption privateDataPath
       numberOfConcurrentTask].
  match goal with |- context [registerItems ?o ?r0 _] => set (r := r0); set (opts := o) end.
  destruct (registerItems_returns (readdirSync env assets) assets ["jpg"; "png"] false
              (if truthy (tmp +:+ "imagedata.json")
               then default ∅ (readLedger env (tmp +:+ "imagedata.json")) else ∅)
              (existingFiles env) opts (sourcePublicData r) r)
    as (r' & Hloop & _ & _ & Hforce & calls & Hall & Hlen & _); [done..|].
  change (sourcePublicData
            (construct (readdirSync env assets) assets ["jpg"; "png"] false
               (if truthy (tmp +:+ "imagedata.json")
                then default ∅ (readLedger env (tmp +:+ "imagedata.json")) else ∅)
               (existingFiles env))) with (sourcePublicData r).
  rewrite Hloop. eexists. split; [done|]. cbn [taskQueue reg parallelism].
  split; [done|]. split; [by rewrite Hforce|].
  rewrite Hall, length_app, length_fmap, Hlen.
  assert (forall l, List.filter (onWhiteList opts) l = l) as ->.
  { intros l. induction l as [|md mds IH]; [done|]. cbn. by rewrite IH. }
  subst r. unfold construct. cbn [sourcePublicData allTasks length].
  rewrite length_map. cbn. lia.
Qed.

End ConstructorFacts.


(** ** The filter table and the commands of the renditions *)

Section RenditionFacts.

Context `{Platform}.

Lemma find_app_first {A : Type} (P : A -> bool) (l k : list A) :
  List.find P (l ++ k) =
    match List.find P l with Some x => Some x | None => List.find P k end.
Proof. induction l as [|x l IH]; [done|]. simpl. by destruct (P x). Qed.

(** The table [generateCovertCmd] looks names up in is the three
    filters of the file followed by those of the caller, and [_.find]
    returns the first match: a filter of the caller named [strip], [bw] or
    [blur] is never used, and any other name resolves to the caller's
    first filter of that name. *)
Theorem builtin_filters_win o name :
  lookupFilter (mergedFilters o) name =
    match lookupFilter availableFilters name with
    | Some flag => Some flag
    | None => lookupFilter (default [] (userFilters o)) name
    end /\
  lookupFilter (mergedFilters o) "strip" = Some "-strip" /\
  lookupFilter (mergedFilters o) "bw" = Some "-colorspace Gray" /\
  lookupFilter (mergedFilters o) "blur" = Some "-blur 0x5".
Proof.
  assert (forall n, lookupFilter (mergedFilters o) n =
    match lookupFilter availableFilters n with
    | Some flag => Some flag
    | None => lookupFilter (default [] (userFilters o)) n
    end) as Hlook.
  { intros n. unfold lookupFilter, mergedFilters. rewrite find_app_first.
    by destruct (List.find _ availableFilters). }
  split; [apply Hlook|]. by rewrite !Hlook.
Qed.

Lemma append_inv_head (a x y : string) : a +:+ x = a +:+ y -> x = y.
Proof.
  induction a as [|c a IH]; [by rewrite !append_empty_l|].
  rewrite !append_cons. intros [= Heq]. by apply IH.
Qed.

Lemma append_inv_tail (x y a : string) : x +:+ a = y +:+ a -> x = y.
Proof.
  intros Heq.
  assert (String.length x = String.length y) as Hlen.
  { apply (f_equal String.length) in Heq. rewrite !length_append in Heq. lia. }
  revert y Heq Hlen. induction x as [|c x IH]; intros [|d y] Heq Hlen; try done.
  rewrite !append_cons in Heq. injection Heq as -> Heq. f_equal. apply IH; [done|].
  simpl in Hlen. lia.
Qed.

(** Two strings that agree, each made of digits followed by something
    that does not start with a digit: the digits agree and so does what
    follows. *)
Lemma digits_then d1 d2 r1 r2 :
  allChars isDigit d1 = true -> allChars isDigit d2 = true ->
  startsWithoutDigit r1 = true -> truthy r1 = true ->
  startsWithoutDigit r2 = true -> truthy r2 = true ->
  d1 +:+ r1 = d2 +:+ r2 -> d1 = d2 /\ r1 = r2.
Proof.
  revert d2. induction d1 as [|c d1 IH]; intros [|c2 d2] Hd1 Hd2 Hr1 Ht1 Hr2 Ht2 Heq.
  - by rewrite !append_empty_l in Heq.
  - rewrite append_empty_l, append_cons in Heq. subst r1. simpl in Hr1, Hd2.
    apply andb_true_iff in Hd2 as [Hc _]. by rewrite Hc in Hr1.
  - rewrite append_empty_l, append_cons in Heq. subst r2. simpl in Hr2, Hd1.
    apply andb_true_iff in Hd1 as [Hc _]. by rewrite Hc in Hr2.
  - rewrite !append_cons in Heq. injection Heq as -> Heq. simpl in Hd1, Hd2.
    apply andb_true_iff in Hd1 as [_ Hd1]. apply andb_true_iff in Hd2 as [_ Hd2].
    destruct (IH d2) as [-> ->]; done.
Qed.

Lemma pretty_N_char_digit x : isDigit (pretty_N_char x) = true.
Proof. unfold pretty_N_char. by repeat case_match. Qed.

Lemma pretty_N_go_digits x s :
  allChars isDigit s = true -> allChars isDigit (pretty_N_go x s) = true.
Proof.
  revert s. induction (N.lt_wf_0 x) as [x _ IH]; intros s Hs.
  assert (x = 0 \/ 0 < x)%N as [->|Hpos] by lia; [by rewrite pretty_N_go_0|].
  rewrite pretty_N_go_step by done. apply IH; [by apply N.div_lt|].
  simpl. by rewrite pretty_N_char_digit.
Qed.

Lemma showNumber_digits n : allChars isDigit (showNumber n) = true.
Proof.
  unfold showNumber, pretty, pretty_N. case_decide; [done|].
  by apply pretty_N_go_digits.
Qed.

Lemma showNumber_inj n1 n2 r1 r2 :
  startsWithoutDigit r1 = true -> truthy r1 = true ->
  startsWithoutDigit r2 = true -> truthy r2 = true ->
  showNumber n1 +:+ r1 = showNumber n2 +:+ r2 -> n1 = n2 /\ r1 = r2.
Proof.
  intros Hr1 Ht1 Hr2 Ht2 Heq.
  destruct (digits_then _ _ _ _ (showNumber_digits n1) (showNumber_digits n2)
              Hr1 Ht1 Hr2 Ht2 Heq) as [Hn ->].
  split; [|done]. by apply (inj pretty).
Qed.

(** The command determines the output path, for one input, file type
    and list of filters. *)
Lemma generateCovertCmd_output table input ext fs q1 q2 w1 w2 out1 out2 :
  generateCovertCmd table input out1 ext w1 q1 fs =
  generateCovertCmd table input out2 ext w2 q2 fs ->
  q1 = q2 /\ w1 = w2 /\ out1 = out2.
Proof.
  unfold generateCovertCmd.
  set (flags := join " " (neededFilters table fs).1).
  destruct (String.eqb ext "png"); intros Heq.
  - do 5 apply append_inv_head in Heq.
    apply showNumber_inj in Heq as [-> Heq]; try done.
    do 3 apply append_inv_head in Heq.
    apply showNumber_inj in Heq as [-> Heq]; try done.
    do 2 apply append_inv_head in Heq. by apply append_inv_tail in Heq as ->.
  - do 5 apply append_inv_head in Heq.
    apply showNumber_inj in Heq as [-> Heq]; try done.
    do 3 apply append_inv_head in Heq.
    apply showNumber_inj in Heq as [-> Heq]; try done.
    do 2 apply append_inv_head in Heq. by apply append_inv_tail in Heq as ->.
Qed.

Lemma output_paths_differ prefix ext w1 w2 mark1 mark2 :
  (mark1 = "." \/ mark1 = "_x2.") -> (mark2 = "." \/ mark2 = "_x2.") ->
  prefix +:+ showNumber w1 +:+ mark1 +:+ ext = prefix +:+ showNumber w2 +:+ mark2 +:+ ext ->
  w1 = w2 /\ mark1 = mark2.
Proof.
  intros Hm1 Hm2 Heq. apply append_inv_head in Heq.
  apply showNumber_inj in Heq as [-> Heq];
    [|by destruct Hm1 as [->| ->]|by destruct Hm1 as [->| ->]
     |by destruct Hm2 as [->| ->]|by destruct Hm2 as [->| ->]].
  split; [done|]. destruct Hm1 as [->| ->], Hm2 as [->| ->]; done.
Qed.

(** Two calls of [addConvertTask] for one item that have the same output
    path, or the same command, are for the same width and the same mark. *)
Lemma renditionCall_inj o metaData path w1 w2 mark1 mark2 cw1 cw2 q1 q2 :
  (mark1 = "." \/ mark1 = "_x2.") -> (mark2 = "." \/ mark2 = "_x2.") ->
  (renditionCall o metaData path w1 mark1 cw1 q1).2 =
    (renditionCall o metaData path w2 mark2 cw2 q2).2 \/
  (renditionCall o metaData path w1 mark1 cw1 q1).1.1 =
    (renditionCall o metaData path w2 mark2 cw2 q2).1.1 ->
  w1 = w2 /\ mark1 = mark2.
Proof.
  intros Hm1 Hm2 Heq.
  assert ((renditionCall o metaData path w1 mark1 cw1 q1).2 =
          (renditionCall o metaData path w2 mark2 cw2 q2).2) as Hout.
  { destruct Heq as [?|Heq]; [done|]. unfold renditionCall in *. cbn [fst snd] in *.
    injection Heq as Heq. by apply generateCovertCmd_output in Heq as (_ & _ & ?). }
  unfold renditionCall in Hout. cbn [snd] in Hout.
  apply (output_paths_differ (publishDir o +:+ slug metaData +:+ "-")
           (extension metaData)); [done..|].
  by rewrite !append_assoc.
Qed.

Lemma widthCalls_elem o metaData path width call :
  call ∈ widthCalls o metaData path width ->
  call = renditionCall o metaData path width "." width (standardQuality o) \/
  exists quality, retinaWanted o = Some quality /\
    call = renditionCall o metaData path width "_x2." (width * 2) quality.
Proof.
  unfold widthCalls. intros [->|Hin]%elem_of_cons; [by left|]. right.
  destruct (retinaWanted o) as [q|]; [|by apply elem_of_nil in Hin].
  apply list_elem_of_singleton in Hin as ->. by exists q.
Qed.

Lemma renditions_inj o metaData path call1 call2 :
  call1 ∈ renditions o metaData path -> call2 ∈ renditions o metaData path ->
  call1.2 = call2.2 \/ call1.1.1 = call2.1.1 -> call1 = call2.
Proof.
  unfold renditions.
  intros (w1 & Hw1 & Hc1)%list_elem_of_In%in_flat_map
         (w2 & Hw2 & Hc2)%list_elem_of_In%in_flat_map Heq.
  apply list_elem_of_In, widthCalls_elem in Hc1, Hc2.
  destruct Hc1 as [->|(q1 & Hq1 & ->)], Hc2 as [->|(q2 & Hq2 & ->)];
    apply renditionCall_inj in Heq as [-> Hmark]; try done; eauto.
  rewrite Hq1 in Hq2. by injection Hq2 as ->.
Qed.

(** For widths that are all different, the renditions of one item
    (those that are not crops) have
    output paths that are all different and commands that are all
    different: each rendition has a record of its own in the ledger, under
    its own key. *)
Theorem renditions_have_their_own_records o metaData path :
  NoDup (widths o) ->
  NoDup ((fun call : command * string * string => call.2) <$> renditions o metaData path) /\
  NoDup ((fun call : command * string * string => cmdLog call.1.1)
           <$> renditions o metaData path).
Proof.
  intros Hwidths.
  assert (NoDup (renditions o metaData path)) as Hcalls.
  { unfold renditions. change (flat_map ?f ?l) with (l ≫= f).
    apply NoDup_bind; [| |done].
    - intros w1 w2 call _ _ Hc1 Hc2. apply widthCalls_elem in Hc1, Hc2.
      destruct Hc1 as [->|(q1 & Hq1 & ->)], Hc2 as [Heq|(q2 & Hq2 & Heq)];
        apply (f_equal (fun call : command * string * string => call.2)) in Heq;
        (eapply or_introl, renditionCall_inj in Heq as [? _]; [done|eauto..]).
    - intros w _. unfold widthCalls. destruct (retinaWanted o) as [q|].
      + apply NoDup_cons. split; [|apply NoDup_singleton].
        intros Heq%list_elem_of_singleton.
        apply (f_equal (fun call : command * string * string => call.2)) in Heq.
        eapply or_introl, renditionCall_inj in Heq as [_ ?]; [done|eauto..].
      + apply NoDup_singleton. }
  split; (apply NoDup_fmap_2_strong; [|done]); intros call1 call2 Hc1 Hc2 Heq.
  - apply (renditions_inj o metaData path); auto.
  - apply (renditions_inj o metaData path); [done..|]. right.
    pose proof Hc1 as Hc1'. pose proof Hc2 as Hc2'. unfold renditions in Hc1', Hc2'.
    apply list_elem_of_In, in_flat_map in Hc1' as (w1 & _ & Hc1').
    apply list_elem_of_In, in_flat_map in Hc2' as (w2 & _ & Hc2').
    apply list_elem_of_In, widthCalls_elem in Hc1', Hc2'.
    destruct Hc1' as [->|(q1 & _ & ->)], Hc2' as [->|(q2 & _ & ->)];
      unfold renditionCall in *; cbn [fst snd cmdLog] in *; by rewrite Heq.
Qed.

End RenditionFacts.


(** ** What every run keeps *)

Section RunFacts.

Ltac qfields :=
  cbn [reg taskQueue children timers listening tasksRun trace say setQueue setChildren
       setTimers setListening bumpTasksRun defer tasks started active remaining awaiting
       parallelism released].

Lemma emitted_app os1 os2 : emitted (os1 ++ os2) = emitted os1 ++ emitted os2.
Proof. apply omap_app. Qed.

Lemma taskDones_app es1 es2 : taskDones (es1 ++ es2) = taskDones es1 + taskDones es2.
Proof. unfold taskDones. by rewrite List.filter_app, length_app. Qed.

(** A step that adds no task and defers [k] final writes. *)
Lemma footprint_plain k extra m m' :
  reg m' = reg m -> listening m' = listening m ->
  parallelism (taskQueue m') = parallelism (taskQueue m) ->
  tasks (taskQueue m') = tasks (taskQueue m) ->
  length (children m') = length (children m) ->
  timers m' = timers m ++ replicate k Finish ->
  trace m' = trace m ++ extra -> Forall (fun o => duringTasks o = true) extra ->
  (listening m = true -> tasksRun m' = tasksRun m + taskDones (emitted extra)) ->
  footprint [] m m'.
Proof.
  intros Hr Hl Hp Ht Hc Hk Hx Hq Hn. unfold footprint.
  split; [done|]. split; [done|]. split; [done|]. split; [by rewrite app_nil_r|].
  split; [simpl; lia|]. split; [by exists k|]. by exists extra.
Qed.

Ltac fp_close :=
  qfields; rewrite ?app_nil_r, ?length_insert;
  first [done | by repeat constructor | (intros _; cbn; lia) | congruence].

Lemma footprint_refl m : footprint [] m m.
Proof. apply (footprint_plain 0 []); fp_close. Qed.

Lemma footprint_trans added1 added2 m1 m2 m3 :
  footprint added1 m1 m2 -> footprint added2 m2 m3 -> footprint (added1 ++ added2) m1 m3.
Proof.
  intros (Hr1 & Hl1 & Hp1 & Ht1 & Hc1 & [k1 Hk1] & e1 & Hx1 & Hq1 & Hn1)
         (Hr2 & Hl2 & Hp2 & Ht2 & Hc2 & [k2 Hk2] & e2 & Hx2 & Hq2 & Hn2).
  unfold footprint. split_and!; try congruence.
  - by rewrite Ht2, Ht1, app_assoc.
  - rewrite Hc2, Hc1, length_app. lia.
  - exists (k1 + k2). by rewrite Hk2, Hk1, replicate_add, app_assoc.
  - exists (e1 ++ e2). split_and!.
    + by rewrite Hx2, Hx1, app_assoc.
    + by apply Forall_app.
    + intros Hl. rewrite emitted_app, taskDones_app, Hn2, Hn1 by congruence. lia.
Qed.

(** The same, for steps that add no task. *)
Lemma footprint_then m1 m2 m3 :
  footprint [] m1 m2 -> footprint [] m2 m3 -> footprint [] m1 m3.
Proof. apply (footprint_trans [] []). Qed.

Lemma footprint_say o m :
  duringTasks o = true -> (forall e, o <> Emit e) -> footprint [] m (say o m).
Proof.
  intros Ho Hne. apply (footprint_plain 0 [o]); try fp_close.
  intros _. destruct o; try (cbn; lia). by destruct (Hne e).
Qed.

Lemma footprint_emit e m :
  duringTasks (Emit e) = true -> footprint [] m (emit e m).
Proof.
  intros He. unfold emit. destruct e as [|md|md|name md0|md|md]; try done.
  - apply (footprint_plain 0 [Emit (AllTasksReady md)]); fp_close.
  - apply (footprint_plain 0 [Emit (AllTasksRunning md)]); fp_close.
  - destruct (listening (say _ m)) eqn:Hl; cbn [listening say] in Hl;
      apply (footprint_plain 0 [Emit (TaskDone name md0)]); fp_close.
  - destruct (listening (say _ m)) eqn:Hl; cbn [listening say] in Hl.
    + apply (footprint_plain 1 [Emit (AllTasksDone md)]); fp_close.
    + apply (footprint_plain 0 [Emit (AllTasksDone md)]); fp_close.
Qed.

(** A change of the counters of the queue, or of the state of a child. *)
Lemma footprint_queue q m :
  parallelism q = parallelism (taskQueue m) -> tasks q = tasks (taskQueue m) ->
  footprint [] m (setQueue q m).
Proof. intros Hp Ht. apply (footprint_plain 0 []); fp_close. Qed.

Lemma footprint_child i c m :
  footprint [] m (setChildren (<[i := c]> (children m)) m).
Proof. apply (footprint_plain 0 []); fp_close. Qed.

Lemma footprint_localComplete t m : footprint [] m (localComplete t m).
Proof.
  unfold localComplete. eapply footprint_then; [|by apply footprint_emit].
  by apply footprint_say.
Qed.

Lemma footprint_notify m : footprint [] m (notify m).
Proof.
  unfold notify. destruct (awaiting _); [by apply footprint_emit | apply footprint_refl].
Qed.

Lemma footprint_callbackInPop i m : footprint [] m (callbackInPop i m).
Proof.
  unfold callbackInPop.
  assert (footprint [] m (setQueue (released (taskQueue m)) m)) as Hrel
    by (by apply footprint_queue).
  case_bool_decide; [|done]. eapply footprint_then; [exact Hrel | apply footprint_notify].
Qed.

Lemma footprint_performAll k i t effs m :
  (forall j m0, footprint [] m0 (k j m0)) -> footprint [] m (performAll k i t effs m).
Proof.
  intros Hk. revert m. induction effs as [|e effs IH]; intros m.
  - rewrite performAll_nil. apply footprint_refl.
  - rewrite performAll_cons. eapply footprint_then; [|apply IH].
    destruct e; cbn [perform]; auto using footprint_localComplete;
      by apply footprint_say.
Qed.

Lemma footprint_startTask i t m : footprint [] m (startTask i t m).
Proof.
  unfold startTask. destruct (cmd t) as [text|name source eager].
  - eapply footprint_then; [|by apply footprint_say]. apply footprint_child.
  - assert (footprint [] m (say (CallFunction i) m)) as Hcall by (by apply footprint_say).
    destruct eager.
    + eapply footprint_then; [|apply footprint_performAll, footprint_callbackInPop].
      eapply footprint_then; [exact Hcall | apply footprint_child].
    + eapply footprint_then; [exact Hcall | apply footprint_child].
Qed.

Lemma footprint_popLoop fuel m : footprint [] m (popLoop fuel m).
Proof.
  revert m. induction fuel as [|fuel IH]; intros m; [apply footprint_refl|].
  cbn [popLoop]. destruct (bool_decide _ && slotFree _); [|apply footprint_refl].
  destruct (tasks (taskQueue m) !! started (taskQueue m)) as [t|]; [|apply footprint_refl].
  eapply footprint_then; [|apply IH].
  eapply footprint_then; [|apply footprint_startTask]. by apply footprint_queue.
Qed.

Lemma footprint_callback i m : footprint [] m (callback i m).
Proof.
  unfold callback, pop.
  assert (footprint [] m (setQueue (released (taskQueue m)) m)) as Hrel
    by (by apply footprint_queue).
  eapply footprint_then; [exact Hrel|].
  case_bool_decide; [apply footprint_notify | apply footprint_popLoop].
Qed.

Lemma footprint__runTask t m : footprint [t] m (_runTask t m).
Proof.
  unfold _runTask, queueDefer, pop.
  apply (footprint_trans [] [t] _ (say (Log Info ("Starting: " +:+ cmdName (cmd t))) m));
    [by apply footprint_say|].
  set (m1 := say _ m).
  apply (footprint_trans [t] [] _
           (setQueue (Queue (parallelism (taskQueue m1)) (tasks (taskQueue m1) ++ [t])
                            (started (taskQueue m1)) (active (taskQueue m1))
                            (remaining (taskQueue m1) + 1) (awaiting (taskQueue m1)))
                     (setChildren (children m1 ++ [Idle]) m1)));
    [|apply footprint_popLoop].
  unfold footprint. subst m1. qfields.
  split; [done|]. split; [done|]. split; [done|]. split; [done|].
  split; [by rewrite length_app|]. split; [exists 0; by rewrite app_nil_r|].
  exists []. rewrite app_nil_r. split; [done|]. split; [done|]. intros _. cbn. lia.
Qed.

Lemma footprint_forEachNeeded ts index m : footprint ts m (forEachNeeded ts index m).
Proof.
  revert index m. induction ts as [|t ts IH]; intros index m; [apply footprint_refl|].
  cbn [forEachNeeded]. apply (footprint_trans [t] ts _ _ _ (footprint__runTask t m)).
  case_bool_decide; [|apply IH].
  apply (footprint_trans [] ts _ (emit (AllTasksRunning (getTasksMetaData (_runTask t m)))
                                      (_runTask t m))); [by apply footprint_emit | apply IH].
Qed.

Lemma lifecycle_none p es e : lifecycle p es = None -> lifecycle p (es ++ [e]) = None.
Proof.
  revert p. induction es as [|e0 es IH]; intros p; [done|]. simpl.
  destruct (advance p e0); [apply IH | done].
Qed.

(** How a sequence of events can end in the stage of the running tasks. *)
Lemma lifecycle_running p es e :
  lifecycle p (es ++ [e]) = Some Running ->
  match e with
  | AllTasksRunning _ => True
  | TaskDone _ _ => lifecycle p es = Some Running
  | _ => False
  end.
Proof.
  destruct (lifecycle p es) as [p'|] eqn:Hes.
  - rewrite (lifecycle_snoc _ _ _ _ Hes). by destruct p', e.
  - by rewrite (lifecycle_none _ _ _ Hes).
Qed.

Lemma events_trace m : events m = emitted (trace m).
Proof. done. Qed.

Lemma waiting_same m m' :
  events m' = events m -> awaiting (taskQueue m') = awaiting (taskQueue m) ->
  remaining (taskQueue m') = remaining (taskQueue m) -> waiting m -> waiting m'.
Proof. unfold waiting. by intros -> -> ->. Qed.

Lemma waiting_say o m : (forall e, o <> Emit e) -> waiting m -> waiting (say o m).
Proof.
  intros Hne. apply waiting_same; try done.
  rewrite !events_trace. qfields. rewrite emitted_app.
  destruct o; try apply app_nil_r. by destruct (Hne e).
Qed.

(** After an event other than [alltasksrunning] and [taskdone]. *)
Lemma waiting_emit e m :
  match e with AllTasksRunning _ | TaskDone _ _ => False | _ => True end ->
  waiting (emit e m).
Proof.
  intros He _ Hrun. rewrite events_emit in Hrun. apply lifecycle_running in Hrun.
  by destruct e.
Qed.

Lemma waiting_emit_taskdone name md m : waiting m -> waiting (emit (TaskDone name md) m).
Proof.
  intros Hw Haw Hrun. rewrite events_emit in Hrun. apply lifecycle_running in Hrun.
  rewrite taskQueue_emit in *. by apply Hw.
Qed.

Lemma waiting_localComplete t m : waiting m -> waiting (localComplete t m).
Proof. intros Hw. unfold localComplete. by apply waiting_emit_taskdone, waiting_say. Qed.

(** Whatever the state before: after a call of [callback] either
    something remains, or [alltasksdone] has just been emitted, or nobody
    awaits the queue. *)
Lemma waiting_released m :
  waiting (let m1 := setQueue (released (taskQueue m)) m in
           if bool_decide (remaining (taskQueue m1) = 0)%Z then notify m1 else m1).
Proof.
  cbn zeta. case_bool_decide as Hzero.
  - unfold notify. destruct (awaiting _) eqn:Haw; [by apply waiting_emit|].
    intros Haw'. congruence.
  - by intros _ _.
Qed.

Lemma waiting_callbackInPop i m : waiting (callbackInPop i m).
Proof. apply waiting_released. Qed.

Lemma waiting_performAll k i t effs m :
  (forall j m0, waiting (k j m0)) -> waiting m -> waiting (performAll k i t effs m).
Proof.
  intros Hk. revert m. induction effs as [|e effs IH]; intros m Hw; [done|].
  rewrite performAll_cons. apply IH.
  destruct e; cbn [perform]; auto using waiting_localComplete; by apply waiting_say.
Qed.

Lemma waiting_startTask i t m : waiting m -> waiting (startTask i t m).
Proof.
  intros Hw. unfold startTask. destruct (cmd t) as [text|name source [|]].
  - by apply waiting_say.
  - apply waiting_performAll; [apply waiting_callbackInPop|].
    apply (waiting_same (say (CallFunction i) m)); [done..|]. by apply waiting_say.
  - apply (waiting_same (say (CallFunction i) m)); [done..|]. by apply waiting_say.
Qed.

Lemma waiting_popLoop fuel m : waiting m -> waiting (popLoop fuel m).
Proof.
  revert m. induction fuel as [|fuel IH]; intros m Hw; [done|]. cbn [popLoop].
  destruct (bool_decide _ && slotFree _); [|done].
  destruct (tasks (taskQueue m) !! started (taskQueue m)) as [t|]; [|done].
  apply IH, waiting_startTask. by apply (waiting_same m).
Qed.

Lemma waiting_callback i m : waiting (callback i m).
Proof.
  unfold callback. pose proof (waiting_released m) as Hw. cbn zeta in Hw.
  case_bool_decide; [done|]. by apply waiting_popLoop.
Qed.

Lemma waiting_runTasks m : waiting (runTasks m).
Proof.
  unfold runTasks. case_bool_decide.
  - unfold queueAwait. case_bool_decide as Hzero.
    + unfold notify. qfields. by apply waiting_emit.
    + intros _ _. by qfields.
  - by apply waiting_emit.
Qed.

Lemma waiting_deliver s m : waiting m -> waiting (deliver s m).
Proof.
  intros Hw. destruct s as [|i ev|i]; unfold deliver.
  - destruct (timers m) as [|[| |] ds]; [done|..]; unfold runDeferred.
    + by apply waiting_emit.
    + apply waiting_runTasks.
    + by apply waiting_emit.
  - destruct (children m !! i) as [[|stdout exited|k]|]; try done.
    destruct (tasks (taskQueue m) !! i) as [t|]; [|done].
    destruct ev as [data|data|code]; [| |destruct exited; [done|]];
      cbn [childStep onStdoutData snd];
      (apply waiting_performAll; [apply waiting_callback | by apply (waiting_same m)]).
  - destruct (children m !! i) as [[|stdout exited|k]|]; try done.
    destruct (tasks (taskQueue m) !! i) as [t|]; [|done].
    apply waiting_performAll; [apply waiting_callback | by apply (waiting_same m)].
Qed.

Lemma duringTasks_writesLedger l o : duringTasks o = true -> writesLedger l o.
Proof. by destruct o. Qed.

Lemma footprint_after added m1 m2 m3 :
  footprint added m1 m2 -> footprint [] m2 m3 -> footprint added m1 m3.
Proof.
  intros H12 H23. pose proof (footprint_trans _ _ _ _ _ H12 H23) as Hfp.
  by rewrite app_nil_r in Hfp.
Qed.

Lemma footprint_queueAwait m : footprint [] m (queueAwait m).
Proof.
  unfold queueAwait.
  eapply footprint_then; [|case_bool_decide; [apply footprint_notify | apply footprint_refl]].
  by apply footprint_queue.
Qed.

(** [runTasks], after it has begun to listen and has emitted
    [alltasksready]. *)
Lemma footprint_runTasks m :
  footprint (neededTasks (reg m))
    (emit (AllTasksReady (getTasksMetaData (setListening m))) (setListening m))
    (runTasks m).
Proof.
  unfold runTasks. set (m2 := emit _ (setListening m)).
  assert (reg m2 = reg m) as Hreg by (subst m2; by rewrite reg_emit).
  rewrite Hreg. case_bool_decide as Hlen.
  - eapply footprint_after; [apply footprint_forEachNeeded | apply footprint_queueAwait].
  - destruct (neededTasks (reg m)); [|simpl in Hlen; lia].
    eapply footprint_then; by apply footprint_emit.
Qed.

(** From [runTasks] on, a step with the footprint of the tasks keeps
    the instance sound. *)
Lemma sound_footprint r m m' :
  sound r m -> listening m = true -> Forall (fun d => d = Finish) (timers m) ->
  tasks (taskQueue m) = neededTasks r -> length (children m) = length (neededTasks r) ->
  (exists md rest, events m = Ready :: AllTasksReady md :: rest) ->
  footprint [] m m' -> waiting m' -> sound r m'.
Proof.
  intros (Hreg & _ & _ & Hrun & Hwrites) Hl Hti Hta Hch (md & rest & Hev)
         (Hr & Hl' & _ & Ht' & Hc' & [k Hk] & extra & Hx & Hq & Hn) Hw.
  rewrite app_nil_r in Ht'. simpl in Hc'.
  assert (events m' = events m ++ emitted extra) as Hev'.
  { by rewrite !events_trace, Hx, emitted_app. }
  unfold sound. split; [congruence|]. split; [|split; [done|split]].
  - right. right. split; [congruence|]. split.
    + rewrite Hk. apply Forall_app. split; [done|]. by apply Forall_replicate.
    + split; [congruence|]. split; [lia|]. exists md, (rest ++ emitted extra).
      by rewrite Hev', Hev.
  - rewrite Hev', taskDones_app, Hn by done. lia.
  - rewrite Hx. apply Forall_app. split; [done|].
    eapply Forall_impl; [exact Hq|]. intros o. apply duringTasks_writesLedger.
Qed.

Lemma sound_handled r m i t effs c :
  sound r m -> sound r (performAll callback i t effs
                          (setChildren (<[i := c]> (children m)) m)) \/
               children m = [].
Proof.
  intros Hsound. pose proof Hsound as (_ & Hhanded & Hw & _).
  destruct Hhanded as [(_ & _ & Hnil & _)|[(_ & _ & Hnil & _)|(Hl & Hti & Hta & Hch & Hev)]];
    [by right | by right | left].
  eapply sound_footprint; try done.
  - eapply footprint_then; [apply footprint_child|].
    apply footprint_performAll, footprint_callback.
  - apply waiting_performAll; [apply waiting_callback | by apply (waiting_same m)].
Qed.

Lemma sound_deliver r s m : sound r m -> sound r (deliver s m).
Proof.
  intros Hsound. destruct s as [|i ev|i]; unfold deliver.
  - pose proof Hsound as (Hreg & Hhanded & Hw & Hrun & Hwrites).
    destruct Hhanded as [(Hev & Hti & Hun)|[(Hev & Hti & Hun)|(Hl & Hti & Hta & Hch & Hev)]].
    + rewrite Hti. unfold runDeferred, sound. rewrite reg_emit. split; [done|].
      split; [|split; [by apply waiting_emit|]].
      * right. left. rewrite events_emit. unfold emit. qfields.
        change (events (setTimers [] m)) with (events m). by rewrite Hev.
      * rewrite events_emit, trace_emit, taskDones_app. unfold emit. qfields.
        change (events (setTimers [] m)) with (events m). rewrite Hrun. split; [cbn; lia|].
        apply Forall_app. split; [done|]. by repeat constructor.
    + rewrite Hti. unfold runDeferred.
      destruct Hun as (Hcs & Htasks & Hrem & Hst & Haw & Hlisten).
      set (m0 := setTimers [] m).
      set (m2 := emit (AllTasksReady (getTasksMetaData (setListening m0))) (setListening m0)).
      pose proof (footprint_runTasks m0)
        as (Hr & Hl' & _ & Ht' & Hc' & [k Hk] & extra & Hx & Hq & Hn).
      fold m2 in Hr, Hl', Ht', Hc', Hk, Hx, Hn.
      assert (trace m2 = trace m ++ [Emit (AllTasksReady (getTasksMetaData (setListening m0)))])
        as Htr2 by (subst m2; by rewrite trace_emit).
      assert (reg m2 = r) as Hreg2 by (subst m2; by rewrite reg_emit).
      assert (listening m2 = true) as Hl2 by (by subst m2; unfold emit).
      assert (timers m2 = []) as Hti2 by (by subst m2; unfold emit).
      assert (tasksRun m2 = tasksRun m) as Hrun2 by (by subst m2; unfold emit).
      assert (tasks (taskQueue m2) = []) as Hta2
        by (subst m2; rewrite taskQueue_emit; by qfields).
      assert (children m2 = []) as Hch2 by (subst m2; rewrite children_emit; by qfields).
      assert (events (runTasks m0) =
              Ready :: AllTasksReady (getTasksMetaData (setListening m0)) :: emitted extra)
        as Hev'.
      { rewrite events_trace, Hx, Htr2, !emitted_app, <- events_trace, Hev. done. }
      unfold sound. split; [congruence|]. split; [|split; [apply waiting_runTasks|split]].
      * right. right. split; [congruence|]. split.
        -- rewrite Hk, Hti2. by apply Forall_replicate.
        -- assert (reg m0 = r) as Hreg0 by done.
           rewrite Ht', Hta2, Hc', Hch2, Hreg0. split; [done|]. split; [done|].
           by eexists _, _.
      * rewrite Hev', Hn, Hrun2, Hrun, Hev by done. done.
      * rewrite Hx, Htr2. apply Forall_app. split.
        -- apply Forall_app. split; [done|]. by repeat constructor.
        -- eapply Forall_impl; [exact Hq|]. intros o. apply duringTasks_writesLedger.
    + destruct (timers m) as [|d ds] eqn:Htimers; [done|].
      apply Forall_cons in Hti as [-> Hds]. unfold runDeferred.
      destruct Hev as (md & rest & Hev).
      unfold sound. rewrite reg_emit. split; [done|].
      split; [|split; [by apply waiting_emit|]].
      * right. right. rewrite events_emit, !events_say, !app_nil_r.
        change (events (setTimers ds m)) with (events m). unfold emit. qfields.
        split; [done|]. split; [done|]. split; [done|]. split; [done|].
        exists md, (rest ++ [Done (getTasksMetaData
                       (say (WritePrivateData (privateData (reg m)))
                            (say WritePublicData (setTimers ds m))))]).
        by rewrite Hev.
      * rewrite events_emit, !events_say, !app_nil_r, trace_emit, taskDones_app.
        change (events (setTimers ds m)) with (events m). unfold emit. qfields.
        split; [rewrite Hrun; cbn; lia|].
        rewrite Hreg. repeat (apply Forall_app; split; [|by repeat constructor]). done.
  - destruct (children m !! i) as [[|stdout exited|k]|] eqn:Hc; try done.
    destruct (tasks (taskQueue m) !! i) as [t|]; [|done].
    destruct ev as [data|data|code]; [| |destruct exited; [done|]];
      cbn [childStep onStdoutData snd];
      (match goal with
       | |- sound r (performAll callback i t ?effs (setChildren (<[i := ?c]> _) m)) =>
           destruct (sound_handled r m i t effs c Hsound) as [?|Hnil];
             [done | by rewrite Hnil in Hc]
       end).
  - destruct (children m !! i) as [[|stdout exited|k]|] eqn:Hc; try done.
    destruct (tasks (taskQueue m) !! i) as [t|]; [|done].
    destruct (sound_handled r m i t continuation (Invoked (S k)) Hsound) as [?|Hnil];
      [done | by rewrite Hnil in Hc].
Qed.

Lemma sound_run r n script : sound r (run (newManager r n) script).
Proof.
  assert (sound r (newManager r n)) as Hnew.
  { unfold sound, newManager. qfields. split; [done|]. split; [by left|].
    split; [by intros ?|]. done. }
  revert Hnew. generalize (newManager r n).
  induction script as [|s script IH]; intros m Hsound; [done|].
  unfold run. cbn [foldl]. by apply IH, sound_deliver.
Qed.

(** The run itself never writes to the ledger: whatever the children
    report (failures and timeouts included) and in whatever order, the
    ledger stored by the final write is the one the registrations left. *)
Theorem run_stores_the_ledger_of_the_registration r n script :
  (forall written,
      WritePrivateData written ∈ trace (run (newManager r n) script) ->
      written = privateData r) /\
  reg (run (newManager r n) script) = r.
Proof.
  destruct (sound_run r n script) as (Hreg & _ & _ & _ & Hwrites). split; [|done].
  intros written Hin. by apply (proj1 (Forall_forall _ _) Hwrites _ Hin).
Qed.

(** The payload of the events: at any point of any run, the three
    counters are the number of calls of [addTask] that returned, the number
    of queued tasks, and the number of [taskdone] events emitted so far. *)
Theorem tasksRun_counts_the_taskdone_events r n script :
  getTasksMetaData (run (newManager r n) script) =
    TasksMetaData (length (allTasks r)) (length (neededTasks r))
                  (taskDones (events (run (newManager r n) script))).
Proof.
  destruct (sound_run r n script) as (Hreg & _ & _ & Hrun & _).
  unfold getTasksMetaData. by rewrite Hreg, Hrun.
Qed.

(** In every run, whatever the children and the functions do, the
    tasks are started in the order of their registration, each once: the
    task started in the [k]-th place is the [k]-th needed task, a [exec] is
    given the text of its command and the timeout of ten minutes, and only
    needed tasks are started. *)
Theorem starts_in_registration_order r n script :
  starts (run (newManager r n) script) =
    seq 0 (length (starts (run (newManager r n) script))) /\
  length (starts (run (newManager r n) script)) <= length (neededTasks r) /\
  (forall i text timeout,
      Exec i text timeout ∈ trace (run (newManager r n) script) ->
      cmd <$> neededTasks r !! i = Some (CmdString text) /\ timeout = execTimeout) /\
  (forall i,
      CallFunction i ∈ trace (run (newManager r n) script) ->
      exists name source eager,
        cmd <$> neededTasks r !! i = Some (CmdFunction name source eager)).
Proof.
  destruct (starts_follow_the_queue r n script) as (Hstarts & Htrace & _).
  destruct (sound_run r n script) as (_ & Hhanded & _).
  set (m := run (newManager r n) script) in *.
  assert (tasks (taskQueue m) = [] \/ tasks (taskQueue m) = neededTasks r) as Htasks.
  { destruct Hhanded as [(_ & _ & _ & ? & _)|[(_ & _ & _ & ? & _)|(_ & _ & ? & _)]]; auto. }
  assert (forall o, o ∈ trace m -> startOf (taskQueue m) o) as Hof.
  { by apply Forall_forall. }
  assert (forall i, i ∈ starts m -> is_Some (tasks (taskQueue m) !! i)) as Hstarted.
  { intros i Hin. unfold starts in Hin. apply list_elem_of_omap in Hin as (o & Ho & Hi).
    apply Hof in Ho.
    destruct o; try done; injection Hi as ->; cbn [startOf] in Ho.
    - destruct Ho as [Ho _]. destruct (tasks (taskQueue m) !! i); [by eexists | done].
    - destruct Ho as (? & ? & ? & Ho).
      destruct (tasks (taskQueue m) !! i); [by eexists | done]. }
  split; [by rewrite Hstarts, length_seq|].
  split; [|split].
  - rewrite Hstarts, length_seq.
    destruct (started (taskQueue m)) as [|k] eqn:Hk; [lia|].
    destruct (Hstarted k) as [t Ht].
    { rewrite Hstarts, ?Hk. apply list_elem_of_In, in_seq. lia. }
    apply lookup_lt_Some in Ht.
    destruct Htasks as [Hnil|Heq]; [rewrite Hnil in Ht; simpl in Ht; lia | by rewrite <- Heq].
  - intros i text timeout Hin. apply Hof in Hin as [Hlook ->]. split; [|done].
    destruct Htasks as [Hnil|Heq]; [by rewrite Hnil in Hlook | by rewrite <- Heq].
  - intros i Hin. apply Hof in Hin as (name & source & eager & Hlook).
    exists name, source, eager.
    destruct Htasks as [Hnil|Heq]; [by rewrite Hnil in Hlook | by rewrite <- Heq].
Qed.






(** Nothing guards the continuation handed to a function: each time it
    is invoked, the first time or again, [taskdone] is emitted for the task
    and the counter of the tasks that have run goes up, so that it can
    exceed the number of needed tasks. *)
Theorem continuation_is_not_guarded r n script i k t :
  children (run (newManager r n) script) !! i = Some (Invoked k) ->
  tasks (taskQueue (run (newManager r n) script)) !! i = Some t ->
  exists rest,
    events (deliver (Continue i) (run (newManager r n) script)) =
      events (run (newManager r n) script)
        ++ TaskDone (cmdName (cmd t)) (getMetadataBySlug r (tslug t)) :: rest /\
    tasksRun (deliver (Continue i) (run (newManager r n) script)) =
      S (tasksRun (run (newManager r n) script)) + taskDones rest.
Proof.
  intros Hchild Htask.
  destruct (sound_run r n script) as (Hreg & Hhanded & _ & Hrun & _).
  pose proof (sound_deliver r (Continue i) _ (sound_run r n script)) as (_ & _ & _ & Hrun' & _).
  set (m := run (newManager r n) script) in *.
  assert (listening m = true) as Hl.
  { destruct Hhanded as [(_ & _ & _ & Hnil & _)|[(_ & _ & _ & Hnil & _)|(? & _)]];
      [by rewrite Hnil in Htask..|done]. }
  assert (exists rest, events (deliver (Continue i) m) =
            events m ++ TaskDone (cmdName (cmd t)) (getMetadataBySlug r (tslug t)) :: rest)
    as [rest Hev].
  { unfold deliver. rewrite Hchild, Htask. unfold continuation.
    rewrite !performAll_cons, performAll_nil. cbn [perform].
    set (m1 := setChildren _ m).
    destruct (footprint_callback i (localComplete t (say (OnComplete i None) m1)))
      as (_ & _ & _ & _ & _ & _ & extra & Hx & _).
    exists (emitted extra). rewrite events_trace, Hx, emitted_app, <- events_trace.
    unfold localComplete. rewrite events_emit, !events_say, !app_nil_r.
    rewrite <- app_assoc. cbn [app]. subst m1. qfields.
    change (events (setChildren _ m)) with (events m). by rewrite Hreg. }
  exists rest. split; [done|].
  rewrite Hrun', Hev, Hrun, taskDones_app.
  change (taskDones (TaskDone ?a ?b :: rest)) with (S (taskDones rest)). lia.
Qed.

End RunFacts.





(** ** The text made of the document *)

Section MarkupFacts.

Context {doc : Type} `{!Markup doc}.

Lemma straighten_angle c :
  (straighten c =? greaterThan)%N = (c =? greaterThan)%N /\
  (straighten c =? lessThan)%N = (c =? lessThan)%N.
Proof.
  unfold straighten.
  destruct (c =? 8220)%N eqn:H1; [apply N.eqb_eq in H1 as ->; done|].
  destruct (c =? 8221)%N eqn:H2; [apply N.eqb_eq in H2 as ->; done|].
  destruct (c =? 8216)%N eqn:H3; [apply N.eqb_eq in H3 as ->; done|].
  destruct (c =? 8217)%N eqn:H4; [apply N.eqb_eq in H4 as ->; done|].
  done.
Qed.

Lemma straighten_twice c : straighten (straighten c) = straighten c.
Proof.
  unfold straighten.
  destruct (c =? 8220)%N eqn:H1; [done|].
  destruct (c =? 8221)%N eqn:H2; [done|].
  destruct (c =? 8216)%N eqn:H3; [done|].
  destruct (c =? 8217)%N eqn:H4; [done|].
  cbn [orb]. by rewrite H1, H2, H3, H4.
Qed.

Lemma closes_replaceFrom inTag s : closes (replaceFrom inTag s) = closes s.
Proof.
  revert inTag. induction s as [|c s IH]; intros inTag; [done|].
  cbn [replaceFrom closes]. destruct inTag.
  - destruct (c =? greaterThan)%N eqn:Hgt; cbn [closes].
    + by rewrite Hgt.
    + destruct (straighten_angle c) as [-> ->]. by rewrite Hgt, IH.
  - destruct ((c =? lessThan)%N && closes s); cbn [closes]; by rewrite IH.
Qed.

Lemma replaceFrom_twice inTag s :
  replaceFrom inTag (replaceFrom inTag s) = replaceFrom inTag s.
Proof.
  revert inTag. induction s as [|c s IH]; intros inTag; [done|].
  cbn [replaceFrom]. destruct inTag.
  - destruct (c =? greaterThan)%N eqn:Hgt; cbn [replaceFrom].
    + by rewrite Hgt, IH.
    + destruct (straighten_angle c) as [-> _]. by rewrite Hgt, straighten_twice, IH.
  - destruct ((c =? lessThan)%N && closes s) eqn:Hopen; cbn [replaceFrom];
      by rewrite closes_replaceFrom, Hopen, IH.
Qed.

Lemma replaceFrom_pointwise inTag s :
  Forall2 (fun c d => d = c \/ (d = straighten c /\ d <> c)) s (replaceFrom inTag s).
Proof.
  revert inTag. induction s as [|c s IH]; intros inTag; [constructor|].
  cbn [replaceFrom]. destruct inTag.
  - destruct (c =? greaterThan)%N; constructor; auto.
    destruct (decide (straighten c = c)) as [->|Hne]; auto.
  - destruct ((c =? lessThan)%N && closes s); constructor; auto.
Qed.

Lemma replaceFrom_without_tag s : lessThan ∉ s -> replaceFrom false s = s.
Proof.
  induction s as [|c s IH]; [done|]. intros Hnot.
  cbn [replaceFrom]. destruct (c =? lessThan)%N eqn:Hlt.
  - apply N.eqb_eq in Hlt as ->. destruct Hnot. by left.
  - cbn [andb]. rewrite IH; [done|]. intros Hin. apply Hnot. by right.
Qed.

Lemma replaceFrom_before_tag pre rest :
  lessThan ∉ pre -> replaceFrom false (pre ++ rest) = pre ++ replaceFrom false rest.
Proof.
  induction pre as [|c pre IH]; [done|]. intros Hnot.
  rewrite <- !app_comm_cons. cbn [replaceFrom]. destruct (c =? lessThan)%N eqn:Hlt.
  - apply N.eqb_eq in Hlt as ->. destruct Hnot. by left.
  - cbn [andb]. rewrite IH; [done|]. intros Hin. apply Hnot. by right.
Qed.

Lemma replaceFrom_inside inside post :
  Forall (fun c => c <> lessThan /\ c <> greaterThan) inside ->
  closes (inside ++ greaterThan :: post) = true /\
  replaceFrom true (inside ++ greaterThan :: post) =
    (straighten <$> inside) ++ greaterThan :: replaceFrom false post.
Proof.
  induction inside as [|c inside IH]; [done|].
  intros [[Hlt Hgt] Hrest]%Forall_cons. destruct (IH Hrest) as [Hcloses Hreplace].
  rewrite <- !app_comm_cons. cbn [closes replaceFrom].
  apply N.eqb_neq in Hlt, Hgt. rewrite Hlt, Hgt. by rewrite Hcloses, Hreplace.
Qed.

(** The replacement of the typographic quotes.  In a tag, from a [<] to
    the next [>] with neither of the two in between, each typographic
    quote becomes the straight one, and the text before the first [<] is
    left as it is.  In general code units are changed in place, one for
    one, and only typographic quotes are changed; a text without [<] is
    not changed at all, so the quotes of the running text stay
    typographic; and applying the replacement again changes nothing. *)
Theorem straightenTags_replaces_quotes_in_tags :
  (forall pre inside post,
      lessThan ∉ pre -> Forall (fun c => c <> lessThan /\ c <> greaterThan) inside ->
      straightenTags (pre ++ lessThan :: inside ++ greaterThan :: post) =
        pre ++ lessThan :: (straighten <$> inside) ++ greaterThan :: straightenTags post) /\
  (forall s,
      Forall2 (fun c d => d = c \/ (d = straighten c /\ d <> c)) s (straightenTags s) /\
      length (straightenTags s) = length s /\
      (lessThan ∉ s -> straightenTags s = s) /\
      straightenTags (straightenTags s) = straightenTags s).
Proof.
  split.
  - intros pre inside post Hpre Hinside. unfold straightenTags.
    rewrite replaceFrom_before_tag by done. cbn [replaceFrom].
    destruct (replaceFrom_inside inside post Hinside) as [-> ->]. done.
  - intros s. split; [apply replaceFrom_pointwise|]. split; [|split].
    + symmetry. eapply Forall2_length, replaceFrom_pointwise.
    + apply replaceFrom_without_tag.
    + apply replaceFrom_twice.
Qed.




End MarkupFacts.


(** ** Runs of the example configurations *)

(** C1 (counterexample): the ledger is the one the first run wrote.  The
    record for (slug, signature) exists and equals the current fingerprint,
    the output exists and [forceTask] is off, so the rule of the
    specification says not needed; [addTask] queues the task. *)
Lemma empty_fingerprint_is_rerun :
  privateData (registered (H := noOpenssl) firstRun [(convertA, "a", "/o/a-180.jpg")])
    = privateData secondRun /\
  ledgerEntry secondRun "a" (cmdLog (H := noOpenssl) convertA) = Some EmptyString /\
  (srcFileHash <$> getPrivateDataBySlug secondRun "a") = Some EmptyString /\
  spec_needsRun (Some EmptyString) EmptyString
    (bool_decide ("/o/a-180.jpg" ∈ disk secondRun)) (forceTask secondRun) = false /\
  exists r', addTask (H := noOpenssl) secondRun convertA "a" "/o/a-180.jpg" = Returned r' /\
    neededTasks r' = [Task convertA "a" (Some (PublicData "a" "jpg"))].
Proof.
  split; [by vm_compute|].
  split; [by vm_compute|]. split; [by vm_compute|]. split; [by vm_compute|].
  eexists. split; [reflexivity|]. by vm_compute.
Qed.

(** C2 (counterexample): one needed task, a function that calls its
    continuation before it returns.  The queue starts it inside [defer], so
    [taskdone] is emitted before [alltasksrunning]. *)
Lemma eager_taskdone_precedes_alltasksrunning :
  events (run eagerManager [Tick; Tick]) =
    [Ready;
     AllTasksReady (TasksMetaData 1 1 0);
     TaskDone "f" publicA;
     AllTasksRunning (TasksMetaData 1 1 1);
     AllTasksDone (TasksMetaData 1 1 1)] /\
  ~ inLifecycleOrder (events (run eagerManager [Tick; Tick])).
Proof.
  assert (events (run eagerManager [Tick; Tick]) =
    [Ready;
     AllTasksReady (TasksMetaData 1 1 0);
     TaskDone "f" publicA;
     AllTasksRunning (TasksMetaData 1 1 1);
     AllTasksDone (TasksMetaData 1 1 1)]) as Hev by (by vm_compute).
  split; [done|]. rewrite Hev. intros [p Hp]. discriminate Hp.
Qed.

Lemma lifecycle_order_witness :
  Forall (fun t => nonEager t = true) (neededTasks mixedRegistry) /\
  orderly mixedScript /\
  inLifecycleOrder (events (run (newManager mixedRegistry 1) mixedScript)).
Proof.
  assert (Forall (fun t => nonEager t = true) (neededTasks mixedRegistry)) as Hall.
  { repeat constructor. }
  assert (orderly mixedScript) as Hord.
  { split; [repeat constructor|]. apply NoDup_singleton. }
  split; [exact Hall|]. split; [exact Hord|].
  exact (proj1 (lifecycle_order mixedRegistry 1 mixedScript Hall Hord)).
Defined.

(** C5 (the claim fails here): limit 1, two string commands.  The first
    child writes a warning to [stderr]; the handler calls [callback], the
    queue starts the second child, and both children are running. *)
Theorem warning_starts_the_next_child :
  parallelism (taskQueue twoCommands) = 1 /\
  execs (run twoCommands warningOnly) = [Exec 0 "c0" 600000; Exec 1 "c1" 600000] /\
  children (run twoCommands warningOnly) =
    [Spawned EmptyString false; Spawned EmptyString false] /\
  outstanding (run twoCommands warningOnly) = 2.
Proof. split_and!; by vm_compute. Qed.

Lemma addTask_needed_iff_witness :
  getPrivateDataBySlug oneImage "a" = Some recordA /\
  exists r', addTask (H := demo) oneImage convertA "a" "/o/a-180.jpg" = Returned r' /\
    allTasks r' = allTasks oneImage ++ [convertA] /\
    ((neededCondition (H := demo) oneImage convertA "a" "/o/a-180.jpg" (srcFileHash recordA) /\
      neededTasks r' = neededTasks oneImage
                         ++ [Task convertA "a" (getMetadataBySlug oneImage "a")]) \/
     (~ neededCondition (H := demo) oneImage convertA "a" "/o/a-180.jpg" (srcFileHash recordA) /\
      neededTasks r' = neededTasks oneImage)).
Proof.
  assert (getPrivateDataBySlug oneImage "a" = Some recordA) as Hknown by (by vm_compute).
  split; [exact Hknown|].
  exact (addTask_needed_iff (H := demo) oneImage convertA "a" "/o/a-180.jpg" recordA Hknown).
Defined.


Lemma cmdLog_is_ledger_key_witness :
  exists mp1 mp2,
    getPrivateDataBySlug oneImage "a" = Some mp1 /\
    getPrivateDataBySlug twoFormats "a" = Some mp2 /\
    ledgerEntry (registered (H := demo) oneImage [(lazyFunction, "a", "/o/a.txt")])
                "a" (cmdLog (H := demo) lazyFunction) = Some (srcFileHash mp1) /\
    ledgerEntry (registered (H := demo) twoFormats [(lazyFunction, "a", "/o/b.txt")])
                "a" (cmdLog (H := demo) lazyFunction) = Some (srcFileHash mp2).
Proof.
  apply (proj2 (proj2 (cmdLog_is_ledger_key (H := demo)))
           oneImage twoFormats lazyFunction "a" "a" "/o/a.txt" "/o/b.txt").
  - by vm_compute.
  - by vm_compute.
  - vm_compute. discriminate.
  - vm_compute. discriminate.
Defined.


(** ** The scenarios of the specification *)

(** First run: nothing recorded, no output.  One task is needed, the
    ledger holds the fingerprint from the registration on, and it is the
    ledger written at the end of the run. *)
Example scenario_first_run :
  neededTasks (registered (H := demo) oneImage convertCall) = [Task convertA "a" publicA] /\
  ledgerEntry (registered (H := demo) oneImage convertCall) "a" "convert a" = Some "H1" /\
  events (run (newManager (registered (H := demo) oneImage convertCall) 1)
              [Tick; Tick; FromChild 0 (Exit (Some 0%Z)); Tick]) =
    [Ready; AllTasksReady (TasksMetaData 1 1 0); AllTasksRunning (TasksMetaData 1 1 0);
     TaskDone "convert a" publicA; AllTasksDone (TasksMetaData 1 1 1);
     Done (TasksMetaData 1 1 1)] /\
  WritePrivateData {["a" := {["convert a" := "H1"]}]}
    ∈ trace (run (newManager (registered (H := demo) oneImage convertCall) 1)
                 [Tick; Tick; FromChild 0 (Exit (Some 0%Z)); Tick]).
Proof.
  split_and!; try by vm_compute.
  apply list_elem_of_In. vm_compute. tauto.
Qed.

(** Second run, same fingerprint, output present: nothing is needed, and
    [alltasksdone] follows [alltasksrunning] at once. *)
Example scenario_rerun_unchanged :
  neededTasks (registered (H := demo) (laterRun "H1") convertCall) = [] /\
  events (run (newManager (registered (H := demo) (laterRun "H1") convertCall) 1)
              [Tick; Tick; Tick]) =
    [Ready; AllTasksReady (TasksMetaData 1 0 0); AllTasksRunning (TasksMetaData 1 0 0);
     AllTasksDone (TasksMetaData 1 0 0); Done (TasksMetaData 1 0 0)].
Proof. split; by vm_compute. Qed.

(** The source changed since the recorded run: one task is needed and the
    ledger takes the new fingerprint. *)
Example scenario_source_changed :
  neededTasks (registered (H := demo) (laterRun "H0") convertCall)
    = [Task convertA "a" publicA] /\
  ledgerEntry (registered (H := demo) (laterRun "H0") convertCall) "a" "convert a"
    = Some "H1".
Proof. split; by vm_compute. Qed.

(** A warning on [stderr] of the only child: the queue is told the task
    is over, [alltasksdone] and [done] are emitted, and the [taskdone] of
    the child comes after them when it exits. *)
Example warning_ends_the_run_before_the_child :
  events (run oneCommand
              [Tick; Tick; FromChild 0 (StderrData "warning"); Tick;
               FromChild 0 (Exit (Some 0%Z))]) =
    [Ready; AllTasksReady (TasksMetaData 1 1 0); AllTasksRunning (TasksMetaData 1 1 0);
     AllTasksDone (TasksMetaData 1 1 0); Done (TasksMetaData 1 1 0);
     TaskDone "c0" publicA].
Proof. by vm_compute. Qed.

(** ** The further properties on the example configurations *)

Lemma registering_again_witness :
  getPrivateDataBySlug oneImage "a" = Some recordA /\
  exists r' r'',
    addTask (H := demo) oneImage convertA "a" "/o/a-180.jpg" = Returned r' /\
    addTask (H := demo) r' convertA "a" "/o/a-180.jpg" = Returned r'' /\
    allTasks r'' = allTasks oneImage ++ [convertA; convertA] /\
    privateData r'' = privateData r' /\
    neededTasks r'' =
      neededTasks r' ++
      (if negb (truthy (srcFileHash recordA))
          || negb (bool_decide ("/o/a-180.jpg" ∈ disk oneImage)) || forceTask oneImage
       then [Task convertA "a" (getMetadataBySlug oneImage "a")] else []).
Proof.
  assert (getPrivateDataBySlug oneImage "a" = Some recordA) as Hknown by (by vm_compute).
  split; [exact Hknown|].
  exact (registering_again (H := demo) oneImage convertA "a" "/o/a-180.jpg" recordA Hknown).
Defined.



Lemma scanOne_stem_and_extension_witness :
  allChars (fun x => negb (isSlash x)) EmptyString = true /\
  truthy "a" = true /\ allChars (fun x => negb (isSlash x)) "a" = true /\
  truthy "JPG" = true /\
  allChars (fun x => negb (isSlash x) && negb (isDot x)) "JPG" = true /\
  scanOne (H := demo) ("/i" +:+ String "/"%char EmptyString) ("a" +:+ String "."%char "JPG") =
    ScannedFile (PublicData (slugify (Platform := demo) (EmptyString +:+ "a")) "JPG")
                ("/i" +:+ String "/"%char EmptyString) ("a" +:+ String "."%char "JPG")
                (("/i" +:+ String "/"%char EmptyString) +:+ "a" +:+ String "."%char "JPG").
Proof.
  split; [reflexivity|]. split; [reflexivity|]. split; [reflexivity|].
  split; [reflexivity|]. split; [reflexivity|].
  exact (scanOne_stem_and_extension (H := demo) "/i" EmptyString "a" "JPG"
           eq_refl eq_refl eq_refl eq_refl eq_refl).
Defined.

Lemma scanOne_without_dot_witness :
  truthy "xjpg" = true /\
  allChars (fun x => negb (isSlash x) && negb (isDot x)) "xjpg" = true /\
  scanOne (H := demo) ("/i" +:+ "/") "xjpg" =
    ScannedFile (PublicData (slugify (Platform := demo) "xjpg") EmptyString)
                ("/i" +:+ "/") "xjpg" (("/i" +:+ "/") +:+ "xjpg").
Proof.
  split; [reflexivity|]. split; [reflexivity|].
  exact (scanOne_without_dot (H := demo) "/i" "xjpg" eq_refl eq_refl).
Defined.

Lemma getFilePathFromMeta_of_scanned_witness :
  PublicData "a" "jpg"
    ∈ sourcePublicData (construct (H := demo) ["a.jpg"] "/i/" ["jpg"; "png"] false ∅ ∅) /\
  exists fileName,
    getFilePathFromMeta (construct (H := demo) ["a.jpg"] "/i/" ["jpg"; "png"] false ∅ ∅)
                        (PublicData "a" "jpg")
      = Some ("/i/" +:+ fileName) /\
    fileName ∈ ["a.jpg"] /\
    extensionTest (List.map toLowerCase ["jpg"; "png"]) (toLowerCase fileName) = true /\
    slug (scannedPublic (scanOne (H := demo) "/i/" fileName)) = slug (PublicData "a" "jpg").
Proof.
  assert (PublicData "a" "jpg"
            ∈ sourcePublicData
                (construct (H := demo) ["a.jpg"] "/i/" ["jpg"; "png"] false ∅ ∅)) as Hin.
  { apply list_elem_of_In. vm_compute. by left. }
  split; [exact Hin|].
  exact (getFilePathFromMeta_of_scanned (H := demo) ["a.jpg"] "/i/" ["jpg"; "png"] false ∅ ∅
           (PublicData "a" "jpg") Hin).
Defined.

Lemma index_requests_fourteen_commands_per_image_witness :
  shell demoMachine "type convert" = true /\ shell demoMachine "type pngquant" = true /\
  exists m,
    imageSizer (H := demo) demoMachine
               (indexOptions "/assets/images/" "/data/" "/tmp/" "/static/images/") = Built m /\
    parallelism (taskQueue m) = 1 /\ forceTask (reg m) = false /\
    length (allTasks (reg m)) =
      14 * length (getFilesInFolder (H := demo) (readdirSync demoMachine "/assets/images/")
                                    "/assets/images/" ["jpg"; "png"]).
Proof.
  split; [reflexivity|]. split; [reflexivity|].
  exact (index_requests_fourteen_commands_per_image (H := demo) demoMachine
           "/assets/images/" "/data/" "/tmp/" "/static/images/" eq_refl eq_refl).
Defined.

Lemma renditions_have_their_own_records_witness :
  NoDup (widths (indexOptions "/assets/images/" "/data/" "/tmp/" "/static/images/")) /\
  NoDup ((fun call : command * string * string => call.2)
           <$> renditions (indexOptions "/assets/images/" "/data/" "/tmp/" "/static/images/")
                          (PublicData "a" "jpg") "/assets/images/a.jpg") /\
  NoDup ((fun call : command * string * string => cmdLog (H := demo) call.1.1)
           <$> renditions (indexOptions "/assets/images/" "/data/" "/tmp/" "/static/images/")
                          (PublicData "a" "jpg") "/assets/images/a.jpg").
Proof.
  assert (NoDup (widths (indexOptions "/assets/images/" "/data/" "/tmp/" "/static/images/")))
    as Hwidths.
  { apply (bool_decide_unpack _). by vm_compute. }
  split; [exact Hwidths|].
  exact (renditions_have_their_own_records (H := demo)
           (indexOptions "/assets/images/" "/data/" "/tmp/" "/static/images/")
           (PublicData "a" "jpg") "/assets/images/a.jpg" Hwidths).
Defined.

Lemma orderly_run_within_limit_witness :
  Forall (fun t => nonEager t = true) (neededTasks mixedRegistry) /\
  orderly mixedScript /\
  (1 = 0 \/ outstanding (run (newManager mixedRegistry 1) mixedScript) <= 1) /\
  starts (run (newManager mixedRegistry 1) mixedScript) =
    seq 0 (started (taskQueue (run (newManager mixedRegistry 1) mixedScript))) /\
  (forall i text timeout,
      Exec i text timeout ∈ trace (run (newManager mixedRegistry 1) mixedScript) ->
      cmd <$> neededTasks mixedRegistry !! i = Some (CmdString text)).
Proof.
  assert (Forall (fun t => nonEager t = true) (neededTasks mixedRegistry)) as Hall.
  { repeat constructor. }
  assert (orderly mixedScript) as Hord.
  { split; [repeat constructor|]. apply NoDup_singleton. }
  split; [exact Hall|]. split; [exact Hord|].
  exact (orderly_run_within_limit mixedRegistry 1 mixedScript Hall Hord).
Defined.


Lemma continuation_is_not_guarded_witness :
  children (run (newManager mixedRegistry 1) continuedOnce) !! 1 = Some (Invoked 1) /\
  tasks (taskQueue (run (newManager mixedRegistry 1) continuedOnce)) !! 1
    = Some (Task lazyFunction "a" publicA) /\
  exists rest,
    events (deliver (Continue 1) (run (newManager mixedRegistry 1) continuedOnce)) =
      events (run (newManager mixedRegistry 1) continuedOnce)
        ++ TaskDone (cmdName (cmd (Task lazyFunction "a" publicA)))
                    (getMetadataBySlug mixedRegistry (tslug (Task lazyFunction "a" publicA)))
           :: rest /\
    tasksRun (deliver (Continue 1) (run (newManager mixedRegistry 1) continuedOnce)) =
      S (tasksRun (run (newManager mixedRegistry 1) continuedOnce)) + taskDones rest.
Proof.
  assert (children (run (newManager mixedRegistry 1) continuedOnce) !! 1 = Some (Invoked 1))
    as Hchild by (by vm_compute).
  assert (tasks (taskQueue (run (newManager mixedRegistry 1) continuedOnce)) !! 1
          = Some (Task lazyFunction "a" publicA)) as Htask by (by vm_compute).
  split; [exact Hchild|]. split; [exact Htask|].
  exact (continuation_is_not_guarded mixedRegistry 1 continuedOnce 1 1
           (Task lazyFunction "a" publicA) Hchild Htask).
Defined.
